(** * QuadRay engine: objects hierarchy (object.cpp)

    A shallow embedding of the update pipeline of the objects hierarchy:
    [rt_Object::update], [rt_Object::update_bvnode], [rt_Camera::update],
    [rt_Surface::add_relation], the [adjust_minmax] family,
    [rt_Surface::recalc_minmax] / [update_minmax] and the constructors.

    Conventions of the embedding.
    - [rt_real] values are exact rationals ([Q]); the source compares them
      with [==], [<], [<=] and only adds, subtracts, multiplies and negates
      them in the modelled functions.  [RT_INF] is a number like any
      other, recognised by [==] as in the source.  The rounding of the
      single-precision floats of the source is not modelled: where a
      theorem speaks of a sum, a difference or a product it speaks of
      the exact one, and the theorems about bounds rest on comparisons,
      minima, maxima and copies, which rounding does not affect.
    - [rt_cell] / [rt_long] values are integers ([Z]); flag words use
      [Z.land] / [Z.lor] as the source uses [&] and [|].
    - A C++ pointer is an address ([ptr]); [RT_NULL] is [None].
    - Macros and constants whose definitions live in object.h, rtbase.h
      and rtgeom.h are parameters of the development (the class
      [rt_Headers]). *)

From Stdlib Require Import ZArith QArith Qround List Bool String Lia Lqa.
Import ListNotations.

Set Implicit Arguments.
Set Warnings "-register-all".


Open Scope Z_scope.

(** ** Base types *)

Definition rt_real := Q.
Definition rt_cell := Z.
Definition rt_long := Z.
Definition ptr := nat.

(** Indices RT_X / RT_Y / RT_Z (world) and RT_I / RT_J / RT_K (local)
    address the same three slots 0, 1, 2 of an [rt_vec3]. *)
Inductive axis : Type := RT_X | RT_Y | RT_Z.

Definition RT_I : axis := RT_X.
Definition RT_J : axis := RT_Y.
Definition RT_K : axis := RT_Z.

(** [axis_of_index k] is the slot addressed by [k % 3] for [k >= 0]. *)
Definition axis_of_index (k : Z) : axis :=
  match k mod 3 with
  | 0 => RT_X
  | 1 => RT_Y
  | _ => RT_Z
  end.

Record rt_vec3 : Type := mk_vec3 { vx : rt_real; vy : rt_real; vz : rt_real }.

Definition vget (v : rt_vec3) (a : axis) : rt_real :=
  match a with RT_X => vx v | RT_Y => vy v | RT_Z => vz v end.

Definition vset (v : rt_vec3) (a : axis) (x : rt_real) : rt_vec3 :=
  match a with
  | RT_X => mk_vec3 x (vy v) (vz v)
  | RT_Y => mk_vec3 (vx v) x (vz v)
  | RT_Z => mk_vec3 (vx v) (vy v) x
  end.

(** format.h: [rt_TRANSFORM3D]. *)
Record rt_TRANSFORM3D : Type := mk_trm {
  scl : rt_vec3;
  rot : rt_vec3;
  pos : rt_vec3
}.

(** format.h: object tags.  The header orders them
    [RT_TAG_ARRAY] (-1) < surface tags < [RT_TAG_SURFACE_MAX]
    < [RT_TAG_CAMERA] (100) < [RT_TAG_LIGHT] (101). *)
Inductive rt_tag : Type :=
| RT_TAG_ARRAY
| RT_TAG_PLANE
| RT_TAG_CYLINDER
| RT_TAG_SPHERE
| RT_TAG_CONE
| RT_TAG_PARABOLOID
| RT_TAG_HYPERBOLOID
| RT_TAG_CAMERA
| RT_TAG_LIGHT.

(** [RT_IS_ARRAY(o)]: [(o)->tag == RT_TAG_ARRAY]. *)
Definition RT_IS_ARRAY (t : rt_tag) : bool :=
  match t with RT_TAG_ARRAY => true | _ => false end.

(** [RT_IS_SURFACE(o)]:
    [(o)->tag > RT_TAG_ARRAY && (o)->tag < RT_TAG_SURFACE_MAX]. *)
Definition RT_IS_SURFACE (t : rt_tag) : bool :=
  match t with
  | RT_TAG_PLANE | RT_TAG_CYLINDER | RT_TAG_SPHERE
  | RT_TAG_CONE | RT_TAG_PARABOLOID | RT_TAG_HYPERBOLOID => true
  | _ => false
  end.

(** [tag > RT_TAG_SURFACE_MAX]: cameras and lights. *)
Definition tag_above_SURFACE_MAX (t : rt_tag) : bool :=
  match t with RT_TAG_CAMERA | RT_TAG_LIGHT => true | _ => false end.

Definition tag_eqb (a b : rt_tag) : bool :=
  match a, b with
  | RT_TAG_ARRAY, RT_TAG_ARRAY | RT_TAG_PLANE, RT_TAG_PLANE
  | RT_TAG_CYLINDER, RT_TAG_CYLINDER | RT_TAG_SPHERE, RT_TAG_SPHERE
  | RT_TAG_CONE, RT_TAG_CONE | RT_TAG_PARABOLOID, RT_TAG_PARABOLOID
  | RT_TAG_HYPERBOLOID, RT_TAG_HYPERBOLOID
  | RT_TAG_CAMERA, RT_TAG_CAMERA | RT_TAG_LIGHT, RT_TAG_LIGHT => true
  | _, _ => false
  end.

(** format.h: [rt_FUNC_ANIM3D].  The callback mutates the transform it is
    handed; it is a function from the old transform to the new one (the
    [pobj] argument is always [RT_NULL] in [rt_Object::update]). *)
Definition rt_FUNC_ANIM3D := rt_long -> rt_long -> rt_TRANSFORM3D -> rt_TRANSFORM3D.

Definition ptr_eqb (a b : option ptr) : bool :=
  match a, b with
  | None, None => true
  | Some x, Some y => Nat.eqb x y
  | _, _ => false
  end.

(** ** Scalar macros of rtbase.h *)

(** Modelled from the spec: the macros RT_MAX, RT_MIN and RT_FABS of
    rtbase.h are not among the sources; they are the usual maximum,
    minimum and absolute value, written as the conditional expressions
    [(a) > (b) ? (a) : (b)], [(a) < (b) ? (a) : (b)] and
    [(a) < 0 ? -(a) : (a)]. *)
Definition Qgt_bool (a b : rt_real) : bool := negb (Qle_bool a b).
Definition Qlt_bool (a b : rt_real) : bool := negb (Qle_bool b a).

Definition RT_MAX (a b : rt_real) : rt_real := if Qgt_bool a b then a else b.
Definition RT_MIN (a b : rt_real) : rt_real := if Qlt_bool a b then a else b.
Definition RT_FABS (a : rt_real) : rt_real := if Qlt_bool a 0%Q then Qopp a else a.

Arguments Qgt_bool (a b)%_Q_scope.
Arguments Qlt_bool (a b)%_Q_scope.
Arguments RT_MAX (a b)%_Q_scope.
Arguments RT_MIN (a b)%_Q_scope.
Arguments RT_FABS a%_Q_scope.

(** [c++] of the matching loops in [rt_Object::update]: one pass over the
    table [vals], testing the three components against each entry. *)
Definition count_matches (v : rt_vec3) (vals : list rt_real) : rt_cell :=
  fold_left
    (fun c s =>
       let c1 := if Qeq_bool (vx v) s then c + 1 else c in
       let c2 := if Qeq_bool (vy v) s then c1 + 1 else c1 in
       if Qeq_bool (vz v) s then c2 + 1 else c2)
    vals 0.

Definition scl_table : list rt_real := [-(1); 1]%Q.
Definition rot_table : list rt_real :=
  [-(270); -(180); -(90); 0; 90; 180; 270]%Q.

(** ** Constants and helpers of the absent headers *)

(** The flag and option masks of object.h, [RT_INF], [RT_SQRT] and the
    sine / cosine of an angle in degrees ([RT_SINA], [RT_COSA]) of
    rtbase.h and the matrix helpers of rtgeom.h are used by object.cpp but
    defined elsewhere; the development is parametric in them. *)
Class rt_Headers : Type := {
  (* object.h: update flags *)
  RT_UPDATE_FLAG_OBJ : rt_cell;
  RT_UPDATE_FLAG_ARR : rt_cell;
  RT_UPDATE_FLAG_SCL : rt_cell;
  RT_UPDATE_FLAG_ROT : rt_cell;
  (* object.h: runtime optimization masks *)
  RT_OPTS_FSCALE : rt_cell;
  RT_OPTS_TARRAY : rt_cell;
  RT_OPTS_ADJUST : rt_cell;
  (* rtbase.h *)
  RT_INF : rt_real;
  RT_SQRT : rt_real -> rt_real;
  RT_SINA : rt_real -> rt_real;
  RT_COSA : rt_real -> rt_real;
  (* rtgeom.h *)
  rt_mat4 : Type;
  matrix_from_transform : rt_TRANSFORM3D -> rt_mat4;
  matrix_mul_matrix : rt_mat4 -> rt_mat4 -> rt_mat4
}.

(** The two transform flags are distinct non-empty bit sets. *)
Definition trm_flags_distinct `{rt_Headers} : Prop :=
  RT_UPDATE_FLAG_SCL <> 0 /\ RT_UPDATE_FLAG_ROT <> 0 /\
  Z.land RT_UPDATE_FLAG_SCL RT_UPDATE_FLAG_ROT = 0.

(** ** rt_Object *)

Section Object.

Context `{rt_Headers}.

(** The fields of [rt_Object] (object.h) that object.cpp reads and writes
    in [update] / [update_bvnode].  [trm], [f_anim] and [time] are reached
    through [obj] / [trm] pointers into the scene data; [trb_trnode] is
    [trb->trnode] (a bound record is identified with its object). *)
Record rt_Object : Type := mk_Object {
  this : ptr;
  tag : rt_tag;
  trm : rt_TRANSFORM3D;
  f_anim : option rt_FUNC_ANIM3D;
  time : rt_long;
  mtx : rt_mat4;
  obj_changed : rt_cell;
  obj_has_trm : rt_cell;
  mtx_has_trm : rt_cell;
  trnode : option ptr;
  bvnode : option ptr;
  trb_trnode : option ptr
}.

(** One invocation of the animation callback: [(time, last_time)]. *)
Definition anim_call : Type := (rt_long * rt_long)%type.

(** [for (trnode = parent; trnode != RT_NULL; trnode = trnode->parent)
       if (trnode->obj_has_trm) break;]
    over the chain [parent, parent->parent, ...] of the object. *)
Fixpoint find_trnode (parents : list rt_Object) : option rt_Object :=
  match parents with
  | [] => None
  | p :: ps => if obj_has_trm p =? 0 then find_trnode ps else Some p
  end.

Definition parent_ptr (parents : list rt_Object) : option ptr :=
  match parents with
  | [] => None
  | p :: _ => Some (this p)
  end.

(** Object's own transform flags (before the FSCALE promotion). *)
Definition own_trm_flags (t : rt_TRANSFORM3D) : rt_cell :=
  Z.lor
    (Z.lor 0 (if count_matches (scl t) scl_table =? 3
              then 0 else RT_UPDATE_FLAG_SCL))
    (if count_matches (rot t) rot_table =? 3
     then 0 else RT_UPDATE_FLAG_ROT).

(** [if (obj_has_trm && (rg->opts & RT_OPTS_FSCALE) == 0)
       obj_has_trm = RT_UPDATE_FLAG_SCL | RT_UPDATE_FLAG_ROT;]
    When the macro RT_OPTS_FSCALE is 0 the test on [opts] is compiled
    out, which is what [(opts & 0) == 0] evaluates to as well. *)
Definition promote_trm_flags (opts has : rt_cell) : rt_cell :=
  if negb (has =? 0) && (Z.land opts RT_OPTS_FSCALE =? 0)
  then Z.lor RT_UPDATE_FLAG_SCL RT_UPDATE_FLAG_ROT
  else has.

(** [rt_Object::update(time, mtx, flags)].  [opts] is [rg->opts];
    [parents] is the chain of ancestors reached through [parent],
    nearest first.  The result is the updated object and the log of
    callback invocations. *)
Definition rt_Object_update (opts : rt_cell) (parents : list rt_Object)
    (o : rt_Object) (time_ : rt_long) (mtx_ : rt_mat4) (flags : rt_cell)
  : rt_Object * list anim_call :=
  let last := if time o <? 0 then 0 else time o in
  let '(trm1, log) :=
    match f_anim o with
    | Some f =>
        if negb (time o =? time_)
        then (f time_ last (trm o), [(time_, last)])
        else (trm o, [])
    | None => (trm o, [])
    end in
  (* inherit changed status from the hierarchy *)
  let changed :=
    match f_anim o with
    | Some _ => RT_UPDATE_FLAG_ARR
    | None => Z.land flags RT_UPDATE_FLAG_ARR
    end in
  if changed =? 0 then
    (mk_Object (this o) (tag o) trm1 (f_anim o) time_ (mtx o)
               changed (obj_has_trm o) (mtx_has_trm o)
               (trnode o) None (trb_trnode o), log)
  else
    let has := promote_trm_flags opts (own_trm_flags trm1) in
    let mhas :=
      Z.lor (Z.lor has (Z.land flags RT_UPDATE_FLAG_SCL))
            (Z.land flags RT_UPDATE_FLAG_ROT) in
    let tr0 := find_trnode parents in
    let obj_mtx := matrix_from_transform trm1 in
    let mtx1 :=
      match tr0 with
      | Some t =>
          if ptr_eqb (Some (this t)) (parent_ptr parents) && (has =? 0)
             && negb (Z.land mhas RT_UPDATE_FLAG_ROT =? 0)
          then obj_mtx
          else if negb (ptr_eqb (Some (this t)) (parent_ptr parents))
                  && negb (has =? 0)
          then matrix_mul_matrix (matrix_mul_matrix (mtx t) mtx_) obj_mtx
          else matrix_mul_matrix mtx_ obj_mtx
      | None => matrix_mul_matrix mtx_ obj_mtx
      end in
    (* if object itself has non-trivial transform, it is its own trnode *)
    let tr1 : option (ptr * rt_mat4) :=
      if negb (has =? 0) then Some (this o, mtx1)
      else option_map (fun t => (this t, mtx t)) tr0 in
    (* always compute full transform matrix for non-surface / non-array
       objects or all objects if transform caching is disabled *)
    let '(tr2, mtx2) :=
      match tr1 with
      | Some (tp, tm) =>
          if negb (Nat.eqb tp (this o))
             && ((Z.land opts RT_OPTS_TARRAY =? 0)
                 || tag_above_SURFACE_MAX (tag o))
          then (Some (this o), matrix_mul_matrix tm mtx1)
          else (Some tp, mtx1)
      | None => (None, mtx1)
      end in
    (mk_Object (this o) (tag o) trm1 (f_anim o) time_ mtx2
               changed has mhas tr2 None tr2, log).

(** [rt_Object::update_bvnode(bvnode, mode)]. *)
Definition rt_Object_update_bvnode (o : rt_Object) (bv : option ptr)
    (mode : bool) : rt_Object :=
  if ptr_eqb bv (Some (this o)) then o
  else
    let b1 := if mode && ptr_eqb (bvnode o) None then bv else bvnode o in
    let b2 := if negb mode && ptr_eqb b1 bv then None else b1 in
    mk_Object (this o) (tag o) (trm o) (f_anim o) (time o) (mtx o)
              (obj_changed o) (obj_has_trm o) (mtx_has_trm o)
              (trnode o) b2 (trb_trnode o).

(** [rt_Camera::update_bvnode] and [rt_Light::update_bvnode]: empty. *)
Definition rt_Camera_update_bvnode (o : rt_Object) (bv : option ptr)
    (mode : bool) : rt_Object := o.

Definition rt_Light_update_bvnode (o : rt_Object) (bv : option ptr)
    (mode : bool) : rt_Object := o.

(** [rt_Node::update_bvnode] forwards to [rt_Object::update_bvnode]. *)
Definition rt_Node_update_bvnode (o : rt_Object) (bv : option ptr)
    (mode : bool) : rt_Object := rt_Object_update_bvnode o bv mode.

(** An object together with its sub-objects ([obj_arr] of an array;
    empty for leaves). *)
Inductive rt_Tree : Type :=
| Tree (o : rt_Object) (children : list rt_Tree).

(** The virtual call [obj->update_bvnode(bvnode, mode)]:
    [rt_Array::update_bvnode] updates the array node and then every
    sub-object; cameras and lights ignore the call; every other object
    runs [rt_Node::update_bvnode]. *)
Fixpoint update_bvnode (t : rt_Tree) (bv : option ptr) (mode : bool)
  : rt_Tree :=
  match t with
  | Tree o children =>
      match tag o with
      | RT_TAG_CAMERA => Tree (rt_Camera_update_bvnode o bv mode) children
      | RT_TAG_LIGHT => Tree (rt_Light_update_bvnode o bv mode) children
      | RT_TAG_ARRAY =>
          Tree (rt_Node_update_bvnode o bv mode)
               (map (fun c => update_bvnode c bv mode) children)
      | _ => Tree (rt_Node_update_bvnode o bv mode) children
      end
  end.

End Object.

(** ** rt_Camera *)

Section Camera.

Context `{rt_Headers}.

(** object.h: camera actions; [RT_CAMERA_OTHER] stands for every value
    that reaches the [default] label. *)
Inductive camera_action : Type :=
| RT_CAMERA_MOVE_UP
| RT_CAMERA_MOVE_DOWN
| RT_CAMERA_MOVE_LEFT
| RT_CAMERA_MOVE_RIGHT
| RT_CAMERA_MOVE_BACK
| RT_CAMERA_MOVE_FORWARD
| RT_CAMERA_ROTATE_LEFT
| RT_CAMERA_ROTATE_RIGHT
| RT_CAMERA_ROTATE_UP
| RT_CAMERA_ROTATE_DOWN
| RT_CAMERA_OTHER.

(** [rt_Camera]: the object part, [cam->dps], [cam->drt] of the scene
    data and the cached sine / cosine of the horizontal rotation. *)
Record rt_Camera : Type := mk_Camera {
  cam_obj : rt_Object;
  dps : rt_vec3;
  drt : rt_vec3;
  hor_sin : rt_real;
  hor_cos : rt_real;
  cam_changed : rt_cell
}.

Definition set_trm (o : rt_Object) (t : rt_TRANSFORM3D) : rt_Object :=
  mk_Object (this o) (tag o) t (f_anim o) (time o) (mtx o)
            (obj_changed o) (obj_has_trm o) (mtx_has_trm o)
            (trnode o) (bvnode o) (trb_trnode o).

Definition set_pos (t : rt_TRANSFORM3D) (p : rt_vec3) : rt_TRANSFORM3D :=
  mk_trm (scl t) (rot t) p.

Definition set_rot (t : rt_TRANSFORM3D) (r : rt_vec3) : rt_TRANSFORM3D :=
  mk_trm (scl t) r (pos t).

(** [rt_real t = (time - obj->time) / 50.0f]. *)
Definition action_time (c : rt_Camera) (time_ : rt_long) : rt_real :=
  (inject_Z (time_ - time (cam_obj c)) / 50)%Q.

(** The body of the [switch] of [rt_Camera::update(time, action)], as a
    function on the transform. *)
Definition camera_action_trm (c : rt_Camera) (t : rt_real)
    (action : camera_action) (tr : rt_TRANSFORM3D) : rt_TRANSFORM3D :=
  let p := pos tr in
  let r := rot tr in
  match action with
  (* vertical movement *)
  | RT_CAMERA_MOVE_UP =>
      set_pos tr (vset p RT_Z (vget p RT_Z + vget (dps c) RT_K * t))
  | RT_CAMERA_MOVE_DOWN =>
      set_pos tr (vset p RT_Z (vget p RT_Z - vget (dps c) RT_K * t))
  (* horizontal movement *)
  | RT_CAMERA_MOVE_LEFT =>
      let p1 := vset p RT_X (vget p RT_X - vget (dps c) RT_I * t * hor_cos c) in
      set_pos tr
        (vset p1 RT_Y (vget p1 RT_Y - vget (dps c) RT_I * t * hor_sin c))
  | RT_CAMERA_MOVE_RIGHT =>
      let p1 := vset p RT_X (vget p RT_X + vget (dps c) RT_I * t * hor_cos c) in
      set_pos tr
        (vset p1 RT_Y (vget p1 RT_Y + vget (dps c) RT_I * t * hor_sin c))
  | RT_CAMERA_MOVE_BACK =>
      let p1 := vset p RT_X (vget p RT_X + vget (dps c) RT_J * t * hor_sin c) in
      set_pos tr
        (vset p1 RT_Y (vget p1 RT_Y - vget (dps c) RT_J * t * hor_cos c))
  | RT_CAMERA_MOVE_FORWARD =>
      let p1 := vset p RT_X (vget p RT_X - vget (dps c) RT_J * t * hor_sin c) in
      set_pos tr
        (vset p1 RT_Y (vget p1 RT_Y + vget (dps c) RT_J * t * hor_cos c))
  (* horizontal rotation *)
  | RT_CAMERA_ROTATE_LEFT =>
      let z := vget r RT_Z + vget (drt c) RT_I * t in
      set_rot tr (vset r RT_Z (if Qle_bool 180 z then z - 360 else z))
  | RT_CAMERA_ROTATE_RIGHT =>
      let z := vget r RT_Z - vget (drt c) RT_I * t in
      set_rot tr (vset r RT_Z (if Qle_bool z (-(180)) then z + 360 else z))
  (* vertical rotation *)
  | RT_CAMERA_ROTATE_UP =>
      if Qlt_bool (vget r RT_X) 0 then
        let x := vget r RT_X + vget (drt c) RT_J * t in
        set_rot tr (vset r RT_X (if Qgt_bool x 0 then 0 else x))
      else tr
  | RT_CAMERA_ROTATE_DOWN =>
      if Qgt_bool (vget r RT_X) (-(180)) then
        let x := vget r RT_X - vget (drt c) RT_J * t in
        set_rot tr (vset r RT_X (if Qlt_bool x (-(180)) then -(180) else x))
      else tr
  | RT_CAMERA_OTHER => tr
  end%Q.

(** [rt_Camera::update(time, action)]. *)
Definition rt_Camera_update_action (c : rt_Camera) (time_ : rt_long)
    (action : camera_action) : rt_Camera :=
  let t := action_time c time_ in
  mk_Camera
    (set_trm (cam_obj c) (camera_action_trm c t action (trm (cam_obj c))))
    (dps c) (drt c) (hor_sin c) (hor_cos c) RT_UPDATE_FLAG_ARR.

(** [rt_Camera::update(time, mtx, flags)]. *)
Definition rt_Camera_update (opts : rt_cell) (parents : list rt_Object)
    (c : rt_Camera) (time_ : rt_long) (mtx_ : rt_mat4) (flags : rt_cell)
  : rt_Camera * list anim_call :=
  if Z.land flags RT_UPDATE_FLAG_OBJ =? 0 then (c, [])
  else
    let '(o1, log) :=
      rt_Object_update opts parents (cam_obj c) time_ mtx_
                       (Z.lor flags (cam_changed c)) in
    if obj_changed o1 =? 0
    then (mk_Camera o1 (dps c) (drt c) (hor_sin c) (hor_cos c)
                    (cam_changed c), log)
    else (mk_Camera o1 (dps c) (drt c)
                    (RT_SINA (vget (rot (trm o1)) RT_Z))
                    (RT_COSA (vget (rot (trm o1)) RT_Z)) 0, log).

(** The rotation a single action applies about the axis it turns:
    [cam->drt[RT_I] * t] for the horizontal and [cam->drt[RT_J] * t] for
    the vertical rotations. *)
Definition action_delta (c : rt_Camera) (time_ : rt_long)
    (action : camera_action) : rt_real :=
  match action with
  | RT_CAMERA_ROTATE_LEFT | RT_CAMERA_ROTATE_RIGHT =>
      vget (drt c) RT_I * action_time c time_
  | RT_CAMERA_ROTATE_UP | RT_CAMERA_ROTATE_DOWN =>
      vget (drt c) RT_J * action_time c time_
  | _ => 0
  end%Q.

Definition cam_rot (c : rt_Camera) (a : axis) : rt_real :=
  vget (rot (trm (cam_obj c))) a.

End Camera.

(** ** rt_Surface: bounding and clipping boxes *)

Section Surface.

Context `{rt_Headers}.

Record rt_ivec3 : Type := mk_ivec3 { ix : rt_cell; iy : rt_cell; iz : rt_cell }.

Definition iget (v : rt_ivec3) (a : axis) : rt_cell :=
  match a with RT_X => ix v | RT_Y => iy v | RT_Z => iz v end.

(** A box is a pair of corner vectors [(min, max)]. *)
Definition rt_box : Type := (rt_vec3 * rt_vec3)%type.

(** Modelled from the spec: RT_VEC3_MAX / RT_VEC3_MIN of rtgeom.h are not
    among the sources; they take the maximum / minimum of two vectors
    component by component. *)
Definition RT_VEC3_MAX (a b : rt_vec3) : rt_vec3 :=
  mk_vec3 (RT_MAX (vx a) (vx b)) (RT_MAX (vy a) (vy b)) (RT_MAX (vz a) (vz b)).

Definition RT_VEC3_MIN (a b : rt_vec3) : rt_vec3 :=
  mk_vec3 (RT_MIN (vx a) (vx b)) (RT_MIN (vy a) (vy b)) (RT_MIN (vz a) (vz b)).

(** [RT_VEC3_SET_VAL1(v, x)]. *)
Definition vec3_val1 (x : rt_real) : rt_vec3 := mk_vec3 x x x.

(** The surface classes with the scalars of their scene records
    ([xcl->rad], [xsp->rad], [xcn->rat], [xpb->par], [xhb->rat] and
    [xhb->hyp]). *)
Inductive rt_shape : Type :=
| SH_PLANE
| SH_CYLINDER (rad : rt_real)
| SH_SPHERE (rad : rt_real)
| SH_CONE (rat : rt_real)
| SH_PARABOLOID (par : rt_real)
| SH_HYPERBOLOID (rat hyp : rt_real).

(** format.h / tracer.h: one element of a relation template or of a
    custom clippers list.  [addr] is the address the element was
    allocated at; [simd] and [temp] point to the SIMD record and to the
    bound record of an object, both identified with the object. *)
Record rt_ELEM : Type := mk_ELEM {
  addr : ptr;
  data : rt_cell;
  simd : option ptr;
  temp : option ptr
}.

Definition RT_ACCUM_ENTER : rt_cell := -1.
Definition RT_ACCUM_LEAVE : rt_cell := 1.
Definition RT_REL_MINUS_INNER : rt_cell := -1.
Definition RT_REL_MINUS_OUTER : rt_cell := 1.

(** The fields of [rt_Surface] used by the box computations.  [s_pos] is
    [pos] (the translation row of the matrix); [srf_min] / [srf_max] are
    [srf->min] / [srf->max]; [bmin] .. [cmax] are the [shp->] boxes;
    [clippers] is the list headed by [s_srf->msc_p[2]]. *)
Record rt_Surface : Type := mk_Surface {
  node : rt_Object;
  s_pos : rt_vec3;
  shape : rt_shape;
  srf_min : rt_vec3;
  srf_max : rt_vec3;
  sgn : rt_ivec3;
  mp_i : axis;
  mp_j : axis;
  mp_k : axis;
  bmin : rt_vec3;
  bmax : rt_vec3;
  cmin : rt_vec3;
  cmax : rt_vec3;
  srf_changed : rt_cell;
  clippers : list rt_ELEM
}.

Definition is_own_trnode (s : rt_Surface) : bool :=
  ptr_eqb (trnode (node s)) (Some (this (node s))).

(** *** adjust_minmax *)

(** [rt_Surface::adjust_minmax]: the clipping box keeps a source bound
    only where it does not cut into the original axis clippers. *)
Definition rt_Surface_adjust_minmax (s : rt_Surface) (smin smax : rt_vec3)
  : rt_box :=
  let lo a := if Qgt_bool (vget smin a) (vget (srf_min s) a)
              then Qopp RT_INF else vget smin a in
  let hi a := if Qlt_bool (vget smax a) (vget (srf_max s) a)
              then RT_INF else vget smax a in
  (mk_vec3 (lo RT_I) (lo RT_J) (lo RT_K), mk_vec3 (hi RT_I) (hi RT_J) (hi RT_K)).

(** [cmin[a] <= -rad ? -RT_INF : cmin[a]] and its dual. *)
Definition open_lo (c rad : rt_real) : rt_real :=
  if Qle_bool c (Qopp rad) then Qopp RT_INF else c.

Definition open_hi (c rad : rt_real) : rt_real :=
  if Qle_bool rad c then RT_INF else c.

(** Boxes of a surface of revolution about K with radius [rad]
    (cylinder, cone, hyperboloid). *)
Definition round_bbox (smin smax : rt_vec3) (rad : rt_real) : rt_box :=
  (mk_vec3 (RT_MAX (vget smin RT_I) (Qopp rad))
           (RT_MAX (vget smin RT_J) (Qopp rad))
           (vget smin RT_K),
   mk_vec3 (RT_MIN (vget smax RT_I) rad)
           (RT_MIN (vget smax RT_J) rad)
           (vget smax RT_K)).

Definition round_cbox (c : rt_box) (rad : rt_real) : rt_box :=
  let '(cmn, cmx) := c in
  (mk_vec3 (open_lo (vget cmn RT_I) rad) (open_lo (vget cmn RT_J) rad)
           (vget cmn RT_K),
   mk_vec3 (open_hi (vget cmx RT_I) rad) (open_hi (vget cmx RT_J) rad)
           (vget cmx RT_K)).

(** One iteration of the loop of [rt_Sphere::adjust_minmax]. *)
Definition sphere_top (smin smax : rt_vec3) (k : axis) : rt_real :=
  if Qgt_bool (vget smin k) 0%Q then vget smin k
  else if Qlt_bool (vget smax k) 0%Q then Qopp (vget smax k)
  else 0%Q.

Definition sphere_step (xrad : rt_real) (smin smax : rt_vec3)
    (rad : rt_vec3) (k : Z) : rt_vec3 :=
  let top := sphere_top smin smax (axis_of_index k) in
  let r := RT_SQRT (RT_MAX (xrad * xrad - top * top)%Q 0%Q) in
  let i := axis_of_index (k + 1) in
  let rad1 := if Qgt_bool (vget rad i) r then vset rad i r else rad in
  let j := axis_of_index (k + 2) in
  if Qgt_bool (vget rad1 j) r then vset rad1 j r else rad1.

(** [rad[3]] after the loop [for (k = 0; k < 3; k++)]. *)
Definition sphere_radii (xrad : rt_real) (smin smax : rt_vec3) : rt_vec3 :=
  fold_left (sphere_step xrad smin smax) [0; 1; 2]
            (vec3_val1 (RT_FABS xrad)).

(** The virtual [adjust_minmax(smin, smax, bmin, bmax, cmin, cmax)].
    [want_b] / [want_c] tell whether the bbox / cbox pointers are
    non-null; the result holds what is written through them. *)
Definition adjust_minmax (s : rt_Surface) (smin smax : rt_vec3)
    (want_b want_c : bool) : option rt_box * option rt_box :=
  let c0 := rt_Surface_adjust_minmax s smin smax in
  let out (b c : rt_box) :=
    ((if want_b then Some b else None), (if want_c then Some c else None)) in
  match shape s with
  | SH_PLANE =>
      out (mk_vec3 (vget smin RT_I) (vget smin RT_J) 0%Q,
           mk_vec3 (vget smax RT_I) (vget smax RT_J) 0%Q)
          (vset (fst c0) RT_K (Qopp RT_INF), vset (snd c0) RT_K RT_INF)
  | SH_CYLINDER xrad =>
      let rad := RT_FABS xrad in
      out (round_bbox smin smax rad) (round_cbox c0 rad)
  | SH_SPHERE xrad =>
      let rad := sphere_radii xrad smin smax in
      out (mk_vec3 (RT_MAX (vget smin RT_I) (Qopp (vget rad RT_I)))
                   (RT_MAX (vget smin RT_J) (Qopp (vget rad RT_J)))
                   (RT_MAX (vget smin RT_K) (Qopp (vget rad RT_K))),
           mk_vec3 (RT_MIN (vget smax RT_I) (vget rad RT_I))
                   (RT_MIN (vget smax RT_J) (vget rad RT_J))
                   (RT_MIN (vget smax RT_K) (vget rad RT_K)))
          (mk_vec3 (open_lo (vget (fst c0) RT_I) (vget rad RT_I))
                   (open_lo (vget (fst c0) RT_J) (vget rad RT_J))
                   (open_lo (vget (fst c0) RT_K) (vget rad RT_K)),
           mk_vec3 (open_hi (vget (snd c0) RT_I) (vget rad RT_I))
                   (open_hi (vget (snd c0) RT_J) (vget rad RT_J))
                   (open_hi (vget (snd c0) RT_K) (vget rad RT_K)))
  | SH_CONE rat =>
      let top := RT_MAX (RT_FABS (vget smin RT_K)) (RT_FABS (vget smax RT_K)) in
      let rad := (top * RT_FABS rat)%Q in
      out (round_bbox smin smax rad) (round_cbox c0 rad)
  | SH_PARABOLOID par =>
      let top := RT_MAX (if Qlt_bool par 0%Q then Qopp (vget smin RT_K)
                         else vget smax RT_K) 0%Q in
      let rad := RT_SQRT (top * RT_FABS par)%Q in
      let b := round_bbox smin smax rad in
      let c := round_cbox c0 rad in
      out (vset (fst b) RT_K
                (if Qle_bool (vget smin RT_K) 0%Q && Qgt_bool par 0%Q
                 then 0%Q else vget smin RT_K),
           vset (snd b) RT_K
                (if Qle_bool 0%Q (vget smax RT_K) && Qlt_bool par 0%Q
                 then 0%Q else vget smax RT_K))
          (vset (fst c) RT_K
                (if Qle_bool (vget (fst c0) RT_K) 0%Q && Qgt_bool par 0%Q
                 then Qopp RT_INF else vget (fst c0) RT_K),
           vset (snd c) RT_K
                (if Qle_bool 0%Q (vget (snd c0) RT_K) && Qlt_bool par 0%Q
                 then RT_INF else vget (snd c0) RT_K))
  | SH_HYPERBOLOID rat hyp =>
      let top := RT_MAX (RT_FABS (vget smin RT_K)) (RT_FABS (vget smax RT_K)) in
      let rad := RT_SQRT (top * top * rat * rat + hyp)%Q in
      out (round_bbox smin smax rad) (round_cbox c0 rad)
  end.

(** *** invert_minmax / direct_minmax *)

Definition vzero : rt_vec3 := vec3_val1 0%Q.

(** [pps = trnode == this ? zro : pos]. *)
Definition pps (s : rt_Surface) : rt_vec3 :=
  if is_own_trnode s then vzero else s_pos s.

(** [rt_Surface::invert_minmax]: world-space box to local space. *)
Definition invert_minmax (s : rt_Surface) (smin smax : rt_vec3) : rt_box :=
  let p := pps s in
  let tmn a := if Qeq_bool (vget smin a) (Qopp RT_INF) then Qopp RT_INF
               else (vget smin a - vget p a)%Q in
  let tmx a := if Qeq_bool (vget smax a) RT_INF then RT_INF
               else (vget smax a - vget p a)%Q in
  let dmn l m := if 0 <? iget (sgn s) l then tmn m else Qopp (tmx m) in
  let dmx l m := if 0 <? iget (sgn s) l then tmx m else Qopp (tmn m) in
  (mk_vec3 (dmn RT_I (mp_i s)) (dmn RT_J (mp_j s)) (dmn RT_K (mp_k s)),
   mk_vec3 (dmx RT_I (mp_i s)) (dmx RT_J (mp_j s)) (dmx RT_K (mp_k s))).

(** [rt_Surface::direct_minmax]: local-space box to world space.  The
    temporaries are written at the mapped indices in the order I, J, K;
    a slot the map never addresses keeps its initial content (zero
    here). *)
Definition direct_minmax (s : rt_Surface) (smin smax : rt_vec3) : rt_box :=
  let p := pps s in
  let lo l := if 0 <? iget (sgn s) l then vget smin l else Qopp (vget smax l) in
  let hi l := if 0 <? iget (sgn s) l then vget smax l else Qopp (vget smin l) in
  let tmin := vset (vset (vset vzero (mp_i s) (lo RT_I)) (mp_j s) (lo RT_J))
                   (mp_k s) (lo RT_K) in
  let tmax := vset (vset (vset vzero (mp_i s) (hi RT_I)) (mp_j s) (hi RT_J))
                   (mp_k s) (hi RT_K) in
  let dmn a := if Qeq_bool (vget tmin a) (Qopp RT_INF) then Qopp RT_INF
               else (vget tmin a + vget p a)%Q in
  let dmx a := if Qeq_bool (vget tmax a) RT_INF then RT_INF
               else (vget tmax a + vget p a)%Q in
  (mk_vec3 (dmn RT_X) (dmn RT_Y) (dmn RT_Z),
   mk_vec3 (dmx RT_X) (dmx RT_Y) (dmx RT_Z)).

Definition direct_box (s : rt_Surface) (b : rt_box) : rt_box :=
  direct_minmax s (fst b) (snd b).

(** *** recalc_minmax *)

(** The tail shared by the "apply" and "init" modes: the virtual
    [adjust_minmax] followed by [direct_minmax] on each requested box. *)
Definition adjust_and_direct (s : rt_Surface) (tmin tmax : rt_vec3)
    (want_b want_c : bool) : option rt_box * option rt_box :=
  let '(b, c) := adjust_minmax s tmin tmax want_b want_c in
  (option_map (direct_box s) b, option_map (direct_box s) c).

(** [tmin[a] = tmin[a] == bmin[a] ? -RT_INF : bmin[a]] (and its dual):
    only the bounds the shape moved survive. *)
Definition moved_bounds (tmin tmax lmin lmax : rt_vec3) : rt_box :=
  let lo a := if Qeq_bool (vget tmin a) (vget lmin a) then Qopp RT_INF
              else vget lmin a in
  let hi a := if Qeq_bool (vget tmax a) (vget lmax a) then RT_INF
              else vget lmax a in
  (mk_vec3 (lo RT_I) (lo RT_J) (lo RT_K), mk_vec3 (hi RT_I) (hi RT_J) (hi RT_K)).

(** [rt_Surface::recalc_minmax(smin, smax, bmin, bmax, cmin, cmax)].
    [src] is the source box when [smin] / [smax] are non-null, [want_b]
    says whether [bmin] / [bmax] are non-null and [c] is the content of
    the box behind [cmin] / [cmax] when they are non-null.  The result is
    what the call writes through the bbox and cbox pointers; [None] for
    the one combination of null pointers in which the temporaries are
    read uninitialized. *)
Definition recalc_minmax (s : rt_Surface) (src : option rt_box)
    (want_b : bool) (c : option rt_box)
  : option (option rt_box * option rt_box) :=
  match src, want_b, c with
  | Some (smin, smax), false, Some (pmin, pmax) =>
      (* accumulate bbox adjustments into cbox *)
      let '(tmin, tmax) := invert_minmax s smin smax in
      match fst (adjust_minmax s tmin tmax true false) with
      | Some (lmin, lmax) =>
          let '(mmin, mmax) := moved_bounds tmin tmax lmin lmax in
          let '(dmin, dmax) := direct_minmax s mmin mmax in
          Some (None, Some (RT_VEC3_MAX pmin dmin, RT_VEC3_MIN pmax dmax))
      | None => Some (None, None)
      end
  | Some (smin, smax), false, None =>
      Some (None, None)
  | Some (smin, smax), true, Some _ =>
      (* apply bbox adjustments from cbox *)
      let '(tmin, tmax) := invert_minmax s smin smax in
      Some (adjust_and_direct s (RT_VEC3_MAX tmin (srf_min s))
                              (RT_VEC3_MIN tmax (srf_max s)) true true)
  | Some _, true, None => None
  | None, _, _ =>
      (* init bbox with original axis clippers *)
      Some (adjust_and_direct s (srf_min s) (srf_max s) want_b
                              (match c with Some _ => true | None => false end))
  end.

(** *** update_minmax *)

(** The objects hierarchy as seen through the [temp] pointers of the
    clippers: every address holds an object, read as a surface after
    the tag tests (the source casts). *)
Definition rt_store : Type := ptr -> rt_Surface.

(** The test that guards both loops of [update_minmax]; [skip] is the
    flag after the toggle of the current element. *)
Definition clipper_skipped (st : rt_store) (s : rt_Surface) (skip : rt_cell)
    (elm : rt_ELEM) : bool :=
  match temp elm with
  | None => true
  | Some p =>
      let obj := node (st p) in
      (skip =? 1)
      || tag_eqb (tag obj) RT_TAG_ARRAY
      || tag_eqb (tag obj) RT_TAG_PLANE
      || negb (ptr_eqb (trnode obj) (trnode (node s)))
      || negb (data elm =? RT_REL_MINUS_OUTER)
  end.

Definition toggle_skip (skip : rt_cell) (elm : rt_ELEM) : rt_cell :=
  match temp elm with None => 1 - skip | Some _ => skip end.

(** First loop: [srf_changed |= obj->obj_changed] over the clippers that
    are not skipped. *)
Fixpoint scan_changed (st : rt_store) (s : rt_Surface) (skip : rt_cell)
    (changed : rt_cell) (l : list rt_ELEM) : rt_cell :=
  match l with
  | [] => changed
  | elm :: rest =>
      let skip1 := toggle_skip skip elm in
      if clipper_skipped st s skip1 elm
      then scan_changed st s skip1 changed rest
      else
        match temp elm with
        | Some p =>
            scan_changed st s skip1
              (Z.lor changed (obj_changed (node (st p)))) rest
        | None => scan_changed st s skip1 changed rest
        end
  end.

(** Second loop: every clipper that is not skipped accumulates into the
    cbox ([srf->recalc_minmax(shp->bmin, shp->bmax, RT_NULL, RT_NULL,
    shp->cmin, shp->cmax)]). *)
Fixpoint scan_accum (st : rt_store) (s : rt_Surface) (skip : rt_cell)
    (bbox cbox : rt_box) (l : list rt_ELEM) : rt_box :=
  match l with
  | [] => cbox
  | elm :: rest =>
      let skip1 := toggle_skip skip elm in
      if clipper_skipped st s skip1 elm
      then scan_accum st s skip1 bbox cbox rest
      else
        match temp elm with
        | Some p =>
            match recalc_minmax (st p) (Some bbox) false (Some cbox) with
            | Some (_, Some cbox1) => scan_accum st s skip1 bbox cbox1 rest
            | _ => scan_accum st s skip1 bbox cbox rest
            end
        | None => scan_accum st s skip1 bbox cbox rest
        end
  end.

Definition set_boxes (s : rt_Surface) (changed : rt_cell)
    (b c : rt_box) : rt_Surface :=
  mk_Surface (node s) (s_pos s) (shape s) (srf_min s) (srf_max s) (sgn s)
             (mp_i s) (mp_j s) (mp_k s) (fst b) (snd b) (fst c) (snd c)
             changed (clippers s).

Definition bbox_of (s : rt_Surface) : rt_box := (bmin s, bmax s).
Definition cbox_of (s : rt_Surface) : rt_box := (cmin s, cmax s).

Definition or_box (o : option rt_box) (d : rt_box) : rt_box :=
  match o with Some b => b | None => d end.

(** The whole space: [RT_VEC3_SET_VAL1(shp->cmin, -RT_INF)],
    [RT_VEC3_SET_VAL1(shp->cmax, +RT_INF)]. *)
Definition infinite_box : rt_box :=
  (vec3_val1 (Qopp RT_INF), vec3_val1 RT_INF).

(** What a [recalc_minmax] call leaves in the two [shp->] boxes it was
    handed ([b0], [c0] are their contents before the call). *)
Definition written_boxes (r : option (option rt_box * option rt_box))
    (b0 c0 : rt_box) : rt_box * rt_box :=
  match r with
  | Some (b, c) => (or_box b b0, or_box c c0)
  | None => (b0, c0)
  end.

Definition no_clippers (s : rt_Surface) : bool :=
  match clippers s with [] => true | _ :: _ => false end.

(** [rt_Surface::update_minmax].  When the macro RT_OPTS_ADJUST is 0 the
    first branch is unconditional, which is what [(opts & 0) == 0]
    yields as well. *)
Definition update_minmax (opts : rt_cell) (st : rt_store) (s : rt_Surface)
  : rt_Surface :=
  let changed0 := obj_changed (node s) in
  if no_clippers s || is_own_trnode s || (Z.land opts RT_OPTS_ADJUST =? 0)
  then
    (* calculate bbox and cbox based on original axis clippers and
       surface shape *)
    let '(b, c) :=
      written_boxes (recalc_minmax s None true (Some (cbox_of s)))
                    (bbox_of s) (cbox_of s) in
    set_boxes s changed0 b c
  else
    let changed := scan_changed st s 0 changed0 (clippers s) in
    if changed =? 0 then set_boxes s changed (bbox_of s) (cbox_of s)
    else
      (* first calculate only bbox *)
      let b1 := fst (written_boxes (recalc_minmax s None true None)
                                   (bbox_of s) (cbox_of s)) in
      (* accumulate bbox adjustments from the outer clippers into cbox *)
      let c1 := scan_accum st s 0 b1 infinite_box (clippers s) in
      (* apply bbox adjustments accumulated in cbox *)
      let '(b, c) :=
        written_boxes (recalc_minmax s (Some c1) true (Some c1)) b1 c1 in
      set_boxes s changed b c.

End Surface.

Arguments SH_CYLINDER rad%_Q_scope.
Arguments SH_SPHERE rad%_Q_scope.
Arguments SH_CONE rat%_Q_scope.
Arguments SH_PARABOLOID par%_Q_scope.
Arguments SH_HYPERBOLOID (rat hyp)%_Q_scope.

(** ** rt_Surface::add_relation *)

Section Relation.

Context `{rt_Headers}.

(** One element of the template list handed to [add_relation]: [lst->data]
    and the object reached through [lst->temp] (null for an accum
    marker).  The hierarchy is only read here, so the element carries the
    object it points to together with its sub-objects. *)
Record rt_TEMPLATE : Type := mk_TEMPLATE {
  t_data : rt_cell;
  t_temp : option rt_Tree
}.

(** The registry heap is a bump allocator: the state is the next free
    address, [rg->alloc] returns it and moves on. *)
Definition rt_heap : Type := ptr.

(** The search loop of [rt_Surface::add_relation]: the position of the
    element [nxt] the loop stops at, or [None] when it ends with
    [nxt == RT_NULL].  [tn] is [srf->trnode->trb]. *)
Fixpoint find_trnode_elem (tn : ptr) (acc : rt_cell) (l : list rt_ELEM)
  : option nat :=
  match l with
  | [] => None
  | nxt :: rest =>
      if (acc =? 0) && ptr_eqb (temp nxt) (Some tn) then Some 0%nat
      else if negb (ptr_eqb (temp nxt) None)
      then option_map S (find_trnode_elem tn acc rest)
      else if (acc =? 0) && (data nxt =? RT_ACCUM_LEAVE) then None
      else
        let acc1 :=
          if (acc =? 0) && (data nxt =? RT_ACCUM_ENTER) then 1 else acc in
        let acc2 :=
          if (acc1 =? 1) && (data nxt =? RT_ACCUM_LEAVE) then 0 else acc1 in
        option_map S (find_trnode_elem tn acc2 rest)
  end.

(** [elm->next = nxt->next; nxt->next = elm;] with [nxt] at position [n]. *)
Definition insert_after (n : nat) (elm : rt_ELEM) (l : list rt_ELEM)
  : list rt_ELEM :=
  firstn (S n) l ++ elm :: skipn (S n) l.

(** The [RT_IS_SURFACE(obj)] branch: a new element for the clipper [srf],
    placed under the element of its trnode when it has one that is not
    itself. *)
Definition insert_clipper (rel : rt_cell) (srf : rt_Object)
    (st : rt_heap * list rt_ELEM) : rt_heap * list rt_ELEM :=
  let '(h, l) := st in
  let elm := mk_ELEM h rel (Some (this srf)) (Some (this srf)) in
  let h1 := S h in
  match trnode srf with
  | Some tn =>
      if negb (Nat.eqb tn (this srf)) then
        match find_trnode_elem tn 0 l with
        | None =>
            (* insert element as list head, then a new trnode element *)
            let nxt := mk_ELEM h1 (Z.of_nat (addr elm)) (Some tn) (Some tn) in
            (S h1, nxt :: elm :: l)
        | Some n =>
            (* insert element under existing trnode *)
            (h1, insert_after n elm l)
        end
      else (h1, elm :: l)
  | None => (h1, elm :: l)
  end.

(** The body of the loop for an element that refers to the object [t]:
    an array is populated with its sub-objects (one freshly allocated
    single-element template each, handed to [add_relation] again), a
    surface is inserted, anything else is ignored. *)
Fixpoint add_relation_obj (rel : rt_cell) (t : rt_Tree)
    (st : rt_heap * list rt_ELEM) {struct t} : rt_heap * list rt_ELEM :=
  match t with
  | Tree obj children =>
      if RT_IS_ARRAY (tag obj) then
        fold_left
          (fun st c => add_relation_obj rel c (S (fst st), snd st))
          children st
      else if RT_IS_SURFACE (tag obj) then insert_clipper rel obj st
      else st
  end.

(** [rt_Surface::add_relation(lst)] on the custom clippers list. *)
Definition add_relation_list (lst : list rt_TEMPLATE)
    (st : rt_heap * list rt_ELEM) : rt_heap * list rt_ELEM :=
  fold_left
    (fun st e =>
       match t_temp e with
       | None =>
           (* alloc new element for accum marker, insert as list head *)
           (S (fst st), mk_ELEM (fst st) (t_data e) None None :: snd st)
       | Some t => add_relation_obj (t_data e) t st
       end)
    lst st.

Definition set_clippers (s : rt_Surface) (l : list rt_ELEM) : rt_Surface :=
  mk_Surface (node s) (s_pos s) (shape s) (srf_min s) (srf_max s) (sgn s)
             (mp_i s) (mp_j s) (mp_k s) (bmin s) (bmax s) (cmin s) (cmax s)
             (srf_changed s) l.

Definition rt_Surface_add_relation (s : rt_Surface) (h : rt_heap)
    (lst : list rt_TEMPLATE) : rt_heap * rt_Surface :=
  let '(h1, l) := add_relation_list lst (h, clippers s) in
  (h1, set_clippers s l).

End Relation.

(** ** Constructors *)

Section Construct.

Context `{rt_Headers}.

(** A constructor either returns or throws [rt_Exception(msg)]. *)
Inductive rt_result (A : Type) : Type :=
| Ok (a : A)
| Throw (msg : string).

Arguments Ok {A} a.
Arguments Throw {A} msg.

Definition bind {A B : Type} (r : rt_result A) (k : A -> rt_result B)
  : rt_result B :=
  match r with
  | Ok a => k a
  | Throw m => Throw m
  end.

(** format.h: the scene data a surface is constructed from.  A material
    record is kept abstract here (its tag stands for it). *)
Record rt_MATERIAL : Type := mk_MATERIAL { mat_tag : rt_cell }.

Record rt_SIDE : Type := mk_SIDE { pmat : option rt_MATERIAL }.

Record rt_SURFACE : Type := mk_SURFACE {
  lit_min : rt_vec3;
  lit_max : rt_vec3;
  side_outer : rt_SIDE;
  side_inner : rt_SIDE
}.

(** The part of [rt_OBJECT] / [rt_OBJ] every kind shares. *)
Record rt_OBJ : Type := mk_OBJ {
  lit_trm : rt_TRANSFORM3D;
  pmat_outer : option rt_MATERIAL;
  pmat_inner : option rt_MATERIAL
}.

(** [rt_EDGE] / [rt_FACE]: vertex indices. *)
Definition rt_EDGE : Type := (Z * Z)%type.
Definition rt_FACE : Type := (Z * Z * Z * Z)%type.

Definition pl_edges : list rt_EDGE := [(0, 1); (1, 2); (2, 3); (3, 0)].
Definition pl_faces : list rt_FACE := [(0, 1, 2, 3)].

Definition qd_edges : list rt_EDGE :=
  [(0, 1); (1, 2); (2, 3); (3, 0); (0, 4); (1, 5);
   (2, 6); (3, 7); (7, 6); (6, 5); (5, 4); (4, 7)].

Definition qd_faces : list rt_FACE :=
  [(0, 1, 2, 3); (0, 4, 5, 1); (1, 5, 6, 2);
   (2, 6, 7, 3); (3, 7, 4, 0); (7, 6, 5, 4)].

(** The bounding polyhedron fields of [rt_SHAPE]; a null list pointer is
    [None], an allocated vertex array holds zeroed vertices. *)
Record rt_SHAPE : Type := mk_SHAPE {
  verts_num : rt_cell;
  verts : option (list rt_vec3);
  edges_num : rt_cell;
  edges : option (list rt_EDGE);
  faces_num : rt_cell;
  faces : option (list rt_FACE)
}.

Definition no_polyhedron : rt_SHAPE := mk_SHAPE 0 None 0 None 0 None.

Definition polyhedron (n : nat) (e : list rt_EDGE) (f : list rt_FACE)
  : rt_SHAPE :=
  mk_SHAPE (Z.of_nat n) (Some (repeat vzero n))
           (Z.of_nat (List.length e)) (Some e)
           (Z.of_nat (List.length f)) (Some f).

Definition is_neg_inf (x : rt_real) : bool := Qeq_bool x (Qopp RT_INF).
Definition is_pos_inf (x : rt_real) : bool := Qeq_bool x RT_INF.

(** The polyhedron set up by the constructors of the surface classes
    ([rt_Plane::rt_Plane], [rt_Cylinder::rt_Cylinder], ...). *)
Definition shape_polyhedron (sh : rt_shape) (srf : rt_SURFACE) : rt_SHAPE :=
  let mn := lit_min srf in
  let mx := lit_max srf in
  match sh with
  | SH_PLANE =>
      if is_neg_inf (vget mn RT_I) || is_neg_inf (vget mn RT_J)
         || is_pos_inf (vget mx RT_I) || is_pos_inf (vget mx RT_J)
      then no_polyhedron
      else polyhedron 4 pl_edges pl_faces
  | SH_CYLINDER _ | SH_CONE _ | SH_HYPERBOLOID _ _ =>
      if is_neg_inf (vget mn RT_K) || is_pos_inf (vget mx RT_K)
      then no_polyhedron
      else polyhedron 8 qd_edges qd_faces
  | SH_SPHERE _ =>
      (* if (RT_FALSE) *)
      if false then no_polyhedron
      else polyhedron 8 qd_edges qd_faces
  | SH_PARABOLOID par =>
      if is_neg_inf (vget mn RT_K) && Qlt_bool par 0%Q
         || is_pos_inf (vget mx RT_K) && Qgt_bool par 0%Q
      then no_polyhedron
      else polyhedron 8 qd_edges qd_faces
  end.

(** The objects a construction yields. *)
Inductive rt_Built : Type :=
| Built_Array (obj_arr : list rt_Built)
| Built_Surface (sh : rt_shape) (shp : rt_SHAPE) (outer inner : rt_MATERIAL)
| Built_Camera
| Built_Light.

(** [rt_Material::rt_Material]: the null check on the material record.
    The rest of the constructor (texture lookup, property bits, SIMD
    fields) is modelled in [Material]. *)
Definition rt_Material_ctor (mat : option rt_MATERIAL)
  : rt_result rt_MATERIAL :=
  match mat with
  | None => Throw "null-pointer in material"%string
  | Some m => Ok m
  end.

(** [obj->obj.pmat_outer ? obj->obj.pmat_outer : srf->side_outer.pmat]. *)
Definition side_material (override : option rt_MATERIAL) (sd : rt_SIDE)
  : option rt_MATERIAL :=
  match override with
  | Some m => Some m
  | None => pmat sd
  end.

(** [rt_Surface::rt_Surface] followed by the constructor of the class. *)
Definition rt_Surface_ctor (o : rt_OBJ) (sh : rt_shape) (srf : rt_SURFACE)
  : rt_result rt_Built :=
  bind (rt_Material_ctor (side_material (pmat_outer o) (side_outer srf)))
    (fun outer =>
  bind (rt_Material_ctor (side_material (pmat_inner o) (side_inner srf)))
    (fun inner =>
  Ok (Built_Surface sh (shape_polyhedron sh srf) outer inner))).

End Construct.

Arguments Ok {A} a.
Arguments Throw {A} msg.

(** ** rt_Node: axis mapping of a trivial transform *)

(** Further macros and constants that object.cpp uses and that are
    defined in rtbase.h and object.h; the development is parametric in
    them. *)
Class rt_Macros : Type := {
  (* rtbase.h *)
  RT_SIGN : rt_real -> rt_cell;
  (* object.h: runtime optimization masks *)
  RT_OPTS_VARRAY : rt_cell;
  RT_OPTS_UPDATE : rt_cell
}.

(** The macro tells negative from positive numbers. *)
Definition RT_SIGN_signs `{rt_Macros} : Prop :=
  (forall x, (0 < x)%Q -> RT_SIGN x = 1) /\
  (forall x, (x < 0)%Q -> RT_SIGN x = -1).

Section Node.

Context `{rt_Macros}.

(** The entries [mtx[i][c]] for i, c = 0..2 of a matrix:
    [vget (mrow m i) c]. *)
Record rt_mat3 : Type := mk_mat3 {
  m_row0 : rt_vec3;
  m_row1 : rt_vec3;
  m_row2 : rt_vec3
}.

Definition mrow (m : rt_mat3) (i : axis) : rt_vec3 :=
  match i with RT_X => m_row0 m | RT_Y => m_row1 m | RT_Z => m_row2 m end.

Definition mset_row (m : rt_mat3) (i : axis) (r : rt_vec3) : rt_mat3 :=
  match i with
  | RT_X => mk_mat3 r (m_row1 m) (m_row2 m)
  | RT_Y => mk_mat3 (m_row0 m) r (m_row2 m)
  | RT_Z => mk_mat3 (m_row0 m) (m_row1 m) r
  end.

Definition mget (m : rt_mat3) (i c : axis) : rt_real := vget (mrow m i) c.

(** Modelled from the spec: [iden4] of rtgeom.cpp is not among the
    sources; it is the identity matrix (a row of a trivial transform
    "matches a signed standard basis vector"). *)
Definition iden4 : rt_mat3 :=
  mk_mat3 (mk_vec3 1 0 0)%Q (mk_vec3 0 1 0)%Q (mk_vec3 0 0 1)%Q.

(** [map[3]], [sgn[3]] of [rt_Node] and the local [scl[3]] of
    [rt_Node::update]. *)
Record rt_map3 : Type := mk_map3 { map_0 : axis; map_1 : axis; map_2 : axis }.

Definition aget (m : rt_map3) (i : axis) : axis :=
  match i with RT_X => map_0 m | RT_Y => map_1 m | RT_Z => map_2 m end.

Definition aset (m : rt_map3) (i : axis) (j : axis) : rt_map3 :=
  match i with
  | RT_X => mk_map3 j (map_1 m) (map_2 m)
  | RT_Y => mk_map3 (map_0 m) j (map_2 m)
  | RT_Z => mk_map3 (map_0 m) (map_1 m) j
  end.

Definition iset (v : rt_ivec3) (i : axis) (x : rt_cell) : rt_ivec3 :=
  match i with
  | RT_X => mk_ivec3 x (iy v) (iz v)
  | RT_Y => mk_ivec3 (ix v) x (iz v)
  | RT_Z => mk_ivec3 (ix v) (iy v) x
  end.

Record rt_axes : Type := mk_axes {
  a_map : rt_map3;
  a_sgn : rt_ivec3;
  a_scl : rt_vec3
}.

(** [x != 0.0f]. *)
Definition nonzero (x : rt_real) : bool := negb (Qeq_bool x 0%Q).

(** [(mtx[i][0] != 0.0f) == (iden4[j][0] != 0.0f) && ...] for the
    three columns. *)
Definition same_pattern (r e : rt_vec3) : bool :=
  Bool.eqb (nonzero (vx r)) (nonzero (vx e))
  && Bool.eqb (nonzero (vy r)) (nonzero (vy e))
  && Bool.eqb (nonzero (vz r)) (nonzero (vz e)).

(** The body of the double loop of [rt_Node::update]. *)
Definition axis_step (m : rt_mat3) (i : axis) (ax : rt_axes) (j : axis)
  : rt_axes :=
  if same_pattern (mrow m i) (mrow iden4 j)
  then mk_axes (aset (a_map ax) i j)
               (iset (a_sgn ax) i (RT_SIGN (mget m i j)))
               (vset (a_scl ax) i (RT_FABS (mget m i j)))
  else ax.

Definition all_axes : list axis := [RT_X; RT_Y; RT_Z].

(** [for (i = 0; i < 3; i++) for (j = 0; j < 3; j++) ...]: the axis
    mapping read off a matrix; [ax] holds [map], [sgn] as they were and
    whatever the local [scl] holds on entry. *)
Definition axis_mapping (m : rt_mat3) (ax : rt_axes) : rt_axes :=
  fold_left (fun ax i => fold_left (axis_step m i) all_axes ax) all_axes ax.

Definition vscale (v : rt_vec3) (x : rt_real) : rt_vec3 :=
  mk_vec3 (vx v * x)%Q (vy v * x)%Q (vz v * x)%Q.

(** The second loop of [rt_Node::update]:
    [j = map[i]; mtx[j][c] = iden4[j][c] * scl[i]]. *)
Definition separate_scale (ax : rt_axes) (m : rt_mat3) : rt_mat3 :=
  fold_left
    (fun m i =>
       let j := aget (a_map ax) i in
       mset_row m j (vscale (mrow iden4 j) (vget (a_scl ax) i)))
    all_axes m.

(** [rt_Array::update]: the axis mapping as a matrix,
    [memset(axm, 0, ...); axm[i][map[i]] = sgn[i]]. *)
Definition axis_matrix (ax : rt_axes) : rt_mat3 :=
  fold_left
    (fun m i =>
       mset_row m i (vset (mrow m i) (aget (a_map ax) i)
                          (inject_Z (iget (a_sgn ax) i))))
    all_axes (mk_mat3 vzero vzero vzero).

End Node.

(** ** rt_Array::update: rebuilding the relations *)

Section ArrayRelations.

Context `{rt_Headers} `{rt_Macros}.

(** format.h: the kinds of relation; [REL_OTHER] stands for every value
    that reaches the [default] label of the [switch]. *)
Inductive rel_kind : Type :=
| REL_INDEX_ARRAY
| REL_MINUS_INNER
| REL_MINUS_OUTER
| REL_MINUS_ACCUM
| REL_BOUND_ARRAY
| REL_UNTIE_ARRAY
| REL_BOUND_INDEX
| REL_UNTIE_INDEX
| REL_OTHER.

(** format.h: [rt_RELATION]. *)
Record rt_RELATION : Type := mk_RELATION {
  obj1 : rt_cell;
  rel : rel_kind;
  obj2 : rt_cell
}.

(** [rel[i].rel] as stored in [elm->data] of a clipper element. *)
Definition rel_data (k : rel_kind) : rt_cell :=
  match k with
  | REL_MINUS_INNER => RT_REL_MINUS_INNER
  | _ => RT_REL_MINUS_OUTER
  end.

Definition tree_obj (t : rt_Tree) : rt_Object :=
  match t with Tree o _ => o end.

(** [arr->obj_arr] (with [arr->obj_num] its length). *)
Definition tree_arr (t : rt_Tree) : list rt_Tree :=
  match t with Tree _ children => children end.

(** [obj_arr[k]]: defined for [0 <= k < obj_num] only. *)
Definition sub (l : list rt_Tree) (k : rt_cell) : option rt_Tree :=
  if k <? 0 then None else nth_error l (Z.to_nat k).

(** The variables of the loop: the pending template [lst], [acc], the
    left and the right sub-array. *)
Record rel_state : Type := mk_rel_state {
  rs_lst : list rt_TEMPLATE;
  rs_acc : rt_cell;
  rs_l : list rt_Tree;
  rs_r : list rt_Tree
}.

(** The calls the loop makes on objects of the hierarchy:
    [target->add_relation(elm)] with the list headed by [elm], and
    [obj->update_bvnode(arr, mode)]. *)
Inductive rel_call : Type :=
| Call_add_relation (target : rt_Tree) (lst : list rt_TEMPLATE)
| Call_update_bvnode (obj arr : rt_Tree) (mode : bool).

Definition opt_bind {A B : Type} (o : option A) (k : A -> option B)
  : option B :=
  match o with Some a => k a | None => None end.

Definition set_l (st : rel_state) (l : list rt_Tree) : rel_state :=
  mk_rel_state (rs_lst st) (rs_acc st) l (rs_r st).

Definition set_r (st : rel_state) (r : list rt_Tree) : rel_state :=
  mk_rel_state (rs_lst st) (rs_acc st) (rs_l st) r.

(** [if (c && RT_IS_ARRAY(arr[k])) then_ else st]: the element is read
    only when [c] holds. *)
Definition when_array (c : bool) (arr : list rt_Tree) (k : rt_cell)
    (st : rel_state) (then_ : rt_Tree -> rel_state) : option rel_state :=
  if c then
    opt_bind (sub arr k)
      (fun t => Some (if RT_IS_ARRAY (tag (tree_obj t)) then then_ t else st))
  else Some st.

(** The two statements that follow the [switch]: hand the element to
    the left object, tie or untie the bounding volume; either use
    resets the sub-array it indexed. *)
Definition rel_finish (opts : rt_cell) (this : rt_Tree) (r : rt_RELATION)
    (st : rel_state) (elm : option (list rt_TEMPLATE))
    (bv : option (rt_Tree * rt_Tree * bool))
  : option (rel_state * list rel_call) :=
  let obj_arr := tree_arr this in
  opt_bind
    (match elm with
     | Some e =>
         if 0 <=? obj1 r then
           opt_bind (sub (rs_l st) (obj1 r))
             (fun t => Some (set_l st obj_arr, [Call_add_relation t e]))
         else Some (st, [])
     | None => Some (st, [])
     end)
    (fun '(st1, calls1) =>
       match bv with
       | Some (obj, arr, mode) =>
           let calls2 :=
             if negb (Z.land opts RT_OPTS_VARRAY =? 0)
             then [Call_update_bvnode obj arr mode] else [] in
           let st2 := if 0 <=? obj1 r then set_l st1 obj_arr else st1 in
           let st3 := if 0 <=? obj2 r then set_r st2 obj_arr else st2 in
           Some (st3, calls1 ++ calls2)
       | None => Some (st1, calls1)
       end).

Definition marker (data : rt_cell) : rt_TEMPLATE := mk_TEMPLATE data None.

(** One iteration of the loop over [rel[i]].  An element [elm] is
    represented by the list it heads.  [None] stands for an access
    outside an array or through a null [elm]. *)
Definition rel_step (opts : rt_cell) (this : rt_Tree) (st : rel_state)
    (r : rt_RELATION) : option (rel_state * list rel_call) :=
  let obj_arr := tree_arr this in
  if (Z.of_nat (List.length (rs_l st)) <=? obj1 r)
     || (Z.of_nat (List.length (rs_r st)) <=? obj2 r)
  then Some (st, [])
  else
    match rel r with
    | REL_INDEX_ARRAY =>
        opt_bind
          (when_array ((0 <=? obj1 r) && (-1 <=? obj2 r)) (rs_l st) (obj1 r)
             st (fun t => set_l st (tree_arr t)))
          (fun st1 =>
        opt_bind
          (when_array ((-1 <=? obj1 r) && (0 <=? obj2 r)) (rs_r st1) (obj2 r)
             st1 (fun t => set_r st1 (tree_arr t)))
          (fun st2 => rel_finish opts this r st2 None None))
    | REL_MINUS_INNER | REL_MINUS_OUTER =>
        (* if (obj1 == -1 && obj2 >= 0 && acc == 0): open a segment *)
        let '(st1, elm1) :=
          if (obj1 r =? -1) && (0 <=? obj2 r) && (rs_acc st =? 0)
          then let e := marker RT_ACCUM_ENTER :: rs_lst st in
               (mk_rel_state e 1 (rs_l st) (rs_r st), Some e)
          else (st, None) in
        (* if (obj1 >= -1 && obj2 >= 0): a new element for the clipper *)
        opt_bind
          (if (-1 <=? obj1 r) && (0 <=? obj2 r) then
             opt_bind (sub (rs_r st1) (obj2 r))
               (fun t =>
                  Some (set_r st1 obj_arr,
                        Some [mk_TEMPLATE (rel_data (rel r)) (Some t)]))
           else Some (st1, elm1))
          (fun '(st2, elm2) =>
             (* if (obj1 == -1 && obj2 >= 0): elm->next = lst; lst = elm *)
             if (obj1 r =? -1) && (0 <=? obj2 r) then
               match elm2 with
               | Some (c :: _) =>
                   let e := c :: rs_lst st2 in
                   rel_finish opts this r
                     (mk_rel_state e (rs_acc st2) (rs_l st2) (rs_r st2))
                     (Some e) None
               | _ => None
               end
             else rel_finish opts this r st2 elm2 None)
    | REL_MINUS_ACCUM =>
        if (0 <=? obj1 r) && (obj2 r =? -1) && (rs_acc st =? 1)
        then rel_finish opts this r
               (mk_rel_state [] 0 (rs_l st) (rs_r st))
               (Some (marker RT_ACCUM_LEAVE :: rs_lst st)) None
        else rel_finish opts this r st None None
    | REL_BOUND_ARRAY | REL_UNTIE_ARRAY =>
        let mode := match rel r with REL_BOUND_ARRAY => true | _ => false end in
        let bv1 :=
          if (obj1 r =? -1) && (obj2 r =? -1)
          then Some (this, this, mode) else None in
        opt_bind
          (if (obj1 r =? -1) && (0 <=? obj2 r) then
             opt_bind (sub (rs_r st) (obj2 r))
               (fun t => Some (if RT_IS_ARRAY (tag (tree_obj t))
                               then Some (t, t, mode) else bv1))
           else Some bv1)
          (fun bv => rel_finish opts this r st None bv)
    | REL_BOUND_INDEX | REL_UNTIE_INDEX =>
        let mode := match rel r with REL_BOUND_INDEX => true | _ => false end in
        opt_bind
          (if (obj1 r =? -1) && (0 <=? obj2 r) then
             opt_bind (sub (rs_r st) (obj2 r))
               (fun t => Some (Some (t, this, mode)))
           else Some None)
          (fun bv1 =>
        opt_bind
          (if (0 <=? obj1 r) && (0 <=? obj2 r) then
             opt_bind (sub (rs_l st) (obj1 r))
               (fun a =>
                  if RT_IS_ARRAY (tag (tree_obj a)) then
                    opt_bind (sub (rs_r st) (obj2 r))
                      (fun t => Some (Some (t, a, mode)))
                  else Some bv1)
           else Some bv1)
          (fun bv => rel_finish opts this r st None bv))
    | REL_OTHER => rel_finish opts this r st None None
    end.

(** The loop [for (i = 0; i < obj->obj.rel_num; i++)]. *)
Fixpoint rel_loop (opts : rt_cell) (this : rt_Tree) (st : rel_state)
    (rels : list rt_RELATION) : option (rel_state * list rel_call) :=
  match rels with
  | [] => Some (st, [])
  | r :: rest =>
      opt_bind (rel_step opts this st r)
        (fun '(st1, calls1) =>
           opt_bind (rel_loop opts this st1 rest)
             (fun '(st2, calls2) => Some (st2, calls1 ++ calls2)))
  end.

(** The part of [rt_Array::update] that rebuilds the relations of the
    array [this] from [obj->obj.prel]: the calls it makes, in order. *)
Definition array_relations (opts : rt_cell) (this : rt_Tree)
    (rels : list rt_RELATION) : option (list rel_call) :=
  match rels with
  | [] => Some []
  | _ :: _ =>
      option_map snd
        (rel_loop opts this
           (mk_rel_state [] 0 (tree_arr this) (tree_arr this)) rels)
  end.

End ArrayRelations.

(** ** rt_Array::update: the flags of the array itself *)

Section ArrayUpdate.

Context `{rt_Headers} `{rt_Macros}.




End ArrayUpdate.

(** ** Bounding polyhedron and bounding sphere of a surface *)

(** A position [rt_vec4 pos]: the three coordinates and [pos[RT_W]]. *)
Record rt_vec4 : Type := mk_vec4 { v_xyz : rt_vec3; v_w : rt_real }.

(** The helper of rtgeom.h that applies a matrix to a vector is used by
    object.cpp but defined elsewhere; the development is parametric in
    it. *)
Class rt_Geom `{rt_Headers} : Type := {
  matrix_mul_vector : rt_mat4 -> rt_vec4 -> rt_vec4
}.

Section Vertices.

Context `{rt_Geom}.

(** An axis as the integer stored in [edges[n].k] and [faces[n].k/i/j];
    3 is the label of an element that follows no axis. *)
Definition axis_index (a : axis) : rt_cell :=
  match a with RT_X => 0 | RT_Y => 1 | RT_Z => 2 end.

(** The bounding geometry of [rt_SHAPE] that the updates write: the
    vertices ([None] when the constructor set up no polyhedron), the
    axis labels of the edges and faces, the bounding sphere. *)
Record rt_Bound : Type := mk_Bound {
  b_verts : option (list rt_vec4);
  b_edges_k : list rt_cell;
  b_faces_kij : list (rt_cell * rt_cell * rt_cell);
  b_mid : rt_vec3;
  b_rad : rt_real
}.

(** [shp->bmax[a]] or [shp->bmin[a]]. *)
Definition box_pick (s : rt_Surface) (hi : bool) (a : axis) : rt_real :=
  vget (if hi then bmax s else bmin s) a.

(** [p[mp_i] = b[mp_i]; p[mp_j] = b[mp_j]; p[mp_k] = b[mp_k];
    p[mp_l] = 1.0f] written over [init], each bound taken from [bmax]
    or [bmin] as the flags say. *)
Definition corner (s : rt_Surface) (init : rt_vec4) (hi : bool * bool * bool)
  : rt_vec4 :=
  let '(hi_i, hi_j, hi_k) := hi in
  mk_vec4
    (vset (vset (vset (v_xyz init)
                      (mp_i s) (box_pick s hi_i (mp_i s)))
                (mp_j s) (box_pick s hi_j (mp_j s)))
          (mp_k s) (box_pick s hi_k (mp_k s)))
    1%Q.

(** Which bound each vertex takes on I, J, K (true: [bmax]), in the
    order of the vertices 0x0 .. 0x7 of a quadric; a plane has the first
    four. *)
Definition qd_corners : list (bool * bool * bool) :=
  [(true, true, true); (false, true, true);
   (false, false, true); (true, false, true);
   (true, true, false); (false, true, false);
   (false, false, false); (true, false, false)].

Definition pl_corners : list (bool * bool * bool) := firstn 4 qd_corners.

(** The axis labels written when the vertices keep local coordinates. *)
Definition qd_edges_k (s : rt_Surface) : list rt_cell :=
  map axis_index
    [mp_i s; mp_j s; mp_i s; mp_j s;
     mp_k s; mp_k s; mp_k s; mp_k s;
     mp_i s; mp_j s; mp_i s; mp_j s].

Definition qd_faces_kij (s : rt_Surface) : list (rt_cell * rt_cell * rt_cell) :=
  map (fun '(k, i, j) => (axis_index k, axis_index i, axis_index j))
    [(mp_k s, mp_i s, mp_j s); (mp_j s, mp_k s, mp_i s);
     (mp_i s, mp_k s, mp_j s); (mp_j s, mp_k s, mp_i s);
     (mp_i s, mp_k s, mp_j s); (mp_k s, mp_i s, mp_j s)].

Definition pl_edges_k (s : rt_Surface) : list rt_cell :=
  map axis_index [mp_i s; mp_j s; mp_i s; mp_j s].

Definition pl_faces_kij (s : rt_Surface) : list (rt_cell * rt_cell * rt_cell) :=
  [(axis_index (mp_k s), axis_index (mp_i s), axis_index (mp_j s))].

(** Modelled from the spec: the vector macros RT_VEC3_MAD_VAL1
    (d = d + s * val), RT_VEC3_SUB (d = a - b) and RT_VEC3_DOT of
    rtgeom.h are not among the sources; the bounding sphere is "the
    centroid of the vertices, radius the largest distance from it". *)
Definition RT_VEC3_MAD_VAL1 (d s : rt_vec3) (val : rt_real) : rt_vec3 :=
  mk_vec3 (vx d + vx s * val)%Q (vy d + vy s * val)%Q (vz d + vz s * val)%Q.

Definition RT_VEC3_SUB (a b : rt_vec3) : rt_vec3 :=
  mk_vec3 (vx a - vx b)%Q (vy a - vy b)%Q (vz a - vz b)%Q.

Definition RT_VEC3_DOT (a b : rt_vec3) : rt_real :=
  (vx a * vx b + vy a * vy b + vz a * vz b)%Q.

(** First loop of [rt_Surface::update_bounds]: the centre.  The factor
    [f = 1.0f / verts_num] is the exact quotient; the loop is reached
    with [verts_num != 0] only. *)
Definition bound_mid (verts : list rt_vec4) : rt_vec3 :=
  let f := (1 / inject_Z (Z.of_nat (List.length verts)))%Q in
  fold_left (fun mid v => RT_VEC3_MAD_VAL1 mid (v_xyz v) f) verts vzero.

(** [RT_VEC3_DOT(dff_vec, dff_vec)] of a vertex. *)
Definition dff_dot (mid : rt_vec3) (v : rt_vec4) : rt_real :=
  let dff_vec := RT_VEC3_SUB mid (v_xyz v) in
  RT_VEC3_DOT dff_vec dff_vec.

(** Second loop: the largest squared distance, starting from 0. *)
Definition bound_rad2 (mid : rt_vec3) (verts : list rt_vec4) : rt_real :=
  fold_left
    (fun rad v => if Qlt_bool rad (dff_dot mid v) then dff_dot mid v else rad)
    verts 0%Q.

(** [rt_Surface::update_bounds]: [shp->mid] and [shp->rad]. *)
Definition rt_Surface_update_bounds (verts : list rt_vec4)
  : rt_vec3 * rt_real :=
  match verts with
  | [] => (vzero, 0%Q)
  | _ :: _ =>
      let mid := bound_mid verts in
      (mid, RT_SQRT (bound_rad2 mid verts))
  end.

(** [pmtx]: the matrix of the trnode when there is one other than the
    surface itself, the surface's own matrix otherwise. *)
Definition verts_mtx (st : rt_store) (s : rt_Surface) : rt_mat4 :=
  match trnode (node s) with
  | Some tn =>
      if Nat.eqb tn (this (node s)) then mtx (node s)
      else mtx (node (st tn))
  | None => mtx (node s)
  end.

(** The vertices as the two branches write them.  With a trnode each
    corner is built in a local [vt] (holding whatever [stack n] it held
    before) and sent through [pmtx]; without, it is written in place
    over the old position of the vertex. *)
Definition update_verts (st : rt_store) (s : rt_Surface)
    (corners : list (bool * bool * bool)) (old : list rt_vec4)
    (stack : nat -> rt_vec4) : list rt_vec4 :=
  match trnode (node s) with
  | Some _ =>
      map (fun '(n, c) =>
             matrix_mul_vector (verts_mtx st s) (corner s (stack n) c))
          (combine (seq 0 (List.length corners)) corners)
  | None =>
      map (fun '(v, c) => corner s v c) (combine old corners)
  end.

(** The tail of [rt_Quadric::update] (from the test of [shp->verts]):
    vertices, axis labels, bounding sphere. *)
Definition rt_Quadric_update_verts (st : rt_store) (s : rt_Surface)
    (shp : rt_Bound) (stack : nat -> rt_vec4) : rt_Bound :=
  match b_verts shp with
  | None => shp
  | Some old =>
      let verts := update_verts st s qd_corners old stack in
      let '(ek, fk) :=
        match trnode (node s) with
        | Some _ => (repeat 3 12, repeat (3, 3, 3) 6)
        | None => (qd_edges_k s, qd_faces_kij s)
        end in
      let '(mid, rad) := rt_Surface_update_bounds verts in
      mk_Bound (Some verts) ek fk mid rad
  end.

(** The tail of [rt_Plane::update]. *)
Definition rt_Plane_update_verts (st : rt_store) (s : rt_Surface)
    (shp : rt_Bound) (stack : nat -> rt_vec4) : rt_Bound :=
  match b_verts shp with
  | None => shp
  | Some old =>
      let verts := update_verts st s pl_corners old stack in
      let '(ek, fk) :=
        match trnode (node s) with
        | Some _ => (repeat 3 4, [(3, 3, 3)])
        | None => (pl_edges_k s, pl_faces_kij s)
        end in
      let '(mid, rad) := rt_Surface_update_bounds verts in
      mk_Bound (Some verts) ek fk mid rad
  end.

End Vertices.

(** ** Materials and textures

    [rt_Texture], [rt_Material::resolve_texture], the constructor of
    [rt_Material] beyond its null check, and its destructor. *)

(** Constants that the material code uses and that are defined in
    headers other than format.h; the development is parametric in
    them. *)
Class rt_Props : Type := {
  (* material properties *)
  RT_PROP_TEXTURE : rt_cell;
  RT_PROP_REFLECT : rt_cell;
  RT_PROP_REFRACT : rt_cell;
  RT_PROP_SPECULAR : rt_cell;
  RT_PROP_OPAQUE : rt_cell;
  RT_PROP_TRANSP : rt_cell;
  RT_PROP_LIGHT : rt_cell;
  RT_PROP_NORMAL : rt_cell;
  RT_PROP_METAL : rt_cell;
  (* texture axes *)
  RT_U : rt_cell;
  RT_V : rt_cell;
  RT_SIMD_WIDTH : rt_cell
}.

Module Material.

(** What [rt_TEX::ptex] holds: [RT_NULL], the address of the colour word
    of the texture record itself ([&tx->col.val]) or any other address
    (a file name to load, texel data). *)
Inductive rt_pntr : Type :=
| PNTR_NULL
| PNTR_COL_VAL
| PNTR_MEM (p : ptr).

Definition is_null (p : rt_pntr) : bool :=
  match p with PNTR_NULL => true | _ => false end.

Definition rt_pstr : Type := string.

Definition rt_vec2 : Type := (rt_real * rt_real)%type.
Definition rt_real4 : Type := (rt_real * rt_real * rt_real * rt_real)%type.

(** [v[0]] .. [v[3]] of an array of four reals. *)
Definition at4 (v : rt_real4) (i : nat) : rt_real :=
  let '(a, b, c, d) := v in
  match i with
  | 0%nat => a
  | 1%nat => b
  | 2%nat => c
  | _ => d
  end.

(** format.h: the scene records. *)
Record rt_COL : Type := mk_COL { val : Z; hdr : rt_real4 }.

Record rt_TEX : Type := mk_TEX {
  tx_tag : rt_cell;
  col : rt_COL;
  ptex : rt_pntr;
  tex_num : rt_cell;
  prel : option ptr;
  rel_num : rt_cell;
  x_dim : rt_cell;
  y_dim : rt_cell
}.

Definition RT_MAT_PLAIN : rt_cell := 0.
Definition RT_MAT_LIGHT : rt_cell := 1.
Definition RT_MAT_METAL : rt_cell := 2.

Record rt_MATERIAL : Type := mk_MATERIAL {
  tag : rt_cell;
  tex : rt_TEX;
  lgt : rt_real4;
  prp : rt_real4
}.

(** The implicit TRANSFORM2D of [rt_SIDE] ([pmat] is handed to the
    constructor separately). *)
Record rt_SIDE : Type := mk_SIDE {
  sd_scl : rt_vec2;
  sd_rot : rt_real;
  sd_pos : rt_vec2
}.

(** [rt_Texture]: a loaded image under its name.  The registry keeps
    the textures in a list, the last one instantiated first. *)
Record rt_Texture : Type := mk_Texture {
  t_name : rt_pstr;
  t_tex : rt_TEX
}.

(** The two-element arrays [map[2]], [sgn[2]] and the rows of the
    texture matrix, indexed by 0 and 1. *)
Definition get2 {A : Type} (p : A * A) (i : rt_cell) : A :=
  if i =? 0 then fst p else snd p.

Definition set2 {A : Type} (p : A * A) (i : rt_cell) (x : A) : A * A :=
  if i =? 0 then (x, snd p) else (fst p, x).

(** [v[k]] of an [rt_vec2]; [None] outside the array. *)
Definition at2 (v : rt_vec2) (k : rt_cell) : option rt_real :=
  if k =? 0 then Some (fst v)
  else if k =? 1 then Some (snd v)
  else None.

(** [map], [sgn] and [match] of the constructor. *)
Record rt_tmap : Type := mk_tmap {
  tm_map : rt_cell * rt_cell;
  tm_sgn : rt_cell * rt_cell;
  tm_match : rt_cell
}.

(** [rt_SIMD_MATERIAL]: the fields the constructor computes (those that
    copy a scene value or divide by a scale are left out). *)
Record rt_SIMD_MATERIAL : Type := mk_SIMD_MATERIAL {
  t_map : list rt_cell;
  xoffs : option rt_real;
  yoffs : option rt_real;
  xmask : Z;
  ymask : Z;
  yshft0 : rt_cell
}.

(** [rt_Material]: [otx], [props], [mtx], the locals [map] and [sgn]
    as the constructor leaves them, and [s_mat]. *)
Record rt_Material : Type := mk_Material {
  otx : rt_TEX;
  props : rt_cell;
  mat_mtx : (rt_real * rt_real) * (rt_real * rt_real);
  mat_map : rt_cell * rt_cell;
  mat_sgn : rt_cell * rt_cell;
  s_mat : rt_SIMD_MATERIAL
}.

Section Material.

Context `{rt_Headers} `{rt_Macros} `{rt_Props}.

(** The C string at an address ([(rt_pstr)tx->ptex]). *)
Variable cstr : rt_pntr -> rt_pstr.

(** [load_image] of another file fills in the texture record of an
    image file or throws. *)
Variable load_image : rt_pstr -> rt_result rt_TEX.

(** [rt_Texture::rt_Texture]: the texture is put in front of the list
    of the registry, then the image is loaded. *)
Definition rt_Texture_ctor (rg : list rt_Texture) (name : rt_pstr)
  : rt_result (list rt_Texture * rt_Texture) :=
  bind (load_image name) (fun tx =>
  let t := mk_Texture name tx in
  Ok (t :: rg, t)).

(** The [for] loop of [resolve_texture]: the first texture of the list
    whose name compares equal. *)
Definition find_texture (rg : list rt_Texture) (name : rt_pstr)
  : option rt_Texture :=
  find (fun t => String.eqb name (t_name t)) rg.

Definition set_color_in_place (tx : rt_TEX) : rt_TEX :=
  mk_TEX (tx_tag tx) (col tx) PNTR_COL_VAL (tex_num tx) (prel tx)
         (rel_num tx) 1 1.

(** [rt_Material::resolve_texture]. *)
Definition resolve_texture (rg : list rt_Texture) (tx : rt_TEX)
  : rt_result (list rt_Texture * rt_TEX) :=
  (* texture color is defined in place *)
  let tx1 :=
    if (x_dim tx =? 0) && (y_dim tx =? 0) && is_null (ptex tx)
    then set_color_in_place tx
    else tx in
  (* texture load is requested *)
  if (x_dim tx1 =? 0) && (y_dim tx1 =? 0) && negb (is_null (ptex tx1))
  then
    let name := cstr (ptex tx1) in
    match find_texture rg name with
    | Some t => Ok (rg, t_tex t)
    | None =>
        bind (rt_Texture_ctor rg name) (fun '(rg', t) => Ok (rg', t_tex t))
    end
  else Ok (rg, tx1).

(** [props]. *)
Definition material_props (mat : rt_MATERIAL) (tx : rt_TEX) : rt_cell :=
  let props := 0 in
  let props := Z.lor props
    (if (x_dim tx =? 1) && (y_dim tx =? 1) then 0 else RT_PROP_TEXTURE) in
  let props := Z.lor props
    (if Qeq_bool (at4 (prp mat) 0) 0 then 0 else RT_PROP_REFLECT) in
  let props := Z.lor props
    (if Qeq_bool (at4 (prp mat) 2) 1 then 0 else RT_PROP_REFRACT) in
  let props := Z.lor props
    (if Qeq_bool (at4 (lgt mat) 1) 0 then 0 else RT_PROP_SPECULAR) in
  let props := Z.lor props
    (if Qeq_bool (at4 (prp mat) 1) 0 then RT_PROP_OPAQUE else 0) in
  let props := Z.lor props
    (if Qeq_bool (at4 (prp mat) 1) 1 then RT_PROP_TRANSP else 0) in
  let props := Z.lor props
    (if tag mat =? RT_MAT_LIGHT then RT_PROP_LIGHT else RT_PROP_NORMAL) in
  Z.lor props (if tag mat =? RT_MAT_METAL then RT_PROP_METAL else 0).

(** [mtx[0][0] .. mtx[1][1]] of the texture rotation. *)
Definition texture_matrix (sd : rt_SIDE)
  : (rt_real * rt_real) * (rt_real * rt_real) :=
  ((RT_COSA (sd_rot sd), RT_SINA (sd_rot sd)),
   (Qopp (RT_SINA (sd_rot sd)), RT_COSA (sd_rot sd))).

(** The body of the double loop over the texture matrix. *)
Definition tex_step (m : (rt_real * rt_real) * (rt_real * rt_real))
    (i : rt_cell) (st : rt_tmap) (j : rt_cell) : rt_tmap :=
  if Qeq_bool (RT_FABS (get2 (get2 m i) 0))
              (vx (mrow iden4 (axis_of_index j)))
     && Qeq_bool (RT_FABS (get2 (get2 m i) 1))
                 (vy (mrow iden4 (axis_of_index j)))
  then mk_tmap (set2 (tm_map st) i j)
               (set2 (tm_sgn st) i (RT_SIGN (get2 (get2 m i) j)))
               (tm_match st + 1)
  else st.

(** [for (i = 0; i < 2; i++) for (j = 0; j < 2; j++) ...] followed by
    the default taken when fewer than two rows matched; [map0], [sgn0]
    are whatever the locals hold on entry. *)
Definition texture_axes (m : (rt_real * rt_real) * (rt_real * rt_real))
    (map0 sgn0 : rt_cell * rt_cell) : rt_tmap :=
  let st :=
    fold_left (fun st i => fold_left (tex_step m i) [0; 1] st) [0; 1]
              (mk_tmap map0 sgn0 0) in
  if tm_match st <? 2
  then mk_tmap (set2 (set2 (tm_map st) 0 RT_U) 1 RT_V)
               (set2 (set2 (tm_sgn st) 0 1) 1 1)
               (tm_match st)
  else st.

(** [while (x_dim >>= 1) x_lg2++;] on 32-bit signed cells: [None] when
    the loop is still running after [fuel] tests. *)
Fixpoint lg2_loop (fuel : nat) (x_dim x_lg2 : rt_cell) : option rt_cell :=
  match fuel with
  | O => None
  | S fuel' =>
      let x_dim' := Z.shiftr x_dim 1 in
      if x_dim' =? 0 then Some x_lg2
      else lg2_loop fuel' x_dim' (x_lg2 + 1)
  end.

(** A value converted to the unsigned 32-bit [rt_word]. *)
Definition to_word (x : Z) : Z := x mod 2 ^ 32.

(** [rt_Material::rt_Material] on the registry's list of textures and
    the scene record [mat] it keeps a pointer to: the list and the
    record as the constructor leaves them, and the new material.
    [otx0], [map0] and [sgn0] are whatever the member [otx] and the
    locals [map], [sgn] hold on entry.  The outer [None] is a [while]
    loop still running after [fuel] tests. *)
Definition rt_Material_ctor (fuel : nat) (rg : list rt_Texture)
    (sd : rt_SIDE) (mat : option rt_MATERIAL) (otx0 : rt_TEX)
    (map0 sgn0 : rt_cell * rt_cell)
  : option (rt_result (list rt_Texture * rt_MATERIAL * rt_Material)) :=
  match mat with
  | None => Some (Throw "null-pointer in material"%string)
  | Some mt =>
      (* otx.x_dim = otx.y_dim = -1 *)
      let otx1 :=
        mk_TEX (tx_tag otx0) (col otx0) (ptex otx0) (tex_num otx0)
               (prel otx0) (rel_num otx0) (-1) (-1) in
      (* save original texture data *)
      let otx :=
        if (x_dim (tex mt) =? 0) && (y_dim (tex mt) =? 0)
        then tex mt else otx1 in
      match resolve_texture rg (tex mt) with
      | Throw msg => Some (Throw msg)
      | Ok (rg', tx) =>
          let mt' := mk_MATERIAL (tag mt) tx (lgt mt) (prp mt) in
          let m := texture_matrix sd in
          let ax := texture_axes m map0 sgn0 in
          match lg2_loop fuel (x_dim tx) 0 with
          | None => None
          | Some x_lg2 =>
              let s :=
                mk_SIMD_MATERIAL
                  [get2 (tm_map ax) 0 * RT_SIMD_WIDTH * 4;
                   get2 (tm_map ax) 1 * RT_SIMD_WIDTH * 4; 0; 0]
                  (at2 (sd_pos sd) (get2 (tm_map ax) 0))
                  (at2 (sd_pos sd) (get2 (tm_map ax) 1))
                  (to_word (x_dim tx - 1))
                  (to_word (y_dim tx - 1))
                  x_lg2 in
              Some (Ok (rg', mt',
                        mk_Material otx (material_props mt' tx) m
                                    (tm_map ax) (tm_sgn ax) s))
          end
      end
  end.

(** [rt_Material::~rt_Material]: the scene record as the destructor
    leaves it. *)
Definition rt_Material_dtor (m : rt_Material) (mat : rt_MATERIAL)
  : rt_MATERIAL :=
  (* restore original texture data *)
  if (x_dim (otx m) =? 0) && (y_dim (otx m) =? 0)
  then mk_MATERIAL (tag mat) (otx m) (lgt mat) (prp mat)
  else mat.

End Material.

End Material.

(** ** Instantiating the hierarchy on the registry

    The constructors of the object classes as they act on the registry
    and on the scene literal: [rt_Array::rt_Array] and its [switch],
    [rt_Surface::rt_Surface] with the two [new rt_Material], the
    cameras and the lights. *)

Module Instantiate.

(** How a constructor ends. *)
Inductive rt_outcome (A : Type) : Type :=
| Done (a : A)           (* it returns *)
| Thrown (msg : string)  (* it is left through [throw rt_Exception(msg)] *)
| Fault                  (* it reads through a null pointer or outside an
                            array of the literal *)
| Running.               (* a loop is still running when the fuel is used
                            up *)

Arguments Done {A} a.
Arguments Thrown {A} msg.
Arguments Fault {A}.
Arguments Running {A}.

(** [&arr[i]]: a record of the scene literal, named by the indices that
    lead to it from the root record. *)
Definition rt_path : Type := list nat.

(** format.h: the scene literal.  A pointer to a material record is an
    address of the scene data ([RT_NULL] is [None]); [pobj] is [None]
    when the literal holds a null pointer. *)
Record rt_SIDE : Type := mk_SIDE {
  sd : Material.rt_SIDE;
  pmat : option ptr
}.

Record rt_SURFACE : Type := mk_SURFACE {
  min : rt_vec3;
  max : rt_vec3;
  side_outer : rt_SIDE;
  side_inner : rt_SIDE
}.

(** The material overrides of [rt_OBJ]. *)
Record rt_OBJ : Type := mk_OBJ {
  pmat_outer : option ptr;
  pmat_inner : option ptr
}.

(** [rt_OBJECT], by the tag of its [rt_OBJ]: an array with [obj_num] and
    the records [pobj] points to, a surface (the shape stands for the
    tag and the parameters of its class), a camera or a light with the
    colour their constructors read, or a record with a tag the [switch]
    does not know. *)
Inductive rt_OBJECT : Type :=
| OBJ_ARRAY (o : rt_OBJ) (obj_num : rt_cell) (pobj : option (list rt_OBJECT))
| OBJ_SURFACE (o : rt_OBJ) (sh : rt_shape) (pobj : option rt_SURFACE)
| OBJ_CAMERA (o : rt_OBJ) (pobj : option Material.rt_COL)
| OBJ_LIGHT (o : rt_OBJ) (pobj : option Material.rt_COL)
| OBJ_UNSUPPORTED (o : rt_OBJ) (tag : rt_cell).

(** The lists of the registry, the last instance put first; an instance
    is named by the record it was made for ([this->obj], [this->mat]).
    [mats] is the scene data the material pointers address. *)
Record rt_Registry : Type := mk_Registry {
  get_cam : list rt_path;
  get_lgt : list rt_path;
  get_arr : list rt_path;
  get_srf : list rt_path;
  get_mat : list ptr;
  get_tex : list Material.rt_Texture;
  mats : ptr -> Material.rt_MATERIAL
}.

Definition put_cam (rg : rt_Registry) (p : rt_path) : rt_Registry :=
  mk_Registry (p :: get_cam rg) (get_lgt rg) (get_arr rg) (get_srf rg)
              (get_mat rg) (get_tex rg) (mats rg).

Definition put_lgt (rg : rt_Registry) (p : rt_path) : rt_Registry :=
  mk_Registry (get_cam rg) (p :: get_lgt rg) (get_arr rg) (get_srf rg)
              (get_mat rg) (get_tex rg) (mats rg).

Definition put_arr (rg : rt_Registry) (p : rt_path) : rt_Registry :=
  mk_Registry (get_cam rg) (get_lgt rg) (p :: get_arr rg) (get_srf rg)
              (get_mat rg) (get_tex rg) (mats rg).

Definition put_srf (rg : rt_Registry) (p : rt_path) : rt_Registry :=
  mk_Registry (get_cam rg) (get_lgt rg) (get_arr rg) (p :: get_srf rg)
              (get_mat rg) (get_tex rg) (mats rg).

Definition put_mat (rg : rt_Registry) (m : ptr) : rt_Registry :=
  mk_Registry (get_cam rg) (get_lgt rg) (get_arr rg) (get_srf rg)
              (m :: get_mat rg) (get_tex rg) (mats rg).

(** The list of textures and the record [*mat] after
    [resolve_texture]. *)
Definition set_tex (rg : rt_Registry) (l : list Material.rt_Texture)
    (m : ptr) (r : Material.rt_MATERIAL) : rt_Registry :=
  mk_Registry (get_cam rg) (get_lgt rg) (get_arr rg) (get_srf rg)
              (get_mat rg) l
              (fun q => if Nat.eqb q m then r else mats rg q).

(** The objects the constructors return. *)
Inductive rt_Instance : Type :=
| I_Array (p : rt_path) (obj_arr : list rt_Instance)
| I_Surface (p : rt_path) (sh : rt_shape)
            (outer inner : Material.rt_Material)
| I_Camera (p : rt_path)
| I_Light (p : rt_path).

(** A constructor runs on the registry and leaves it as it is at the
    point where it ends, however it ends. *)
Definition rt_ctor (A : Type) : Type :=
  rt_Registry -> rt_Registry * rt_outcome A.

Definition ret {A : Type} (a : A) : rt_ctor A := fun rg => (rg, Done a).

Definition stop {A : Type} (r : forall B, rt_outcome B) : rt_ctor A :=
  fun rg => (rg, r A).

Definition bind {A B : Type} (m : rt_ctor A) (k : A -> rt_ctor B)
  : rt_ctor B :=
  fun rg =>
    match m rg with
    | (rg', Done a) => k a rg'
    | (rg', Thrown msg) => (rg', Thrown msg)
    | (rg', Fault) => (rg', Fault)
    | (rg', Running) => (rg', Running)
    end.

Section Instantiate.

Context `{rt_Headers} `{rt_Macros} `{rt_Props}.

Variable cstr : Material.rt_pntr -> Material.rt_pstr.
Variable load_image : Material.rt_pstr -> rt_result Material.rt_TEX.

(** What the members [tex] of a new texture, [otx] of a new material
    and the locals [map], [sgn] hold before they are written. *)
Variable tex0 : Material.rt_TEX.
Variable otx0 : Material.rt_TEX.
Variable map0 sgn0 : rt_cell * rt_cell.

(** The registry after [rt_Material::rt_Material] on a material record
    that is not null: the material is put in its list, then
    [resolve_texture] rewrites [mat->tex] and may put a texture in
    front of the list of textures.  When [load_image] throws, the
    texture under construction has been put in the list already
    ([rg->put_tex(this)] is the first statement of
    [rt_Texture::rt_Texture]). *)
Definition material_registry (rg : rt_Registry) (m : ptr) : rt_Registry :=
  let rg1 := put_mat rg m in
  let mt := mats rg m in
  match Material.resolve_texture cstr load_image (get_tex rg)
                                 (Material.tex mt) with
  | Ok (l, tx) =>
      set_tex rg1 l m
        (Material.mk_MATERIAL (Material.tag mt) tx
                              (Material.lgt mt) (Material.prp mt))
  | Throw _ =>
      set_tex rg1
        (Material.mk_Texture (cstr (Material.ptex (Material.tex mt))) tex0
         :: get_tex rg)
        m mt
  end.

(** How the constructor ends on a material record that is not null;
    [sd] is [None] when the side belongs to a null surface record
    ([sd->rot] is the first read through it, after
    [resolve_texture]). *)
Definition material_outcome (fuel : nat) (rg : rt_Registry)
    (sd : option Material.rt_SIDE) (m : ptr)
  : rt_outcome Material.rt_Material :=
  let mt := mats rg m in
  match sd with
  | Some s =>
      match Material.rt_Material_ctor cstr load_image fuel (get_tex rg) s
                                      (Some mt) otx0 map0 sgn0 with
      | Some (Ok (_, _, mat)) => Done mat
      | Some (Throw msg) => Thrown msg
      | None => Running
      end
  | None =>
      match Material.resolve_texture cstr load_image (get_tex rg)
                                     (Material.tex mt) with
      | Ok _ => Fault
      | Throw msg => Thrown msg
      end
  end.

(** [new rt_Material(rg, sd, mat)]. *)
Definition new_Material (fuel : nat) (sd : option Material.rt_SIDE)
    (mat : option ptr) : rt_ctor Material.rt_Material :=
  fun rg =>
    match mat with
    | None => (rg, Thrown "null-pointer in material"%string)
    | Some m => (material_registry rg m, material_outcome fuel rg sd m)
    end.

(** [obj->obj.pmat_outer ? obj->obj.pmat_outer : srf->side_outer.pmat]:
    the side of the surface record is read only without an override. *)
Definition side_pointer (override : option ptr) (side : option rt_SIDE)
  : rt_ctor (option ptr) :=
  match override with
  | Some m => ret (Some m)
  | None =>
      match side with
      | Some s => ret (pmat s)
      | None => stop (@Fault)
      end
  end.

(** [rt_Surface::rt_Surface] followed by the constructor of the class,
    which reads the bounds or the parameters of the surface record. *)
Definition new_Surface (fuel : nat) (path : rt_path) (o : rt_OBJ)
    (sh : rt_shape) (pobj : option rt_SURFACE) : rt_ctor rt_Instance :=
  fun rg =>
    bind (side_pointer (pmat_outer o) (option_map side_outer pobj))
      (fun mo =>
    bind (new_Material fuel (option_map (fun s => sd (side_outer s)) pobj) mo)
      (fun outer =>
    bind (side_pointer (pmat_inner o) (option_map side_inner pobj))
      (fun mi =>
    bind (new_Material fuel (option_map (fun s => sd (side_inner s)) pobj) mi)
      (fun inner =>
    match pobj with
    | Some _ => ret (I_Surface path sh outer inner)
    | None => stop (@Fault)
    end))))
      (put_srf rg path).

(** [rt_Camera::rt_Camera] and [rt_Light::rt_Light]: the instance is put
    in its list, then the colour of the record is read. *)
Definition new_Camera (path : rt_path) (pobj : option Material.rt_COL)
  : rt_ctor rt_Instance :=
  fun rg =>
    match pobj with
    | Some _ => ret (I_Camera path) (put_cam rg path)
    | None => stop (@Fault) (put_cam rg path)
    end.

Definition new_Light (path : rt_path) (pobj : option Material.rt_COL)
  : rt_ctor rt_Instance :=
  fun rg =>
    match pobj with
    | Some _ => ret (I_Light path) (put_lgt rg path)
    | None => stop (@Fault) (put_lgt rg path)
    end.

(** [obj_arr[j] = ...]: an instance is stored, a record with an unknown
    tag is skipped ([j--; obj_num--]). *)
Definition store (b : option rt_Instance) (bs : list rt_Instance)
  : list rt_Instance :=
  match b with Some x => x :: bs | None => bs end.

(** [switch (arr[i].obj.tag)] with the constructor of the class it
    selects, on the record [arr[i]] at [path].  For an array this is
    [rt_Array::rt_Array]: the array is put in its list, then the loop
    reads [arr[i]] for [i < obj_num] and instantiates it; [arr[i]] is
    outside the literal when [pobj] is null or points to [i] records or
    fewer.  The test [obj == RT_NULL] of [rt_Object::rt_Object] is on
    [&arr[i]], which is not null once [arr[i].obj.tag] has been read. *)
Fixpoint new_object (fuel : nat) (path : rt_path) (obj : rt_OBJECT)
    {struct obj} : rt_ctor (option rt_Instance) :=
  match obj with
  | OBJ_ARRAY _ obj_num pobj =>
      let fix new_all (arr : list rt_OBJECT) (n i : nat) {struct arr}
        : rt_ctor (list rt_Instance) :=
        match n with
        | O => ret []
        | S n' =>
            match arr with
            | [] => stop (@Fault)
            | c :: cs =>
                bind (new_object fuel (path ++ [i]) c) (fun b =>
                bind (new_all cs n' (S i)) (fun bs =>
                ret (store b bs)))
            end
        end in
      fun rg =>
        bind (match pobj with
              | Some arr => new_all arr (Z.to_nat obj_num) 0%nat
              | None =>
                  match Z.to_nat obj_num with
                  | O => ret []
                  | S _ => stop (@Fault)
                  end
              end)
             (fun bs => ret (Some (I_Array path bs)))
             (put_arr rg path)
  | OBJ_SURFACE o sh pobj =>
      bind (new_Surface fuel path o sh pobj) (fun b => ret (Some b))
  | OBJ_CAMERA _ pobj =>
      bind (new_Camera path pobj) (fun b => ret (Some b))
  | OBJ_LIGHT _ pobj =>
      bind (new_Light path pobj) (fun b => ret (Some b))
  | OBJ_UNSUPPORTED _ _ => ret None
  end.



End Instantiate.

End Instantiate.

(** ** Concrete instances used to run the definitions *)

(** Matrices as formal products: the matrix helpers stay uninterpreted. *)
Inductive sym_mat4 : Type :=
| M_iden
| M_from_transform (t : rt_TRANSFORM3D)
| M_mul (a b : sym_mat4).

(** Square root rounded down to a multiple of [1 / den]; exact on
    rationals whose numerator times denominator is a perfect square. *)
Definition Qsqrt_down (q : rt_real) : rt_real :=
  Qmake (Z.sqrt (Qnum q * Zpos (Qden q))) (Qden q).

(** Sine and cosine, exact on the multiples of 90 degrees (and 0
    elsewhere). *)
Definition quarter_turns (a : rt_real) : Z :=
  if Qeq_bool (inject_Z (Qfloor (a / 90)) * 90) a
  then (Qfloor (a / 90)) mod 4 else 4.

Definition sin_right_angles (a : rt_real) : rt_real :=
  match quarter_turns a with
  | 1 => 1%Q
  | 3 => (-(1))%Q
  | _ => 0%Q
  end.

Definition cos_right_angles (a : rt_real) : rt_real :=
  match quarter_turns a with
  | 0 => 1%Q
  | 2 => (-(1))%Q
  | _ => 0%Q
  end.

(** One admissible choice of the header constants: four distinct update
    flag bits, three distinct option bits. *)
Definition example_headers : rt_Headers := {|
  RT_UPDATE_FLAG_OBJ := 1;
  RT_UPDATE_FLAG_ARR := 2;
  RT_UPDATE_FLAG_SCL := 8;
  RT_UPDATE_FLAG_ROT := 16;
  RT_OPTS_FSCALE := 1;
  RT_OPTS_TARRAY := 2;
  RT_OPTS_ADJUST := 4;
  RT_INF := 1000000%Q;
  RT_SQRT := Qsqrt_down;
  RT_SINA := sin_right_angles;
  RT_COSA := cos_right_angles;
  rt_mat4 := sym_mat4;
  matrix_from_transform := M_from_transform;
  matrix_mul_matrix := M_mul
|}.

Definition vec3_of (a b c : Z) : rt_vec3 :=
  mk_vec3 (inject_Z a) (inject_Z b) (inject_Z c).

Definition trm_identity : rt_TRANSFORM3D :=
  mk_trm (vec3_of 1 1 1) (vec3_of 0 0 0) (vec3_of 0 0 0).

(** Rotation by 45 degrees about X, unit scale. *)
Definition trm_rot45 : rt_TRANSFORM3D :=
  mk_trm (vec3_of 1 1 1) (vec3_of 45 0 0) (vec3_of 0 0 0).

(** A freshly constructed object ([rt_Object::rt_Object]): time -1, all
    flags 0, no trnode, no bvnode. *)
Definition fresh_object (H : rt_Headers) (p : ptr) (t : rt_tag)
    (tr : rt_TRANSFORM3D) (m : @rt_mat4 H) : @rt_Object H :=
  mk_Object p t tr None (-1) m 0 0 0 None None None.

(** The root array, rotated by 45 degrees, after its own update with
    the TARRAY option set: it carries both transform flags and is its own
    trnode. *)
Definition example_parent : @rt_Object example_headers :=
  fst (rt_Object_update 2 []
         (fresh_object example_headers 1%nat RT_TAG_ARRAY trm_rot45 M_iden)
         0 M_iden 2).

Definition example_camera : @rt_Object example_headers :=
  fresh_object example_headers 2%nat RT_TAG_CAMERA trm_identity M_iden.

Definition example_plane : @rt_Object example_headers :=
  fresh_object example_headers 3%nat RT_TAG_PLANE trm_identity M_iden.

Definition example_rotated : @rt_Object example_headers :=
  fresh_object example_headers 4%nat RT_TAG_PLANE trm_rot45 M_iden.

(** A surface record whose clipper box is unbounded on all axes, with a
    material on both sides. *)
Definition example_material : rt_MATERIAL := mk_MATERIAL 0.

Definition unbounded_SURFACE : rt_SURFACE :=
  mk_SURFACE (vec3_val1 (- @RT_INF example_headers)%Q)
             (vec3_val1 (@RT_INF example_headers))
             (mk_SIDE (Some example_material))
             (mk_SIDE (Some example_material)).

Definition example_OBJ : rt_OBJ := mk_OBJ trm_identity None None.

(** A camera looking along the axes, turning 180 degrees per 50 time
    units, last updated at time 0. *)
Definition example_cam : @rt_Camera example_headers :=
  mk_Camera
    (@mk_Object example_headers 5%nat RT_TAG_CAMERA trm_identity None 0
       M_iden 0 0 0 None None None)
    (vec3_of 1 1 1) (vec3_of 180 180 0) 0%Q 1%Q 0.

(** The same camera pitched down by 170 degrees, turning 20 degrees per
    50 time units. *)
Definition example_cam_low : @rt_Camera example_headers :=
  mk_Camera
    (@mk_Object example_headers 5%nat RT_TAG_CAMERA
       (mk_trm (vec3_of 1 1 1) (vec3_of (-170) 0 0) (vec3_of 0 0 0))
       None 0 M_iden 0 0 0 None None None)
    (vec3_of 1 1 1) (vec3_of 20 20 0) 0%Q 1%Q 0.

(** A unit sphere at the origin of an untransformed frame, clipped to the
    slab 3/5 <= k <= 4/5. *)
Definition example_sphere : @rt_Surface example_headers :=
  mk_Surface
    (@mk_Object example_headers 11%nat RT_TAG_SPHERE trm_identity None 0
       M_iden 0 0 0 None None None)
    (vec3_of 0 0 0) (SH_SPHERE 1)
    (mk_vec3 (-(1)) (-(1)) (3 # 5))%Q (mk_vec3 1 1 (4 # 5))%Q
    (mk_ivec3 1 1 1) RT_X RT_Y RT_Z
    (vec3_of 0 0 0) (vec3_of 0 0 0) (vec3_of 0 0 0) (vec3_of 0 0 0)
    0 [].

(** Cylinder minus sphere: a cylinder of radius 3/2 and length 9 along K
    whose only custom clipper is the unit sphere at the origin
    (MINUS_OUTER), both untransformed.  [changed] is the [obj_changed]
    flag of the cylinder; its boxes hold the zeros of a fresh object. *)
Definition example_clip_sphere : @rt_Surface example_headers :=
  mk_Surface
    (@mk_Object example_headers 11%nat RT_TAG_SPHERE trm_identity None 0
       M_iden 0 0 0 None None None)
    (vec3_of 0 0 0) (SH_SPHERE 1)
    (vec3_val1 (- @RT_INF example_headers)%Q)
    (vec3_val1 (@RT_INF example_headers))
    (mk_ivec3 1 1 1) RT_X RT_Y RT_Z
    (vec3_of 0 0 0) (vec3_of 0 0 0) (vec3_of 0 0 0) (vec3_of 0 0 0)
    0 [].

Definition example_cylinder (changed : rt_cell)
  : @rt_Surface example_headers :=
  mk_Surface
    (@mk_Object example_headers 10%nat RT_TAG_CYLINDER trm_identity None 0
       M_iden changed 0 0 None None None)
    (vec3_of 0 0 0) (SH_CYLINDER (3 # 2))
    (mk_vec3 (- @RT_INF example_headers) (- @RT_INF example_headers)
             (- (9 # 2)))%Q
    (mk_vec3 (@RT_INF example_headers) (@RT_INF example_headers) (9 # 2))%Q
    (mk_ivec3 1 1 1) RT_X RT_Y RT_Z
    (vec3_of 0 0 0) (vec3_of 0 0 0) (vec3_of 0 0 0) (vec3_of 0 0 0)
    0 [mk_ELEM 100%nat RT_REL_MINUS_OUTER (Some 11%nat) (Some 11%nat)].

Definition example_store : @rt_store example_headers :=
  fun p => if Nat.eqb p 11%nat then example_clip_sphere else example_cylinder 0.

(** Two spheres (21, 22) cached under the rotated array 20, and a plane
    (23) with no trnode. *)
Definition clipper_object (p : ptr) (t : rt_tag) (tr : option ptr)
  : @rt_Object example_headers :=
  @mk_Object example_headers p t trm_identity None 0 M_iden 2 0 16 tr None tr.

Definition example_clipper_a := clipper_object 21%nat RT_TAG_SPHERE (Some 20%nat).
Definition example_clipper_b := clipper_object 22%nat RT_TAG_SPHERE (Some 20%nat).
Definition example_clipper_c := clipper_object 23%nat RT_TAG_PLANE None.


(** The template of the relations
    [{-1, MINUS_OUTER, a}, {-1, MINUS_INNER, c}, {s, MINUS_ACCUM, -1}]
    followed by [{s, MINUS_OUTER, b}], as [rt_Array::update] hands them
    to the surface [s]: leave marker, c, a, enter marker; then b. *)
Definition example_template : list rt_TEMPLATE :=
  [mk_TEMPLATE RT_ACCUM_LEAVE None;
   mk_TEMPLATE RT_REL_MINUS_INNER (Some (Tree example_clipper_c []));
   mk_TEMPLATE RT_REL_MINUS_OUTER (Some (Tree example_clipper_a []));
   mk_TEMPLATE RT_ACCUM_ENTER None].

(** ** Further concrete instances *)

(** A sign macro and values for the VARRAY and UPDATE option bits. *)
Definition example_macros : rt_Macros := {|
  RT_SIGN := fun x => if Qlt_bool x 0 then -1 else 1;
  RT_OPTS_VARRAY := 8;
  RT_OPTS_UPDATE := 16
|}.

(** Formal matrices leave a vector as it is. *)
Definition example_geom : @rt_Geom example_headers := {|
  matrix_mul_vector := fun _ v => v
|}.

Definition example_props : rt_Props := {|
  RT_PROP_TEXTURE := 1;
  RT_PROP_REFLECT := 2;
  RT_PROP_REFRACT := 4;
  RT_PROP_SPECULAR := 8;
  RT_PROP_OPAQUE := 16;
  RT_PROP_TRANSP := 32;
  RT_PROP_LIGHT := 64;
  RT_PROP_NORMAL := 128;
  RT_PROP_METAL := 256;
  RT_U := 0;
  RT_V := 1;
  RT_SIMD_WIDTH := 4
|}.

(** A plane through the origin of an untransformed frame, clipped to
    the square of side 4 around it. *)
Definition example_square : @rt_Surface example_headers :=
  mk_Surface
    (@mk_Object example_headers 12%nat RT_TAG_PLANE trm_identity None 0
       M_iden 0 0 0 None None None)
    (vec3_of 0 0 0) SH_PLANE
    (vec3_of (-2) (-2) 0) (vec3_of 2 2 0)
    (mk_ivec3 1 1 1) RT_X RT_Y RT_Z
    (vec3_of (-2) (-2) 0) (vec3_of 2 2 0)
    (vec3_of (-2) (-2) 0) (vec3_of 2 2 0)
    0 [].

(** The unit sphere with its bounding box, mapped onto the world axes
    Y, Z, X. *)
Definition example_ball : @rt_Surface example_headers :=
  mk_Surface
    (@mk_Object example_headers 13%nat RT_TAG_SPHERE trm_identity None 0
       M_iden 0 0 0 None None None)
    (vec3_of 1 2 3) (SH_SPHERE 1)
    (vec3_of (-1) (-1) (-1)) (vec3_of 1 1 1)
    (mk_ivec3 1 (-1) 1) RT_Y RT_Z RT_X
    (vec3_of (-1) (-1) (-1)) (vec3_of 1 1 1)
    (vec3_of (-1) (-1) (-1)) (vec3_of 1 1 1)
    0 [].

(** An upper corner that is unbounded on Z. *)
Definition example_upper : rt_vec3 :=
  mk_vec3 2%Q 2%Q (@RT_INF example_headers).

Definition origin4 : rt_vec4 := mk_vec4 vzero 0%Q.

(** A shape with room for [n] vertices, all at the origin. *)
Definition example_bound (n : nat) : rt_Bound :=
  mk_Bound (Some (repeat origin4 n)) [] [] vzero 0%Q.

(** A matrix that swaps X and Y, scaling by 2, -3 and 1. *)
Definition example_mat3 : rt_mat3 :=
  mk_mat3 (mk_vec3 0 2 0)%Q (mk_vec3 (-(3)) 0 0)%Q (mk_vec3 0 0 1)%Q.

Definition example_perm (a : axis) : axis :=
  match a with RT_X => RT_Y | RT_Y => RT_X | RT_Z => RT_Z end.

Definition example_axes : rt_axes :=
  mk_axes (mk_map3 RT_X RT_X RT_X) (mk_ivec3 0 0 0) vzero.

(** An array of a plane and a sphere with the relations
    [{0, MINUS_OUTER, 1}, {-1, MINUS_INNER, 0}, {1, MINUS_ACCUM, -1}]. *)
Definition example_array : @rt_Tree example_headers :=
  Tree example_parent
       [Tree example_plane []; Tree example_clipper_a []].

Definition example_relations : list rt_RELATION :=
  [mk_RELATION 0 REL_MINUS_OUTER 1;
   mk_RELATION (-1) REL_MINUS_INNER 0;
   mk_RELATION 1 REL_MINUS_ACCUM (-1)].

(** A material whose texture is to be loaded from a file, and a loader
    that knows a 4 x 4 image. *)
Definition example_image : Material.rt_TEX :=
  Material.mk_TEX 0 (Material.mk_COL 0 (0, 0, 0, 0)%Q) (Material.PNTR_MEM 9%nat)
                  0 None 0 4 4.

Definition example_tex_load : Material.rt_TEX :=
  Material.mk_TEX 0 (Material.mk_COL 0 (0, 0, 0, 0)%Q) (Material.PNTR_MEM 1%nat)
                  0 None 0 0 0.

Definition example_wood : Material.rt_MATERIAL :=
  Material.mk_MATERIAL 0 example_tex_load (1, 0, 0, 0)%Q (0, 0, 1, 0)%Q.

Definition example_cstr (p : Material.rt_pntr) : Material.rt_pstr :=
  "wood"%string.

Definition example_load_image (name : Material.rt_pstr)
  : rt_result Material.rt_TEX :=
  Ok example_image.

Definition example_side : Material.rt_SIDE :=
  Material.mk_SIDE (1, 1)%Q 90%Q (0, 0)%Q.







(** A root array that has not been updated yet. *)
Definition example_root : @rt_Object example_headers :=
  fresh_object example_headers 1%nat RT_TAG_ARRAY trm_identity M_iden.

(** ** Vocabulary of the statements *)

(** Number of table entries equal to [x]. *)
Fixpoint occurrences (x : rt_real) (vals : list rt_real) : Z :=
  match vals with
  | [] => 0
  | s :: vs => (if Qeq_bool x s then 1 else 0) + occurrences x vs
  end.

(** Entries of a table are pairwise different numbers. *)
Fixpoint table_distinct (vals : list rt_real) : bool :=
  match vals with
  | [] => true
  | s :: vs => negb (existsb (Qeq_bool s) vs) && table_distinct vs
  end.

Definition in_table (x : rt_real) (vals : list rt_real) : Prop :=
  exists s, In s vals /\ (x == s)%Q.

(** Every scale component is -1 or +1. *)
Definition scl_trivial (t : rt_TRANSFORM3D) : Prop :=
  in_table (vx (scl t)) scl_table /\ in_table (vy (scl t)) scl_table /\
  in_table (vz (scl t)) scl_table.

(** Every rotation component is a multiple of 90 degrees within
    [-270, +270]. *)
Definition rot_trivial (t : rt_TRANSFORM3D) : Prop :=
  in_table (vx (rot t)) rot_table /\ in_table (vy (rot t)) rot_table /\
  in_table (vz (rot t)) rot_table.

(** Exactly one of three propositions holds. *)
Definition exactly_one (A B C : Prop) : Prop :=
  (A /\ ~ B /\ ~ C) \/ (~ A /\ B /\ ~ C) \/ (~ A /\ ~ B /\ C).

(** The spec's trnode: the nearest object of the chain
    [self, parent, parent->parent, ...] whose own transform flags are
    non-zero, if any. *)
Definition nearest_own_transform `{rt_Headers} (self : rt_Object)
    (parents : list rt_Object) : option ptr :=
  option_map this
    (find (fun x => negb (obj_has_trm x =? 0)) (self :: parents)).

(** The half-open interval (-180, +180] of the data model, and the closed
    interval [-180, +180]. *)
Definition normalized_rot (x : rt_real) : Prop := (-(180) < x /\ x <= 180)%Q.
Definition bounded_rot (x : rt_real) : Prop := (-(180) <= x /\ x <= 180)%Q.

(** The local clipper box of a scene record is unbounded on all axes. *)
Definition all_infinite `{rt_Headers} (srf : rt_SURFACE) : Prop :=
  forall a, (vget (lit_min srf) a == - RT_INF)%Q /\
            (vget (lit_max srf) a == RT_INF)%Q.

(** The spec's reading of [top] in the sphere case: the maximum of
    |smin[k]| and |smax[k]|, truncated to the radius. *)
Definition spec_sphere_top (xrad : rt_real) (smin smax : rt_vec3) (k : axis)
  : rt_real :=
  RT_MIN (RT_MAX (RT_FABS (vget smin k)) (RT_FABS (vget smax k)))
         (RT_FABS xrad).

(** Radius of the sphere's cross-section farthest out within the slab
    [smin[k] .. smax[k]]: [RT_SQRT(RT_MAX(rad * rad - top * top, 0))]. *)
Definition sphere_cross_radius `{rt_Headers} (xrad : rt_real)
    (smin smax : rt_vec3) (k : axis) : rt_real :=
  let top := sphere_top smin smax k in
  RT_SQRT (RT_MAX (xrad * xrad - top * top) 0).

(** *** Vocabulary for update_minmax *)

Section MinmaxVocabulary.

Context `{rt_Headers}.

(** A clipper element that refers to a MINUS_OUTER surface, neither
    plane nor array, sharing the trnode of [s]. *)
Definition outer_clipper (st : rt_store) (s : rt_Surface) (elm : rt_ELEM)
  : bool :=
  match temp elm with
  | None => false
  | Some p =>
      negb (tag_eqb (tag (node (st p))) RT_TAG_ARRAY)
      && negb (tag_eqb (tag (node (st p))) RT_TAG_PLANE)
      && ptr_eqb (trnode (node (st p))) (trnode (node s))
      && (data elm =? RT_REL_MINUS_OUTER)
  end.

(** The outer clippers of a list that lie outside accumulation segments:
    those preceded by an even number of accum markers ([markers] counts
    the markers already passed). *)
Fixpoint qualifying (st : rt_store) (s : rt_Surface) (markers : nat)
    (l : list rt_ELEM) : list rt_ELEM :=
  match l with
  | [] => []
  | elm :: rest =>
      match temp elm with
      | None => qualifying st s (S markers) rest
      | Some _ =>
          if Nat.even markers && outer_clipper st s elm
          then elm :: qualifying st s markers rest
          else qualifying st s markers rest
      end
  end.

(** [skip] of the loops is the parity of the accum markers passed. *)
Definition skip_of (markers : nat) : rt_cell :=
  if Nat.even markers then 0 else 1.

(** One clipper accumulates its adjustment of [bbox] into [cbox]. *)
Definition accumulate (st : rt_store) (bbox cbox : rt_box) (elm : rt_ELEM)
  : rt_box :=
  match temp elm with
  | Some p =>
      match recalc_minmax (st p) (Some bbox) false (Some cbox) with
      | Some (_, Some c) => c
      | _ => cbox
      end
  | None => cbox
  end.

(** The shape-specific [adjust_minmax] applied to the original axis
    clippers, mapped to world space. *)
Definition direct_boxes (s : rt_Surface) : rt_box * rt_box :=
  let r := adjust_minmax s (srf_min s) (srf_max s) true true in
  (direct_box s (or_box (fst r) (bbox_of s)),
   direct_box s (or_box (snd r) (cbox_of s))).

(** The changed status gathered from the surface and its qualifying
    clippers. *)
Definition clippers_changed (st : rt_store) (s : rt_Surface) : rt_cell :=
  fold_left (fun ch elm =>
               match temp elm with
               | Some p => Z.lor ch (obj_changed (node (st p)))
               | None => ch
               end)
            (qualifying st s 0 (clippers s)) (obj_changed (node s)).

(** The three steps of the second path of [update_minmax]: baseline bbox
    from the shape alone, cbox accumulated from the whole space by the
    qualifying clippers, final boxes recomputed from the accumulated
    box. *)
Definition recomputed_boxes (st : rt_store) (s : rt_Surface)
  : rt_box * rt_box :=
  let b1 := fst (direct_boxes s) in
  let c1 := fold_left (accumulate st b1) (qualifying st s 0 (clippers s))
                      infinite_box in
  written_boxes (recalc_minmax s (Some c1) true (Some c1)) b1 c1.

End MinmaxVocabulary.

(** *** Vocabulary for add_relation *)

(** An accum marker that leaves a segment. *)
Definition is_leave (e : rt_ELEM) : Prop :=
  temp e = None /\ data e = RT_ACCUM_LEAVE.

(** The part of a custom clippers list, from its head, that belongs to
    the current context when looking for the element of the trnode [tn]:
    clippers and elements of other trnodes, whole accumulation segments
    (an enter marker, elements none of which is a leave marker, a leave
    marker) and stray markers; it holds no element of [tn] outside a
    segment and no unmatched leave marker (which would close the
    accumulation segment currently being built). *)
Inductive open_prefix (tn : ptr) : list rt_ELEM -> Prop :=
| open_nil : open_prefix tn []
| open_clipper e p :
    temp e <> None -> temp e <> Some tn ->
    open_prefix tn p -> open_prefix tn (e :: p)
| open_segment e body e' p :
    temp e = None -> data e = RT_ACCUM_ENTER ->
    Forall (fun x => ~ is_leave x) body ->
    is_leave e' ->
    open_prefix tn p -> open_prefix tn (e :: body ++ e' :: p)
| open_other e p :
    temp e = None -> data e <> RT_ACCUM_ENTER -> data e <> RT_ACCUM_LEAVE ->
    open_prefix tn p -> open_prefix tn (e :: p).

(** The list holds an element of the trnode [tn] in the current context:
    within the accumulation segment being built or outside any
    accumulation segment. *)
Definition has_trnode_elem (tn : ptr) (l : list rt_ELEM) : Prop :=
  exists pre m post,
    l = pre ++ m :: post /\ open_prefix tn pre /\ temp m = Some tn.

(** [trn p] is the trnode of the surface at [p] when it has one other
    than itself.  [grouped trn l]: every clipper element of [l] whose
    surface has such a trnode comes after an element of that trnode, with
    nothing but clippers of the same trnode in between. *)
Definition same_trnode_clipper (trn : ptr -> option ptr) (tn : ptr)
    (x : rt_ELEM) : Prop :=
  exists q, temp x = Some q /\ trn q = Some tn.

Definition grouped (trn : ptr -> option ptr) (l : list rt_ELEM) : Prop :=
  forall pre e post p tn,
    l = pre ++ e :: post -> temp e = Some p -> trn p = Some tn ->
    exists pre' m mid,
      pre = pre' ++ m :: mid /\ temp m = Some tn /\
      Forall (same_trnode_clipper trn tn) mid.

(** The trnode of an object when it has one other than itself. *)
Definition foreign_trnode `{rt_Headers} (o : rt_Object) : option ptr :=
  match trnode o with
  | Some tn => if Nat.eqb tn (this o) then None else Some tn
  | None => None
  end.

(** [trn] records the trnodes of the surfaces of a hierarchy, and a
    trnode has no trnode other than itself. *)
Fixpoint tree_consistent `{rt_Headers} (trn : ptr -> option ptr)
    (t : rt_Tree) : Prop :=
  match t with
  | Tree o children =>
      (RT_IS_SURFACE (tag o) = true ->
       trn (this o) = foreign_trnode o /\
       forall tn, foreign_trnode o = Some tn -> trn tn = None) /\
      (fix all (l : list rt_Tree) : Prop :=
         match l with
         | [] => True
         | c :: r => tree_consistent trn c /\ all r
         end) children
  end.

Definition template_consistent `{rt_Headers} (trn : ptr -> option ptr)
    (e : rt_TEMPLATE) : Prop :=
  match t_temp e with
  | Some t => tree_consistent trn t
  | None => True
  end.

(** *** Vocabulary for boxes *)

Section BoxVocabulary.

Context `{rt_Headers}.

(** Component-wise order and equality of vectors (as rationals). *)
Definition vec3_le (a b : rt_vec3) : Prop :=
  forall x, (vget a x <= vget b x)%Q.

Definition vec3_eq (a b : rt_vec3) : Prop :=
  forall x, (vget a x == vget b x)%Q.

(** [box_within inner outer]: the lower corner of [inner] is not below
    that of [outer] and its upper corner not above. *)
Definition box_within (inner outer : rt_box) : Prop :=
  vec3_le (fst outer) (fst inner) /\ vec3_le (snd inner) (snd outer).

Definition box_eq (a b : rt_box) : Prop :=
  vec3_eq (fst a) (fst b) /\ vec3_eq (snd a) (snd b).

(** The axis mapping of a surface sends I, J, K to three different
    world axes. *)
Definition axis_map_injective (s : rt_Surface) : Prop :=
  mp_i s <> mp_j s /\ mp_i s <> mp_k s /\ mp_j s <> mp_k s.

(** All bounds of a box lie between the two infinities. *)
Definition in_range (smin smax : rt_vec3) : Prop :=
  forall a, (- RT_INF <= vget smin a)%Q /\ (vget smax a <= RT_INF)%Q.

(** The bbox and the cbox the virtual [adjust_minmax] writes when both
    are requested. *)
Definition adjusted_bbox (s : rt_Surface) (smin smax : rt_vec3) : rt_box :=
  or_box (fst (adjust_minmax s smin smax true true)) (smin, smax).

Definition adjusted_cbox (s : rt_Surface) (smin smax : rt_vec3) : rt_box :=
  or_box (snd (adjust_minmax s smin smax true true)) (smin, smax).

(** The axis a plane flattens: K of a plane, none of any other shape. *)
Definition flattened (sh : rt_shape) (a : axis) : bool :=
  match sh, a with
  | SH_PLANE, RT_Z => true
  | _, _ => false
  end.

End BoxVocabulary.

(** *** Vocabulary for camera actions *)

(** The action that undoes a movement. *)
Definition opposite_move (a : camera_action) : option camera_action :=
  match a with
  | RT_CAMERA_MOVE_UP => Some RT_CAMERA_MOVE_DOWN
  | RT_CAMERA_MOVE_DOWN => Some RT_CAMERA_MOVE_UP
  | RT_CAMERA_MOVE_LEFT => Some RT_CAMERA_MOVE_RIGHT
  | RT_CAMERA_MOVE_RIGHT => Some RT_CAMERA_MOVE_LEFT
  | RT_CAMERA_MOVE_BACK => Some RT_CAMERA_MOVE_FORWARD
  | RT_CAMERA_MOVE_FORWARD => Some RT_CAMERA_MOVE_BACK
  | _ => None
  end.

Definition is_move (a : camera_action) : bool :=
  match opposite_move a with Some _ => true | None => false end.

Definition is_rotate (a : camera_action) : bool :=
  match a with
  | RT_CAMERA_ROTATE_LEFT | RT_CAMERA_ROTATE_RIGHT
  | RT_CAMERA_ROTATE_UP | RT_CAMERA_ROTATE_DOWN => true
  | _ => false
  end.

(** The pitch of a camera (rotation about X) lies between straight down
    and level. *)
Definition pitch_range (x : rt_real) : Prop := (-(180) <= x /\ x <= 0)%Q.

Definition cam_pos `{rt_Headers} (c : rt_Camera) : rt_vec3 :=
  pos (trm (cam_obj c)).

(** *** Vocabulary for the instantiation of a scene literal *)

Section InstantiateVocabulary.

Import Instantiate.



(** The material pointer a side ends up with: the override of the
    object record, else the pointer of the side. *)
Definition side_material_pointer (override side : option ptr) : option ptr :=
  match override with
  | Some m => Some m
  | None => side
  end.

Definition is_null {A : Type} (p : option A) : bool :=
  match p with None => true | Some _ => false end.

(** The constructors meet a null pointer in the literal: a null [pobj]
    of a surface, a camera, a light or an array with [obj_num > 0], an
    array that holds fewer than [obj_num] records, or a surface whose
    side ends up without a material.  Records beyond [obj_num] are not
    looked at. *)
Fixpoint null_pointer (obj : rt_OBJECT) : bool :=
  match obj with
  | OBJ_ARRAY _ obj_num pobj =>
      let fix scan (arr : list rt_OBJECT) (n : nat) {struct arr} : bool :=
        match n with
        | O => false
        | S n' =>
            match arr with
            | [] => true
            | c :: cs => null_pointer c || scan cs n'
            end
        end in
      match pobj with
      | Some arr => scan arr (Z.to_nat obj_num)
      | None => negb (Nat.eqb (Z.to_nat obj_num) 0)
      end
  | OBJ_SURFACE o _ pobj =>
      match pobj with
      | Some srf =>
          is_null (side_material_pointer (pmat_outer o)
                                         (pmat (side_outer srf)))
          || is_null (side_material_pointer (pmat_inner o)
                                            (pmat (side_inner srf)))
      | None => true
      end
  | OBJ_CAMERA _ pobj | OBJ_LIGHT _ pobj => is_null pobj
  | OBJ_UNSUPPORTED _ _ => false
  end.

(** The loop of [rt_Array::rt_Array] over the first [n] records of
    [arr], the first of them at index [i]. *)
Fixpoint new_all `{rt_Headers} `{rt_Macros} `{rt_Props}
    (cstr : Material.rt_pntr -> Material.rt_pstr)
    (load_image : Material.rt_pstr -> rt_result Material.rt_TEX)
    (tex0 otx0 : Material.rt_TEX) (map0 sgn0 : rt_cell * rt_cell)
    (fuel : nat) (path : rt_path) (arr : list rt_OBJECT) (n i : nat)
  : rt_ctor (list rt_Instance) :=
  match n with
  | O => ret []
  | S n' =>
      match arr with
      | [] => stop (@Fault)
      | c :: cs =>
          bind (new_object cstr load_image tex0 otx0 map0 sgn0 fuel
                           (path ++ [i]) c) (fun b =>
          bind (new_all cstr load_image tex0 otx0 map0 sgn0 fuel path
                        cs n' (S i)) (fun bs =>
          ret (store b bs)))
      end
  end.

Fixpoint scan (arr : list rt_OBJECT) (n : nat) : bool :=
  match n with
  | O => false
  | S n' =>
      match arr with
      | [] => true
      | c :: cs => null_pointer c || scan cs n'
      end
  end.



End InstantiateVocabulary.

(** *** Vocabulary for lists of elements and trees of objects *)

(** [subseq l l']: [l'] holds the elements of [l] in the same order,
    possibly with other elements in between. *)
Inductive subseq {A : Type} : list A -> list A -> Prop :=
| subseq_nil : subseq [] []
| subseq_keep x l l' : subseq l l' -> subseq (x :: l) (x :: l')
| subseq_skip x l l' : subseq l l' -> subseq l (x :: l').

(** The objects of a hierarchy, the node first and then its sub-objects
    in order. *)
Fixpoint tree_objects `{rt_Headers} (t : rt_Tree) : list rt_Object :=
  match t with
  | Tree o children => o :: flat_map tree_objects children
  end.

(** The surfaces a template element stands for: the object itself, or
    the surfaces below it when it is an array (as [add_relation]
    expands it). *)
Fixpoint tree_surfaces `{rt_Headers} (t : rt_Tree) : nat :=
  match t with
  | Tree o children =>
      if RT_IS_ARRAY (tag o)
      then fold_right (fun c n => (tree_surfaces c + n)%nat) 0%nat children
      else if RT_IS_SURFACE (tag o) then 1%nat else 0%nat
  end.

Definition template_elements `{rt_Headers} (lst : list rt_TEMPLATE) : nat :=
  fold_right
    (fun e n =>
       (match t_temp e with
        | Some t => tree_surfaces t
        | None => 1
        end + n)%nat)
    0%nat lst.

(** *** Vocabulary for materials *)

Section MaterialVocabulary.

Import Material.

(** The registry's list after a step: unchanged, or one texture put in
    front whose name the list did not hold. *)
Definition registry_step (rg rg' : list rt_Texture) : Prop :=
  rg' = rg \/
  exists t, rg' = t :: rg /\ ~ In (t_name t) (List.map t_name rg).

(** No two textures of the list carry the same name. *)
Definition unique_names (rg : list rt_Texture) : Prop :=
  NoDup (List.map t_name rg).

(** The two ways both rows of a texture matrix match: U, V in order or
    swapped. *)
Definition axes_permuted (map : rt_cell * rt_cell) : Prop :=
  map = (0, 1) \/ map = (1, 0).

End MaterialVocabulary.

(** *** Vocabulary for axis mappings *)

Section NodeVocabulary.

Context `{rt_Macros}.

(** The row [r] is a non-zero multiple of the basis vector of axis
    [j]: zero everywhere but in column [j]. *)
Definition basis_row (r : rt_vec3) (j : axis) : Prop :=
  forall c, (vget r c == 0)%Q <-> c <> j.

(** The row matches none of the three basis patterns (it is zero, or
    has more than one non-zero entry). *)
Definition no_basis_row (r : rt_vec3) : Prop :=
  forall j, same_pattern r (mrow iden4 j) = false.

(** Every row [i] of [m] is a non-zero multiple of the basis vector of
    axis [p i]. *)
Definition axis_aligned (m : rt_mat3) (p : axis -> axis) : Prop :=
  forall i, basis_row (mrow m i) (p i).

Definition injective (p : axis -> axis) : Prop :=
  forall i i', p i = p i' -> i = i'.

(** Entry (i, c) of the product of two matrices. *)
Definition mmul_entry (a b : rt_mat3) (i c : axis) : rt_real :=
  (mget a i RT_X * mget b RT_X c + mget a i RT_Y * mget b RT_Y c
   + mget a i RT_Z * mget b RT_Z c)%Q.

(** The inner loop of [rt_Node::update] for row [i]. *)
Definition row_steps (m : rt_mat3) (i : axis) (ax : rt_axes) : rt_axes :=
  fold_left (axis_step m i) all_axes ax.

(** The entries of an axis mapping that belong to row [i]. *)
Definition axes_at (ax : rt_axes) (i : axis) : axis * rt_cell * rt_real :=
  (aget (a_map ax) i, iget (a_sgn ax) i, vget (a_scl ax) i).

End NodeVocabulary.

(** *** Vocabulary for the relations of an array *)

Section RelVocabulary.

Context `{rt_Headers} `{rt_Macros}.

(** A template element for a clipper: MINUS_INNER or MINUS_OUTER of an
    object. *)
Definition clipper_template (e : rt_TEMPLATE) : Prop :=
  (t_data e = RT_REL_MINUS_INNER \/ t_data e = RT_REL_MINUS_OUTER) /\
  t_temp e <> None.

(** The two shapes of a template handed to [add_relation]: one clipper,
    or an accumulation segment as the list is linked: the leave marker,
    the clippers (last added first, at least one), the enter marker. *)
Definition template_shape (l : list rt_TEMPLATE) : Prop :=
  (exists c, l = [c] /\ clipper_template c) \/
  (exists cs, cs <> [] /\ Forall clipper_template cs /\
              l = marker RT_ACCUM_LEAVE :: cs ++ [marker RT_ACCUM_ENTER]).

(** The pending template between two iterations: empty outside a
    segment, an enter marker below at least one clipper inside. *)
Definition pending_shape (st : rel_state) : Prop :=
  (rs_acc st = 0 /\ rs_lst st = []) \/
  (rs_acc st = 1 /\
   exists cs, cs <> [] /\ Forall clipper_template cs /\
              rs_lst st = cs ++ [marker RT_ACCUM_ENTER]).

Definition call_shape (c : rel_call) : Prop :=
  match c with
  | Call_add_relation _ l => template_shape l
  | Call_update_bvnode _ arr _ => RT_IS_ARRAY (tag (tree_obj arr)) = true
  end.

End RelVocabulary.

(** *** Vocabulary for repeated updates *)

Section UpdateVocabulary.

Context `{rt_Headers}.







End UpdateVocabulary.

(** *** Vocabulary for the bounding polyhedron *)

Section VertsVocabulary.

Context `{rt_Geom}.

(** The coordinates of vertex [i] of a vertex array. *)
Definition vertex (verts : list rt_vec4) (i : Z) : rt_vec3 :=
  v_xyz (nth (Z.to_nat i) verts (mk_vec4 vzero 0%Q)).

(** The edge [e] runs along the axis labelled [k] from one bound of the
    box to the other: its two ends agree on the two other axes. *)
Definition edge_along (s : rt_Surface) (verts : list rt_vec4)
    (e : rt_EDGE) (k : rt_cell) : Prop :=
  exists ax,
    k = axis_index ax /\
    (forall a, a <> ax ->
       vget (vertex verts (fst e)) a = vget (vertex verts (snd e)) a) /\
    ((vget (vertex verts (fst e)) ax = vget (bmin s) ax /\
      vget (vertex verts (snd e)) ax = vget (bmax s) ax) \/
     (vget (vertex verts (fst e)) ax = vget (bmax s) ax /\
      vget (vertex verts (snd e)) ax = vget (bmin s) ax)).

(** The face [f] lies across the axis labelled [k] (its four vertices
    share one bound on it) and spans the two other axes, labelled [i]
    and [j]. *)
Definition face_across (s : rt_Surface) (verts : list rt_vec4)
    (f : rt_FACE) (kij : rt_cell * rt_cell * rt_cell) : Prop :=
  let '(a, b, c, d) := f in
  let '(k, i, j) := kij in
  exists ak ai aj,
    k = axis_index ak /\ i = axis_index ai /\ j = axis_index aj /\
    ak <> ai /\ ak <> aj /\ ai <> aj /\
    exists x,
      (x = vget (bmin s) ak \/ x = vget (bmax s) ak) /\
      vget (vertex verts a) ak = x /\ vget (vertex verts b) ak = x /\
      vget (vertex verts c) ak = x /\ vget (vertex verts d) ak = x.

End VertsVocabulary.

(** * Decided comparisons on rationals *)

Lemma Qle_bool_false (a b : Q) : Qle_bool a b = false <-> (b < a)%Q.
Proof.
  split.
  - intro Hf. apply Qnot_le_lt. intro Hle.
    apply Qle_bool_iff in Hle. congruence.
  - intro Hlt. destruct (Qle_bool a b) eqn:E; [|reflexivity].
    apply Qle_bool_iff in E. exfalso. apply (Qlt_not_le _ _ Hlt E).
Qed.

Lemma Qgt_bool_true (a b : Q) : Qgt_bool a b = true <-> (b < a)%Q.
Proof. unfold Qgt_bool. rewrite negb_true_iff. apply Qle_bool_false. Qed.

Lemma Qgt_bool_false (a b : Q) : Qgt_bool a b = false <-> (a <= b)%Q.
Proof. unfold Qgt_bool. rewrite negb_false_iff. apply Qle_bool_iff. Qed.

Lemma Qlt_bool_true (a b : Q) : Qlt_bool a b = true <-> (a < b)%Q.
Proof. unfold Qlt_bool. rewrite negb_true_iff. apply Qle_bool_false. Qed.

Lemma Qlt_bool_false (a b : Q) : Qlt_bool a b = false <-> (b <= a)%Q.
Proof. unfold Qlt_bool. rewrite negb_false_iff. apply Qle_bool_iff. Qed.

(** Turn every decided comparison of the goal into a hypothesis. *)
Ltac split_cmp :=
  repeat match goal with
  | |- context [Qle_bool ?a ?b] =>
      let E := fresh "E" in
      destruct (Qle_bool a b) eqn:E;
      [apply Qle_bool_iff in E | apply Qle_bool_false in E]
  | |- context [Qlt_bool ?a ?b] =>
      let E := fresh "E" in
      destruct (Qlt_bool a b) eqn:E;
      [apply Qlt_bool_true in E | apply Qlt_bool_false in E]
  | |- context [Qgt_bool ?a ?b] =>
      let E := fresh "E" in
      destruct (Qgt_bool a b) eqn:E;
      [apply Qgt_bool_true in E | apply Qgt_bool_false in E]
  end.


(** * Properties of the matching loops *)

Section CountMatches.

Lemma count_matches_acc (v : rt_vec3) (vals : list rt_real) (c : Z) :
  fold_left
    (fun c s =>
       let c1 := if Qeq_bool (vx v) s then c + 1 else c in
       let c2 := if Qeq_bool (vy v) s then c1 + 1 else c1 in
       if Qeq_bool (vz v) s then c2 + 1 else c2)
    vals c
  = c + occurrences (vx v) vals + occurrences (vy v) vals
      + occurrences (vz v) vals.
Proof.
  revert c; induction vals as [|s vs IH]; intro c; simpl.
  - lia.
  - rewrite IH.
    destruct (Qeq_bool (vx v) s), (Qeq_bool (vy v) s), (Qeq_bool (vz v) s);
      lia.
Qed.

Lemma count_matches_occurrences (v : rt_vec3) (vals : list rt_real) :
  count_matches v vals
  = occurrences (vx v) vals + occurrences (vy v) vals
    + occurrences (vz v) vals.
Proof. unfold count_matches. rewrite count_matches_acc. lia. Qed.

Lemma occurrences_nonneg x vals : 0 <= occurrences x vals.
Proof.
  induction vals as [|s vs IH]; simpl; [lia|].
  destruct (Qeq_bool x s); lia.
Qed.

Lemma occurrences_pos x vals :
  occurrences x vals <> 0 <-> in_table x vals.
Proof.
  induction vals as [|s vs IH]; simpl.
  - split; [congruence | intros (s & [] & _)].
  - pose proof (occurrences_nonneg x vs) as Hn.
    destruct (Qeq_bool x s) eqn:E.
    + apply Qeq_bool_iff in E. split; [|lia].
      intros _. exists s. split; [now left | exact E].
    + split.
      * intro Hz. destruct IH as [IH _].
        destruct IH as (s' & Hin & Heq); [lia|].
        exists s'. split; [now right | exact Heq].
      * intros (s' & [-> | Hin] & Heq).
        -- apply Qeq_bool_iff in Heq. congruence.
        -- simpl. apply IH. now exists s'.
Qed.

Lemma occurrences_distinct x vals :
  table_distinct vals = true ->
  occurrences x vals = 0 \/ occurrences x vals = 1.
Proof.
  induction vals as [|s vs IH]; simpl; [now left|].
  intro Hd. apply andb_true_iff in Hd as [Hs Hvs].
  destruct (Qeq_bool x s) eqn:E.
  - right. apply Qeq_bool_iff in E.
    destruct (Z.eq_dec (occurrences x vs) 0) as [-> | Hne]; [reflexivity|].
    apply occurrences_pos in Hne as (s' & Hin & Heq).
    apply negb_true_iff in Hs.
    assert (existsb (Qeq_bool s) vs = true); [|congruence].
    apply existsb_exists. exists s'. split; [exact Hin|].
    apply Qeq_bool_iff. rewrite <- E. exact Heq.
  - destruct (IH Hvs); [left | right]; lia.
Qed.

Lemma count_matches_three (v : rt_vec3) (vals : list rt_real) :
  table_distinct vals = true ->
  (count_matches v vals = 3 <->
   in_table (vx v) vals /\ in_table (vy v) vals /\ in_table (vz v) vals).
Proof.
  intro Hd. rewrite count_matches_occurrences.
  pose proof (occurrences_distinct (vx v) vals Hd) as Hx.
  pose proof (occurrences_distinct (vy v) vals Hd) as Hy.
  pose proof (occurrences_distinct (vz v) vals Hd) as Hz.
  rewrite <- !occurrences_pos. lia.
Qed.

End CountMatches.

(** * rt_Object::update: transform flags *)

Section ObjectFlags.

Context `{rt_Headers}.

Lemma scl_count_trivial (t : rt_TRANSFORM3D) :
  count_matches (scl t) scl_table = 3 <-> scl_trivial t.
Proof. apply count_matches_three. reflexivity. Qed.

Lemma rot_count_trivial (t : rt_TRANSFORM3D) :
  count_matches (rot t) rot_table = 3 <-> rot_trivial t.
Proof. apply count_matches_three. reflexivity. Qed.

Lemma own_trm_flags_cases (t : rt_TRANSFORM3D) :
  own_trm_flags t =
  Z.lor (if count_matches (scl t) scl_table =? 3
         then 0 else RT_UPDATE_FLAG_SCL)
        (if count_matches (rot t) rot_table =? 3
         then 0 else RT_UPDATE_FLAG_ROT).
Proof. unfold own_trm_flags. now rewrite Z.lor_0_l. Qed.

Lemma own_trm_flags_scl (t : rt_TRANSFORM3D) :
  trm_flags_distinct ->
  (Z.land (own_trm_flags t) RT_UPDATE_FLAG_SCL <> 0 <-> ~ scl_trivial t).
Proof.
  intros (Hs & Hr & Hd). rewrite own_trm_flags_cases, <- scl_count_trivial.
  rewrite Z.land_lor_distr_l.
  destruct (Z.eqb_spec (count_matches (scl t) scl_table) 3) as [e|e];
    destruct (count_matches (rot t) rot_table =? 3);
    rewrite ?Z.land_0_l, ?Z.land_diag, ?Z.lor_0_l, ?Z.lor_0_r;
    rewrite ?(Z.land_comm RT_UPDATE_FLAG_ROT), ?Hd, ?Z.lor_0_r; tauto.
Qed.

Lemma own_trm_flags_rot (t : rt_TRANSFORM3D) :
  trm_flags_distinct ->
  (Z.land (own_trm_flags t) RT_UPDATE_FLAG_ROT <> 0 <-> ~ rot_trivial t).
Proof.
  intros (Hs & Hr & Hd). rewrite own_trm_flags_cases, <- rot_count_trivial.
  rewrite Z.land_lor_distr_l.
  destruct (count_matches (scl t) scl_table =? 3);
    destruct (Z.eqb_spec (count_matches (rot t) rot_table) 3) as [e|e];
    rewrite ?Z.land_0_l, ?Z.land_diag, ?Z.lor_0_l, ?Z.lor_0_r;
    rewrite ?Hd, ?Z.lor_0_l; tauto.
Qed.

Lemma own_trm_flags_zero (t : rt_TRANSFORM3D) :
  trm_flags_distinct ->
  (own_trm_flags t = 0 <-> scl_trivial t /\ rot_trivial t).
Proof.
  intros (Hs & Hr & Hd).
  rewrite own_trm_flags_cases, <- scl_count_trivial, <- rot_count_trivial.
  destruct (Z.eqb_spec (count_matches (scl t) scl_table) 3) as [e|e];
    destruct (Z.eqb_spec (count_matches (rot t) rot_table) 3) as [e'|e'];
    rewrite ?Z.lor_0_l, ?Z.lor_0_r; try tauto.
  split; [intro Hz | tauto].
  apply Z.lor_eq_0_iff in Hz. tauto.
Qed.

(** The transform and the flag word an object updated as changed ends
    up with. *)
Lemma rt_Object_update_changed opts parents o time_ mtx_ flags :
  let o' := fst (rt_Object_update opts parents o time_ mtx_ flags) in
  obj_changed o' <> 0 ->
  obj_has_trm o' = promote_trm_flags opts (own_trm_flags (trm o')).
Proof.
  unfold rt_Object_update.
  destruct (f_anim o) as [f|]; [destruct (negb (time o =? time_))|];
    cbv zeta; cbn [fst];
    match goal with
    | |- context [if ?c =? 0 then _ else _] =>
        destruct (Z.eqb_spec c 0) as [e|e]
    end; cbn; try congruence;
    repeat match goal with
    | |- context [match ?x with _ => _ end] => destruct x; cbn
    end; intros; reflexivity.
Qed.

End ObjectFlags.

(** * rt_Object::update: trnode, bvnode, repeated updates *)

Section ObjectUpdate.

Context `{rt_Headers}.

(** Case analysis on the three tests that open [rt_Object::update]. *)
Ltac update_cases o time_ :=
  unfold rt_Object_update;
  destruct (f_anim o) as [?f|];
  [destruct (Z.eqb_spec (time o) time_) as [?Ht|?Ht]|];
  cbv beta iota zeta; cbn [fst snd negb]; cbv beta iota zeta;
  match goal with
  | |- context [if ?c =? 0 then _ else _] =>
      destruct (Z.eqb_spec c 0) as [?Hc|?Hc]
  end; cbn [fst snd].

Lemma find_trnode_find (parents : list rt_Object) :
  find_trnode parents = find (fun x => negb (obj_has_trm x =? 0)) parents.
Proof.
  induction parents as [|p ps IH]; simpl; [reflexivity|].
  destruct (obj_has_trm p =? 0); simpl; [exact IH | reflexivity].
Qed.

Lemma find_trnode_In (parents : list rt_Object) (p : rt_Object) :
  find_trnode parents = Some p -> In p parents /\ obj_has_trm p <> 0.
Proof.
  rewrite find_trnode_find. intro Hf. apply find_some in Hf as [Hin Hb].
  split; [exact Hin|]. apply negb_true_iff in Hb. now apply Z.eqb_neq.
Qed.

(** The nearest ancestor with a transform of its own: every ancestor
    before it in the chain has none. *)
Lemma find_trnode_nearest (parents : list rt_Object) (p : rt_Object) :
  find_trnode parents = Some p ->
  exists near far,
    parents = near ++ p :: far /\ obj_has_trm p <> 0 /\
    Forall (fun a => obj_has_trm a = 0) near.
Proof.
  induction parents as [|a ps IH]; simpl; [discriminate|].
  destruct (Z.eqb_spec (obj_has_trm a) 0) as [e|e].
  - intro Hf. destruct (IH Hf) as (near & far & -> & Hp & Hall).
    exists (a :: near), far. repeat split; auto.
  - intros [= <-]. exists [], ps. repeat split; auto.
Qed.

Lemma find_trnode_none (parents : list rt_Object) :
  find_trnode parents = None ->
  Forall (fun a => obj_has_trm a = 0) parents.
Proof.
  induction parents as [|a ps IH]; simpl; [constructor|].
  destruct (Z.eqb_spec (obj_has_trm a) 0) as [e|e]; [|discriminate].
  intro Hf. constructor; auto.
Qed.

(** The trnode pointer left by an update of a changed object. *)
Lemma rt_Object_update_trnode opts parents o time_ mtx_ flags :
  let o' := fst (rt_Object_update opts parents o time_ mtx_ flags) in
  obj_changed o' <> 0 ->
  this o' = this o /\
  trb_trnode o' = trnode o' /\
  trnode o' =
    match (if negb (obj_has_trm o' =? 0) then Some (this o)
           else option_map this (find_trnode parents)) with
    | Some tp =>
        if negb (Nat.eqb tp (this o))
           && ((Z.land opts RT_OPTS_TARRAY =? 0)
               || tag_above_SURFACE_MAX (tag o))
        then Some (this o) else Some tp
    | None => None
    end.
Proof.
  update_cases o time_; cbn; try congruence; intros _;
    match goal with
    | |- context [promote_trm_flags ?a ?b] =>
        destruct (promote_trm_flags a b =? 0) eqn:Eh
    end;
    destruct (Z.land opts RT_OPTS_TARRAY =? 0) eqn:Et;
    destruct (tag_above_SURFACE_MAX (tag o)) eqn:Eg;
    (destruct (find_trnode parents) as [t|];
     [destruct (Nat.eqb (this t) (this o)) eqn:En|]);
    cbn; rewrite ?Eh, ?Et, ?Eg, ?En, ?Nat.eqb_refl; cbn;
    rewrite ?Eh, ?Et, ?Eg, ?En, ?Nat.eqb_refl; cbn;
    rewrite ?Eh, ?Et, ?Eg, ?En, ?Nat.eqb_refl; cbn; auto.
Qed.

End ObjectUpdate.

(** * Claims about rt_Object::update and update_bvnode *)

Section ObjectClaims.

Context `{rt_Headers}.

(** C5 (amended).  For an object updated as changed, with the transform
    left by the update: when the FSCALE option bit is set, the SCL flag of
    [obj_has_trm] is set iff some scale component is outside {-1,+1} and
    the ROT flag is set iff some rotation component is outside
    {-270,...,+270}; when the FSCALE bit is clear, [obj_has_trm] is zero
    for a trivial transform and is SCL|ROT as soon as the scale or the
    rotation is non-trivial. *)
Theorem obj_has_trm_flags opts parents o time_ mtx_ flags :
  trm_flags_distinct ->
  let o' := fst (rt_Object_update opts parents o time_ mtx_ flags) in
  obj_changed o' <> 0 ->
  (Z.land opts RT_OPTS_FSCALE <> 0 ->
   (Z.land (obj_has_trm o') RT_UPDATE_FLAG_SCL <> 0
    <-> ~ scl_trivial (trm o')) /\
   (Z.land (obj_has_trm o') RT_UPDATE_FLAG_ROT <> 0
    <-> ~ rot_trivial (trm o'))) /\
  (Z.land opts RT_OPTS_FSCALE = 0 ->
   (scl_trivial (trm o') /\ rot_trivial (trm o') -> obj_has_trm o' = 0) /\
   (~ (scl_trivial (trm o') /\ rot_trivial (trm o')) ->
    obj_has_trm o' = Z.lor RT_UPDATE_FLAG_SCL RT_UPDATE_FLAG_ROT)).
Proof.
  intros Hd o' Hch.
  pose proof (rt_Object_update_changed opts parents o time_ mtx_ flags Hch)
    as Hhas.
  fold o' in Hhas. rewrite Hhas. unfold promote_trm_flags.
  pose proof (own_trm_flags_zero (trm o') Hd) as Hz.
  split.
  - intro Hf. apply Z.eqb_neq in Hf. rewrite Hf, andb_false_r.
    split; [now apply own_trm_flags_scl | now apply own_trm_flags_rot].
  - intro Hf. apply Z.eqb_eq in Hf. rewrite Hf, andb_true_r.
    destruct (Z.eqb_spec (own_trm_flags (trm o')) 0) as [e|e]; cbn.
    + split; [intros _; exact e | intro Hn; tauto].
    + split; [intro Ht; tauto | reflexivity].
Qed.

(** Whatever the FSCALE bit, the flag word of a changed object is
    non-zero exactly when its own transform is not trivial. *)
Lemma obj_has_trm_nontrivial opts parents o time_ mtx_ flags :
  trm_flags_distinct ->
  let o' := fst (rt_Object_update opts parents o time_ mtx_ flags) in
  obj_changed o' <> 0 ->
  (obj_has_trm o' <> 0 <-> ~ (scl_trivial (trm o') /\ rot_trivial (trm o'))).
Proof.
  intros Hd o' Hch.
  pose proof (rt_Object_update_changed opts parents o time_ mtx_ flags Hch)
    as Hhas.
  fold o' in Hhas. rewrite Hhas. unfold promote_trm_flags.
  rewrite <- (own_trm_flags_zero (trm o') Hd).
  destruct Hd as (Hs & _ & _).
  destruct (Z.eqb_spec (own_trm_flags (trm o')) 0) as [e|e]; cbn [negb andb].
  - tauto.
  - destruct (Z.land opts RT_OPTS_FSCALE =? 0); [|tauto].
    split; [tauto | intros _ Hz].
    apply Z.lor_eq_0_iff in Hz. tauto.
Qed.

(** C1 (amended).  After [rt_Object::update] of a changed object in a
    tree (the object is not among its own ancestors), exactly one of:
    trnode is the object itself, trnode is a strict ancestor, trnode is
    null.  With transform caching in force for the object (TARRAY bit set
    and the object a surface or an array) trnode is the nearest
    ancestor-or-self whose own transform flags are non-zero; otherwise
    (TARRAY clear, or a camera or light) trnode is the object itself as
    soon as such an ancestor-or-self exists, and null when none does. *)
Theorem trnode_after_update opts parents o time_ mtx_ flags :
  ~ In (this o) (map this parents) ->
  let o' := fst (rt_Object_update opts parents o time_ mtx_ flags) in
  obj_changed o' <> 0 ->
  exactly_one (trnode o' = Some (this o))
              (exists p, In p parents /\ trnode o' = Some (this p))
              (trnode o' = None) /\
  (Z.land opts RT_OPTS_TARRAY <> 0 ->
   tag_above_SURFACE_MAX (tag o) = false ->
   trnode o' = nearest_own_transform o' parents) /\
  (Z.land opts RT_OPTS_TARRAY = 0 \/ tag_above_SURFACE_MAX (tag o) = true ->
   trnode o' = match nearest_own_transform o' parents with
               | Some _ => Some (this o)
               | None => None
               end).
Proof.
  intros Hacyc o' Hch.
  destruct (rt_Object_update_trnode opts parents o time_ mtx_ flags Hch)
    as (Hthis & _ & Htr).
  fold o' in Hthis, Htr.
  assert (Hnear : nearest_own_transform o' parents =
                  if negb (obj_has_trm o' =? 0) then Some (this o)
                  else option_map this (find_trnode parents)).
  { unfold nearest_own_transform. cbn [find].
    destruct (negb (obj_has_trm o' =? 0)); cbn.
    - now rewrite Hthis.
    - now rewrite find_trnode_find. }
  assert (Hanc : forall p, In p parents -> this p <> this o).
  { intros p Hin e. apply Hacyc. rewrite <- e. now apply in_map. }
  assert (Hnot : forall p, In p parents -> Some (this o) <> Some (this p)).
  { intros p Hin [= e]. now apply (Hanc p Hin). }
  rewrite Hnear. rewrite Htr.
  destruct (negb (obj_has_trm o' =? 0)).
  - rewrite Nat.eqb_refl. cbn.
    split; [|split; intros; reflexivity].
    left. repeat split; [|discriminate].
    intros (p & Hin & e). now apply (Hnot p Hin).
  - destruct (find_trnode parents) as [t|] eqn:Hf; cbn.
    + apply find_trnode_In in Hf as [Hin _].
      assert (En : Nat.eqb (this t) (this o) = false)
        by (apply Nat.eqb_neq; now apply Hanc).
      rewrite En. cbn.
      destruct (Z.eqb_spec (Z.land opts RT_OPTS_TARRAY) 0) as [e|e]; cbn.
      * split; [|split; [intro; contradiction | reflexivity]].
        left. repeat split; [|discriminate].
        intros (p & Hp & e'). now apply (Hnot p Hp).
      * destruct (tag_above_SURFACE_MAX (tag o)).
        -- split; [|split; [discriminate | reflexivity]].
           left. repeat split; [|discriminate].
           intros (p & Hp & e'). now apply (Hnot p Hp).
        -- split; [|split; [reflexivity|]].
           ++ right; left. repeat split; [|now exists t|discriminate].
              intros [= e']. now apply (Hanc t Hin).
           ++ intros [e' | e']; [contradiction | discriminate].
    + split; [|split; intros; reflexivity].
      right; right. repeat split; [discriminate|].
      intros (p & _ & e). discriminate.
Qed.


(** C10.  [update_bvnode(b, TRUE)] binds [bvnode] to [b] only when [b]
    is not the object itself and no bvnode is set, and never overwrites a
    binding; [update_bvnode(b, FALSE)] clears [bvnode] only when it
    equals [b]; no other field changes; cameras and lights ignore the
    call; and [rt_Object::update] always leaves [bvnode] null. *)
Theorem bvnode_protocol (o : rt_Object) (b : option ptr) :
  (* attach *)
  bvnode (rt_Object_update_bvnode o b true)
  = (if negb (ptr_eqb b (Some (this o))) && ptr_eqb (bvnode o) None
     then b else bvnode o) /\
  (* detach *)
  bvnode (rt_Object_update_bvnode o b false)
  = (if negb (ptr_eqb b (Some (this o))) && ptr_eqb (bvnode o) b
     then None else bvnode o) /\
  (* nothing but bvnode is written *)
  (forall mode,
     rt_Object_update_bvnode o b mode
     = mk_Object (this o) (tag o) (trm o) (f_anim o) (time o) (mtx o)
                 (obj_changed o) (obj_has_trm o) (mtx_has_trm o) (trnode o)
                 (bvnode (rt_Object_update_bvnode o b mode))
                 (trb_trnode o)) /\
  (* cameras and lights *)
  (forall mode children,
     tag o = RT_TAG_CAMERA \/ tag o = RT_TAG_LIGHT ->
     update_bvnode (Tree o children) b mode = Tree o children) /\
  (* every update resets the binding *)
  (forall opts parents time_ mtx_ flags,
     bvnode (fst (rt_Object_update opts parents o time_ mtx_ flags)) = None).
Proof.
  repeat split.
  - unfold rt_Object_update_bvnode.
    destruct (ptr_eqb b (Some (this o))); cbn; [reflexivity|].
    destruct (ptr_eqb (bvnode o) None); reflexivity.
  - unfold rt_Object_update_bvnode.
    destruct (ptr_eqb b (Some (this o))); cbn; reflexivity.
  - intro mode. unfold rt_Object_update_bvnode.
    destruct (ptr_eqb b (Some (this o))); cbn; [now destruct o | reflexivity].
  - intros mode children [Ht | Ht]; cbn; rewrite Ht; reflexivity.
  - intros opts parents time_ mtx_ flags. unfold rt_Object_update.
    destruct (f_anim o); [destruct (negb (time o =? time_))|];
      cbv beta iota zeta;
      match goal with
      | |- context [if ?c =? 0 then _ else _] => destruct (c =? 0)
      end; cbn [fst bvnode];
      repeat match goal with
      | |- context [let '(_, _) := ?m in _] => destruct m
      end; reflexivity.
Qed.

End ObjectClaims.

(** * update called twice with the same time *)

Section UpdateTwice.

Context `{rt_Headers} `{rt_Macros}.

Lemma lor_land_same (a b : Z) : Z.land (Z.lor a b) b = b.
Proof.
  apply Z.bits_inj'. intros n Hn.
  rewrite Z.land_spec, Z.lor_spec.
  destruct (Z.testbit a n), (Z.testbit b n); reflexivity.
Qed.












End UpdateTwice.

(** * rt_Camera::update(time, action) *)

Section CameraClaims.

Context `{rt_Headers}.

(** C8 (amended).  A camera action whose rotation delta lies in
    [0, 360), applied to rotation components within [-180, +180], leaves
    every rotation component within [-180, +180]. *)
Theorem camera_rotation_bounded (c : rt_Camera) (time_ : rt_long)
    (action : camera_action) :
  (0 <= action_delta c time_ action /\ action_delta c time_ action < 360)%Q ->
  (forall a, bounded_rot (cam_rot c a)) ->
  forall a, bounded_rot (cam_rot (rt_Camera_update_action c time_ action) a).
Proof.
  intros [Hd0 Hd1] Hb a.
  pose proof (Hb RT_X) as [Hx0 Hx1].
  pose proof (Hb RT_Y) as [Hy0 Hy1].
  pose proof (Hb RT_Z) as [Hz0 Hz1].
  unfold bounded_rot, cam_rot in *.
  unfold rt_Camera_update_action. cbn [cam_obj set_trm trm].
  unfold action_delta in Hd0, Hd1.
  remember (action_time c time_) as t eqn:Et. clear Et.
  destruct (trm (cam_obj c)) as [s r p].
  cbn [rot] in *. destruct r as [rx ry rz]. cbn [vget vx vy vz] in *.
  clear Hb.
  destruct action; cbn [camera_action_trm] in *;
    unfold RT_I, RT_J, RT_K in *;
    cbn [rot pos set_rot set_pos vget vset] in *;
    split_cmp; destruct a; cbn [rot set_rot vget vset vx vy vz] in *;
    try (generalize dependent (vx (drt c) * t)%Q; intros);
    try (generalize dependent (vy (drt c) * t)%Q; intros);
    split; lra.
Qed.

End CameraClaims.

(** * Constructors *)

Section ConstructClaims.

Context `{rt_Headers}.

Lemma all_infinite_tests (srf : rt_SURFACE) (a : axis) :
  all_infinite srf ->
  is_neg_inf (vget (lit_min srf) a) = true /\
  is_pos_inf (vget (lit_max srf) a) = true.
Proof.
  intro Hinf. destruct (Hinf a) as [Hmin Hmax].
  unfold is_neg_inf, is_pos_inf. split; now apply Qeq_bool_iff.
Qed.

(** C6 (amended).  A surface constructed from a record whose clipper box
    is unbounded on all axes has no bounding polyhedron (all three counts
    zero, all three lists null) when it is a plane, a cylinder, a cone, a
    hyperboloid or a paraboloid with a non-zero parameter; a sphere (and a
    paraboloid with parameter zero) gets the 8 vertices, 12 edges and 6
    faces of a quadric whatever its clipper box is. *)
Theorem unbounded_box_polyhedron (o : rt_OBJ) (sh : rt_shape)
    (srf : rt_SURFACE) (b : rt_Built) :
  all_infinite srf ->
  rt_Surface_ctor o sh srf = Ok b ->
  exists outer inner,
    b = Built_Surface sh (shape_polyhedron sh srf) outer inner /\
    match sh with
    | SH_SPHERE _ =>
        shape_polyhedron sh srf = polyhedron 8 qd_edges qd_faces
    | SH_PARABOLOID par =>
        if Qeq_bool par 0
        then shape_polyhedron sh srf = polyhedron 8 qd_edges qd_faces
        else shape_polyhedron sh srf = no_polyhedron
    | _ => shape_polyhedron sh srf = no_polyhedron
    end.
Proof.
  intros Hinf Hc. unfold rt_Surface_ctor in Hc.
  destruct (rt_Material_ctor (side_material (pmat_outer o) (side_outer srf)))
    as [outer|] eqn:Eo; cbn in Hc; [|discriminate].
  destruct (rt_Material_ctor (side_material (pmat_inner o) (side_inner srf)))
    as [inner|] eqn:Ei; cbn in Hc; [|discriminate].
  injection Hc as <-. exists outer, inner. split; [reflexivity|].
  destruct (all_infinite_tests RT_I Hinf) as [HI0 HI1].
  destruct (all_infinite_tests RT_K Hinf) as [HK0 HK1].
  destruct sh; cbn [shape_polyhedron]; rewrite ?HI0, ?HK0, ?HK1; cbn;
    try reflexivity.
  destruct (Qeq_bool par 0) eqn:Ep.
  - apply Qeq_bool_iff in Ep.
    assert (Qlt_bool par 0 = false) as -> by (apply Qlt_bool_false; lra).
    assert (Qgt_bool par 0 = false) as -> by (apply Qgt_bool_false; lra).
    reflexivity.
  - destruct (Qlt_bool par 0) eqn:El; [reflexivity|].
    destruct (Qgt_bool par 0) eqn:Eg; [reflexivity|].
    apply Qlt_bool_false in El. apply Qgt_bool_false in Eg.
    assert (par == 0)%Q as Hz by lra.
    apply Qeq_bool_iff in Hz. congruence.
Qed.

End ConstructClaims.

(** * Instantiating a scene literal *)

Section InstantiateTheorems.

Import Instantiate.

Context `{rt_Headers} `{rt_Macros} `{rt_Props}.

Variable cstr : Material.rt_pntr -> Material.rt_pstr.
Variable load_image : Material.rt_pstr -> rt_result Material.rt_TEX.
Variable tex0 otx0 : Material.rt_TEX.
Variable map0 sgn0 : rt_cell * rt_cell.






























End InstantiateTheorems.

(** * rt_Sphere::adjust_minmax *)

Section SphereClaims.

Context `{rt_Headers}.

Lemma sphere_top_cases (smin smax : rt_vec3) (k : axis) :
  ((0 < vget smin k)%Q -> sphere_top smin smax k = vget smin k) /\
  ((vget smin k <= 0)%Q -> (vget smax k < 0)%Q ->
   sphere_top smin smax k = Qopp (vget smax k)) /\
  ((vget smin k <= 0)%Q -> (0 <= vget smax k)%Q ->
   sphere_top smin smax k = 0%Q).
Proof.
  unfold sphere_top. repeat split; intros; split_cmp; try reflexivity; lra.
Qed.

(** The loop over [k] leaves on every axis the smallest of |rad| and the
    cross-section radii computed from the two other axes. *)
Lemma sphere_radii_closed (xrad : rt_real) (smin smax : rt_vec3) :
  let R := sphere_cross_radius xrad smin smax in
  let rad := sphere_radii xrad smin smax in
  vget rad RT_I = RT_MIN (R RT_K) (RT_MIN (R RT_J) (RT_FABS xrad)) /\
  vget rad RT_J = RT_MIN (R RT_K) (RT_MIN (R RT_I) (RT_FABS xrad)) /\
  vget rad RT_K = RT_MIN (R RT_J) (RT_MIN (R RT_I) (RT_FABS xrad)).
Proof.
  cbv zeta. unfold sphere_radii, sphere_cross_radius, RT_I, RT_J, RT_K.
  cbn [fold_left]. unfold sphere_step.
  change (axis_of_index 0) with RT_X.
  change (axis_of_index 1) with RT_Y.
  change (axis_of_index 2) with RT_Z.
  change (axis_of_index (0 + 1)) with RT_Y.
  change (axis_of_index (0 + 2)) with RT_Z.
  change (axis_of_index (1 + 1)) with RT_Z.
  change (axis_of_index (1 + 2)) with RT_X.
  change (axis_of_index (2 + 1)) with RT_X.
  change (axis_of_index (2 + 2)) with RT_Y.
  set (r0 := RT_FABS xrad).
  set (Rx := RT_SQRT (RT_MAX (xrad * xrad
                - sphere_top smin smax RT_X * sphere_top smin smax RT_X) 0)).
  set (Ry := RT_SQRT (RT_MAX (xrad * xrad
                - sphere_top smin smax RT_Y * sphere_top smin smax RT_Y) 0)).
  set (Rz := RT_SQRT (RT_MAX (xrad * xrad
                - sphere_top smin smax RT_Z * sphere_top smin smax RT_Z) 0)).
  unfold RT_MIN, Qgt_bool, Qlt_bool, vec3_val1. cbn [vget vset vx vy vz].
  destruct (Qle_bool r0 Rx) eqn:E1; cbn [negb vget vset vx vy vz];
    rewrite ?E1; cbn [negb vget vset vx vy vz];
    destruct (Qle_bool r0 Ry) eqn:E2; cbn [negb vget vset vx vy vz];
    rewrite ?E1, ?E2; cbn [negb vget vset vx vy vz];
    destruct (Qle_bool Rx Ry) eqn:E3; cbn [negb vget vset vx vy vz];
    rewrite ?E1, ?E2, ?E3; cbn [negb vget vset vx vy vz];
    destruct (Qle_bool r0 Rz) eqn:E4; cbn [negb vget vset vx vy vz];
    rewrite ?E1, ?E2, ?E3, ?E4; cbn [negb vget vset vx vy vz];
    destruct (Qle_bool Ry Rz) eqn:E5; cbn [negb vget vset vx vy vz];
    rewrite ?E1, ?E2, ?E3, ?E4, ?E5; cbn [negb vget vset vx vy vz];
    destruct (Qle_bool Rx Rz) eqn:E6; cbn [negb vget vset vx vy vz];
    rewrite ?E1, ?E2, ?E3, ?E4, ?E5, ?E6; cbn [negb vget vset vx vy vz];
    auto.
Qed.

(** C3 (amended).  For a sphere and a source box: [top] on axis k is the
    distance from the centre to the slab [smin[k], smax[k]] (smin[k] when
    it is positive, -smax[k] when smax[k] is negative, 0 otherwise); the
    effective radius on an axis is the smallest of |rad| and
    sqrt(max(rad^2 - top^2, 0)) taken over the two other axes; every bbox
    bound is the source bound clamped to plus-or-minus the effective
    radius of its axis; and a cbox bound is the infinity of its side when
    the source bound cuts into the original axis clipper or reaches or
    exceeds the effective radius, and the source bound otherwise. *)
Theorem sphere_adjust_minmax_boxes (s : rt_Surface) (xrad : rt_real)
    (smin smax : rt_vec3) :
  shape s = SH_SPHERE xrad ->
  let R := sphere_cross_radius xrad smin smax in
  let rad := sphere_radii xrad smin smax in
  (forall k,
     ((0 < vget smin k)%Q -> sphere_top smin smax k = vget smin k) /\
     ((vget smin k <= 0)%Q -> (vget smax k < 0)%Q ->
      sphere_top smin smax k = Qopp (vget smax k)) /\
     ((vget smin k <= 0)%Q -> (0 <= vget smax k)%Q ->
      sphere_top smin smax k = 0%Q)) /\
  (vget rad RT_I = RT_MIN (R RT_K) (RT_MIN (R RT_J) (RT_FABS xrad)) /\
   vget rad RT_J = RT_MIN (R RT_K) (RT_MIN (R RT_I) (RT_FABS xrad)) /\
   vget rad RT_K = RT_MIN (R RT_J) (RT_MIN (R RT_I) (RT_FABS xrad))) /\
  exists bmn bmx cmn cmx,
    adjust_minmax s smin smax true true
    = (Some (bmn, bmx), Some (cmn, cmx)) /\
    forall a,
      vget bmn a = RT_MAX (vget smin a) (Qopp (vget rad a)) /\
      vget bmx a = RT_MIN (vget smax a) (vget rad a) /\
      vget cmn a =
        (if Qgt_bool (vget smin a) (vget (srf_min s) a)
            || Qle_bool (vget smin a) (Qopp (vget rad a))
         then Qopp RT_INF else vget smin a) /\
      vget cmx a =
        (if Qlt_bool (vget smax a) (vget (srf_max s) a)
            || Qle_bool (vget rad a) (vget smax a)
         then RT_INF else vget smax a).
Proof.
  intros Hs R rad. split; [intro k; apply sphere_top_cases|].
  split; [apply sphere_radii_closed|].
  unfold adjust_minmax. rewrite Hs. fold rad.
  do 4 eexists. split; [reflexivity|].
  intro a. unfold rt_Surface_adjust_minmax, open_lo, open_hi, RT_I, RT_J, RT_K.
  destruct a; cbn [vget vx vy vz fst snd];
    (split; [reflexivity|]); (split; [reflexivity|]); split;
    match goal with
    | |- context [Qgt_bool ?x ?y] => destruct (Qgt_bool x y); cbn [orb]
    | |- context [Qlt_bool ?x ?y] => destruct (Qlt_bool x y); cbn [orb]
    end;
    try reflexivity;
    match goal with
    | |- context [Qle_bool ?x ?y] => destruct (Qle_bool x y); reflexivity
    end.
Qed.

End SphereClaims.

(** * rt_Surface::update_minmax *)

Section MinmaxClaims.

Context `{rt_Headers}.

Lemma skip_of_S (m : nat) : 1 - skip_of m = skip_of (S m).
Proof.
  unfold skip_of. rewrite Nat.even_succ, <- Nat.negb_even.
  destruct (Nat.even m); reflexivity.
Qed.

Lemma clipper_skipped_spec st s m elm p :
  temp elm = Some p ->
  clipper_skipped st s (skip_of m) elm
  = negb (Nat.even m && outer_clipper st s elm).
Proof.
  intro Ht. unfold clipper_skipped, outer_clipper, skip_of. rewrite Ht.
  destruct (Nat.even m); cbn [Z.eqb orb andb negb]; [|reflexivity].
  destruct (tag_eqb (tag (node (st p))) RT_TAG_ARRAY); cbn; [reflexivity|].
  destruct (tag_eqb (tag (node (st p))) RT_TAG_PLANE); cbn; [reflexivity|].
  destruct (ptr_eqb (trnode (node (st p))) (trnode (node s))); cbn;
    [|reflexivity].
  destruct (data elm =? RT_REL_MINUS_OUTER); reflexivity.
Qed.

Lemma scan_changed_qualifying st s m ch l :
  scan_changed st s (skip_of m) ch l
  = fold_left (fun ch elm =>
                 match temp elm with
                 | Some p => Z.lor ch (obj_changed (node (st p)))
                 | None => ch
                 end)
              (qualifying st s m l) ch.
Proof.
  revert m ch; induction l as [|elm rest IH]; intros m ch;
    cbn [scan_changed qualifying fold_left]; [reflexivity|].
  unfold toggle_skip. destruct (temp elm) as [p|] eqn:Ht.
  - rewrite (clipper_skipped_spec st s m elm Ht).
    destruct (Nat.even m && outer_clipper st s elm);
      cbn [negb fold_left].
    + rewrite Ht. apply IH.
    + apply IH.
  - rewrite skip_of_S.
    assert (clipper_skipped st s (skip_of (S m)) elm = true) as ->
      by (unfold clipper_skipped; now rewrite Ht).
    apply IH.
Qed.

Lemma scan_accum_qualifying st s m bbox cbox l :
  scan_accum st s (skip_of m) bbox cbox l
  = fold_left (accumulate st bbox) (qualifying st s m l) cbox.
Proof.
  revert m cbox; induction l as [|elm rest IH]; intros m cbox;
    cbn [scan_accum qualifying fold_left]; [reflexivity|].
  unfold toggle_skip. destruct (temp elm) as [p|] eqn:Ht.
  - rewrite (clipper_skipped_spec st s m elm Ht).
    destruct (Nat.even m && outer_clipper st s elm);
      cbn [negb fold_left].
    + unfold accumulate at 2. rewrite Ht.
      destruct (recalc_minmax (st p) (Some bbox) false (Some cbox))
        as [[b [c|]]|]; apply IH.
    + apply IH.
  - rewrite skip_of_S.
    assert (clipper_skipped st s (skip_of (S m)) elm = true) as ->
      by (unfold clipper_skipped; now rewrite Ht).
    apply IH.
Qed.

Lemma adjust_minmax_both (s : rt_Surface) (smin smax : rt_vec3) :
  exists b c, adjust_minmax s smin smax true true = (Some b, Some c).
Proof. unfold adjust_minmax. destruct (shape s); do 2 eexists; reflexivity. Qed.

Lemma adjust_minmax_bbox_only (s : rt_Surface) (smin smax : rt_vec3) :
  adjust_minmax s smin smax true false
  = (fst (adjust_minmax s smin smax true true), None).
Proof. unfold adjust_minmax. destruct (shape s); reflexivity. Qed.

Lemma recalc_init_both (s : rt_Surface) (c0 : rt_box) :
  written_boxes (recalc_minmax s None true (Some c0)) (bbox_of s) (cbox_of s)
  = direct_boxes s.
Proof.
  unfold recalc_minmax, adjust_and_direct, direct_boxes.
  destruct (adjust_minmax_both s (srf_min s) (srf_max s)) as (b & c & ->).
  reflexivity.
Qed.

Lemma recalc_init_bbox (s : rt_Surface) :
  fst (written_boxes (recalc_minmax s None true None) (bbox_of s) (cbox_of s))
  = fst (direct_boxes s).
Proof.
  unfold recalc_minmax, adjust_and_direct, direct_boxes.
  rewrite adjust_minmax_bbox_only.
  destruct (adjust_minmax_both s (srf_min s) (srf_max s)) as (b & c & ->).
  reflexivity.
Qed.

(** C2 (amended).  [update_minmax] computes bbox and cbox directly from
    the shape-specific [adjust_minmax] applied to the original clipper
    box when the surface has no custom clippers, or is its own trnode, or
    the ADJUST bit is clear.  Otherwise it gathers the changed status of
    the surface and of the clippers that are MINUS_OUTER surfaces (no
    planes, no arrays) of the same trnode outside accumulation segments:
    if nothing changed the boxes are left as they are; if something
    changed, the baseline bbox is computed from the shape alone, cbox
    starts as the whole space, exactly those clippers accumulate into it,
    and bbox and cbox are recomputed from the accumulated box. *)
Theorem update_minmax_paths (opts : rt_cell) (st : rt_store)
    (s : rt_Surface) :
  (no_clippers s = true \/ is_own_trnode s = true
   \/ Z.land opts RT_OPTS_ADJUST = 0 ->
   update_minmax opts st s
   = set_boxes s (obj_changed (node s))
               (fst (direct_boxes s)) (snd (direct_boxes s))) /\
  (no_clippers s = false -> is_own_trnode s = false ->
   Z.land opts RT_OPTS_ADJUST <> 0 ->
   (clippers_changed st s = 0 ->
    update_minmax opts st s = set_boxes s 0 (bbox_of s) (cbox_of s)) /\
   (clippers_changed st s <> 0 ->
    update_minmax opts st s
    = set_boxes s (clippers_changed st s)
                (fst (recomputed_boxes st s)) (snd (recomputed_boxes st s)))).
Proof.
  split.
  - intro Hd. unfold update_minmax.
    assert (no_clippers s || is_own_trnode s
            || (Z.land opts RT_OPTS_ADJUST =? 0) = true) as ->.
    { destruct Hd as [-> | [-> | e]]; [reflexivity | apply orb_true_iff;
        left; apply orb_true_r |].
      rewrite e. apply orb_true_r. }
    rewrite recalc_init_both. destruct (direct_boxes s); reflexivity.
  - intros Hn Ho Ha. unfold update_minmax.
    apply Z.eqb_neq in Ha. rewrite Hn, Ho, Ha. cbn [orb].
    pose proof (scan_changed_qualifying st s 0%nat (obj_changed (node s))
                  (clippers s)) as Hsc.
    change (skip_of 0) with 0 in Hsc. rewrite Hsc.
    fold (clippers_changed st s).
    split.
    + intro Hz. rewrite Hz. reflexivity.
    + intro Hz. apply Z.eqb_neq in Hz. rewrite Hz.
      rewrite recalc_init_bbox.
      pose proof (scan_accum_qualifying st s 0%nat (fst (direct_boxes s))
                    infinite_box (clippers s)) as Hac.
      change (skip_of 0) with 0 in Hac. rewrite Hac.
      unfold recomputed_boxes.
      destruct (written_boxes _ _ _); reflexivity.
Qed.

End MinmaxClaims.

(** * rt_Surface::add_relation *)

Section RelationClaims.

Context `{rt_Headers}.

Lemma ptr_eqb_eq (a b : option ptr) : ptr_eqb a b = true <-> a = b.
Proof.
  destruct a as [x|], b as [y|]; cbn; try (split; congruence).
  rewrite Nat.eqb_eq. split; congruence.
Qed.

Lemma ptr_eqb_neq (a b : option ptr) : ptr_eqb a b = false <-> a <> b.
Proof.
  rewrite <- ptr_eqb_eq. destruct (ptr_eqb a b); split; congruence.
Qed.

Lemma is_leave_dec (e : rt_ELEM) : {is_leave e} + {~ is_leave e}.
Proof.
  unfold is_leave. destruct (temp e) as [p|].
  - right. intros [Hn _]. discriminate.
  - destruct (Z.eq_dec (data e) RT_ACCUM_LEAVE) as [e1|n1].
    + left. now split.
    + right. intros [_ Hd]. contradiction.
Qed.

(** One step of the search loop, by the kind of the element in front. *)
Lemma find_step_found tn nxt rest :
  temp nxt = Some tn -> find_trnode_elem tn 0 (nxt :: rest) = Some 0%nat.
Proof.
  intro Ht. cbn. rewrite Ht. cbn. now rewrite Nat.eqb_refl.
Qed.

Lemma find_step_clipper tn acc nxt rest :
  temp nxt <> None -> (acc = 1 \/ temp nxt <> Some tn) ->
  find_trnode_elem tn acc (nxt :: rest)
  = option_map S (find_trnode_elem tn acc rest).
Proof.
  intros Hn Hc. cbn.
  assert (Ea : (acc =? 0) && ptr_eqb (temp nxt) (Some tn) = false).
  { destruct Hc as [-> | Hc]; [reflexivity|].
    apply ptr_eqb_neq in Hc. rewrite Hc. apply andb_false_r. }
  rewrite Ea. apply ptr_eqb_neq in Hn. now rewrite Hn.
Qed.

Lemma find_step_leave0 tn nxt rest :
  is_leave nxt -> find_trnode_elem tn 0 (nxt :: rest) = None.
Proof.
  intros [Ht Hd]. cbn. rewrite Ht, Hd. reflexivity.
Qed.

Lemma find_step_leave1 tn nxt rest :
  is_leave nxt ->
  find_trnode_elem tn 1 (nxt :: rest)
  = option_map S (find_trnode_elem tn 0 rest).
Proof.
  intros [Ht Hd]. cbn. rewrite Ht, Hd. reflexivity.
Qed.

Lemma find_step_enter tn nxt rest :
  temp nxt = None -> data nxt = RT_ACCUM_ENTER ->
  find_trnode_elem tn 0 (nxt :: rest)
  = option_map S (find_trnode_elem tn 1 rest).
Proof.
  intros Ht Hd. cbn. rewrite Ht, Hd. reflexivity.
Qed.

Lemma find_step_other0 tn nxt rest :
  temp nxt = None -> data nxt <> RT_ACCUM_ENTER ->
  data nxt <> RT_ACCUM_LEAVE ->
  find_trnode_elem tn 0 (nxt :: rest)
  = option_map S (find_trnode_elem tn 0 rest).
Proof.
  intros Ht He Hl. cbn. rewrite Ht. cbn.
  apply Z.eqb_neq in He, Hl. rewrite He, Hl. reflexivity.
Qed.

Lemma find_step_inside tn nxt rest :
  ~ is_leave nxt ->
  find_trnode_elem tn 1 (nxt :: rest)
  = option_map S (find_trnode_elem tn 1 rest).
Proof.
  intro Hl. destruct (temp nxt) as [p|] eqn:Ht.
  - apply find_step_clipper; [congruence | now left].
  - cbn. rewrite Ht. cbn.
    assert (data nxt <> RT_ACCUM_LEAVE) as Hd
      by (intro e; apply Hl; now split).
    apply Z.eqb_neq in Hd. rewrite Hd. reflexivity.
Qed.

(** Inside a segment the search runs to the leave marker. *)
Lemma find_through_segment tn body e' rest :
  Forall (fun x => ~ is_leave x) body -> is_leave e' ->
  find_trnode_elem tn 1 (body ++ e' :: rest)
  = option_map (fun k => (List.length body + S k)%nat)
               (find_trnode_elem tn 0 rest).
Proof.
  intros Hb He. induction Hb as [|x body Hx Hb IH]; cbn [app List.length].
  - rewrite find_step_leave1 by assumption.
    destruct (find_trnode_elem tn 0 rest); reflexivity.
  - rewrite find_step_inside by assumption. rewrite IH.
    destruct (find_trnode_elem tn 0 rest); reflexivity.
Qed.

(** The search finds the first element of [tn] behind an open prefix. *)
Lemma find_complete tn pre m post :
  open_prefix tn pre -> temp m = Some tn ->
  find_trnode_elem tn 0 (pre ++ m :: post) = Some (List.length pre).
Proof.
  intros Hp Hm. induction Hp as [|e p Hn Hne Hp IH
                                 |e body e' p Ht Hd Hb He Hp IH
                                 |e p Ht Hd1 Hd2 Hp IH].
  - now apply find_step_found.
  - cbn [app List.length]. rewrite find_step_clipper; [|assumption|now right].
    now rewrite IH.
  - cbn [app List.length]. rewrite find_step_enter by assumption.
    rewrite <- app_assoc. cbn [app].
    rewrite find_through_segment by assumption.
    rewrite IH. cbn [option_map].
    rewrite length_app. cbn [List.length]. reflexivity.
  - cbn [app List.length]. rewrite find_step_other0 by assumption.
    now rewrite IH.
Qed.

(** What the search stops at is an element of [tn] behind an open
    prefix. *)
Lemma find_sound tn l :
  (forall n, find_trnode_elem tn 0 l = Some n ->
     exists pre m post,
       l = pre ++ m :: post /\ List.length pre = n /\
       open_prefix tn pre /\ temp m = Some tn) /\
  (forall n, find_trnode_elem tn 1 l = Some n ->
     exists body e' pre m post,
       l = body ++ e' :: pre ++ m :: post /\
       Forall (fun x => ~ is_leave x) body /\ is_leave e' /\
       open_prefix tn pre /\ temp m = Some tn /\
       n = (List.length body + S (List.length pre))%nat).
Proof.
  induction l as [|e rest [IH0 IH1]]; [split; intros n Hf; discriminate|].
  split; intros n Hf.
  - destruct (temp e) as [p|] eqn:Ht.
    + destruct (Nat.eq_dec p tn) as [-> | Hne].
      * rewrite find_step_found in Hf by assumption. injection Hf as <-.
        exists [], e, rest. repeat split; [constructor | assumption].
      * rewrite find_step_clipper in Hf;
          [|congruence | right; congruence].
        destruct (find_trnode_elem tn 0 rest) as [k|] eqn:Hk;
          [|discriminate]. injection Hf as <-.
        destruct (IH0 k eq_refl) as (pre & m & post & -> & <- & Hp & Hm).
        exists (e :: pre), m, post. repeat split; [|assumption].
        apply open_clipper; congruence.
    + destruct (Z.eq_dec (data e) RT_ACCUM_LEAVE) as [Hl | Hl].
      * rewrite find_step_leave0 in Hf by (now split). discriminate.
      * destruct (Z.eq_dec (data e) RT_ACCUM_ENTER) as [He | He].
        -- rewrite find_step_enter in Hf by assumption.
           destruct (find_trnode_elem tn 1 rest) as [k|] eqn:Hk;
             [|discriminate]. injection Hf as <-.
           destruct (IH1 k eq_refl)
             as (body & e' & pre & m & post & -> & Hb & He' & Hp & Hm & ->).
           exists (e :: body ++ e' :: pre), m, post.
           repeat split; [| |now apply open_segment|assumption].
           ++ cbn [app]. f_equal. rewrite <- app_assoc. reflexivity.
           ++ cbn [List.length]. rewrite length_app. reflexivity.
        -- rewrite find_step_other0 in Hf by assumption.
           destruct (find_trnode_elem tn 0 rest) as [k|] eqn:Hk;
             [|discriminate]. injection Hf as <-.
           destruct (IH0 k eq_refl) as (pre & m & post & -> & <- & Hp & Hm).
           exists (e :: pre), m, post. repeat split; [|assumption].
           now apply open_other.
  - destruct (is_leave_dec e) as [Hl | Hl].
    + rewrite find_step_leave1 in Hf by assumption.
      destruct (find_trnode_elem tn 0 rest) as [k|] eqn:Hk;
        [|discriminate]. injection Hf as <-.
      destruct (IH0 k eq_refl) as (pre & m & post & -> & <- & Hp & Hm).
      exists [], e, pre, m, post. repeat split; auto; apply Hl.
    + rewrite find_step_inside in Hf by assumption.
      destruct (find_trnode_elem tn 1 rest) as [k|] eqn:Hk;
        [|discriminate]. injection Hf as <-.
      destruct (IH1 k eq_refl)
        as (body & e' & pre & m & post & -> & Hb & He' & Hp & Hm & ->).
      exists (e :: body), e', pre, m, post.
      repeat split; auto; apply He'.
Qed.

Lemma find_none tn l :
  find_trnode_elem tn 0 l = None <-> ~ has_trnode_elem tn l.
Proof.
  split.
  - intros Hf (pre & m & post & -> & Hp & Hm).
    rewrite find_complete in Hf by assumption. discriminate.
  - intro Hno. destruct (find_trnode_elem tn 0 l) as [n|] eqn:Hf;
      [|reflexivity].
    exfalso. apply Hno.
    destruct (proj1 (find_sound tn l) n Hf) as (pre & m & post & -> & _ & Hp & Hm).
    now exists pre, m, post.
Qed.

Lemma insert_after_split (elm : rt_ELEM) pre m post :
  insert_after (List.length pre) elm (pre ++ m :: post)
  = pre ++ m :: elm :: post.
Proof.
  unfold insert_after.
  replace (S (List.length pre)) with (List.length (pre ++ [m]))
    by (rewrite length_app; cbn; lia).
  replace (pre ++ m :: post) with ((pre ++ [m]) ++ post)
    by (rewrite <- app_assoc; reflexivity).
  rewrite firstn_app, skipn_app, firstn_all, skipn_all, Nat.sub_diag.
  cbn. rewrite app_nil_r, <- app_assoc. reflexivity.
Qed.

(** Putting elements in front of a grouped list keeps the elements
    behind them grouped. *)
Lemma grouped_behind trn (front l : list rt_ELEM) pre e post p tn :
  grouped trn l ->
  front ++ l = pre ++ e :: post ->
  (List.length front <= List.length pre)%nat ->
  temp e = Some p -> trn p = Some tn ->
  exists pre' m mid,
    pre = pre' ++ m :: mid /\ temp m = Some tn /\
    Forall (same_trnode_clipper trn tn) mid.
Proof.
  intros Hg Heq Hlen He Ht.
  apply app_eq_app in Heq as [k [[-> Hk] | [-> Hk]]].
  - destruct k as [|x k].
    + rewrite app_nil_r in *. cbn in Hk. subst l.
      destruct (Hg [] e post p tn eq_refl He Ht) as (pre' & m & mid & Hp & _).
      destruct pre'; discriminate.
    + rewrite length_app in Hlen. cbn in Hlen. lia.
  - destruct (Hg k e post p tn Hk He Ht) as (pre' & m & mid & -> & Hm & Hmid).
    exists (front ++ pre'), m, mid. rewrite <- app_assoc. auto.
Qed.

Lemma grouped_insert_head trn (l : list rt_ELEM) (marker elm : rt_ELEM)
    (tn : ptr) :
  grouped trn l ->
  temp marker = Some tn -> trn tn = None ->
  same_trnode_clipper trn tn elm ->
  grouped trn (marker :: elm :: l).
Proof.
  intros Hg Hm Hn (q & Hq & Hqt) pre e post p tn' Heq He Ht.
  destruct pre as [|x pre].
  - cbn in Heq. injection Heq as <- _. congruence.
  - destruct pre as [|y pre].
    + cbn in Heq. injection Heq as <- <- _.
      exists [], marker, []. repeat split; [congruence | constructor].
    + apply (@grouped_behind trn [marker; elm] l (x :: y :: pre) e post
               p tn'); auto; cbn; lia.
Qed.

Lemma grouped_insert_under trn (pre0 post0 : list rt_ELEM)
    (m elm : rt_ELEM) (tn : ptr) :
  grouped trn (pre0 ++ m :: post0) ->
  temp m = Some tn -> trn tn = None ->
  same_trnode_clipper trn tn elm ->
  grouped trn (pre0 ++ m :: elm :: post0).
Proof.
  intros Hg Hm Hn Helm pre e post p tn' Heq He Ht.
  apply app_eq_app in Heq as [k [[Hpre Hk] | [Hpre Hk]]].
  - (* pre0 = pre ++ k *)
    destruct k as [|x k].
    + (* the element is m *)
      cbn in Hk. injection Hk as -> _. congruence.
    + (* the element lies within pre0 *)
      cbn in Hk. injection Hk as -> Hk. subst pre0.
      apply (Hg pre x (k ++ m :: post0) p tn'); auto.
      rewrite <- app_assoc. reflexivity.
  - (* pre = pre0 ++ k *)
    destruct k as [|x k].
    + (* the element is m *)
      cbn in Hk. injection Hk as <- _. congruence.
    + cbn in Hk. injection Hk as <- Hk.
      destruct k as [|y k].
      * (* the element is the new clipper *)
        cbn in Hk. injection Hk as <- _.
        destruct Helm as (q & Hq & Hqt).
        assert (tn' = tn) as -> by congruence.
        exists pre0, m, []. repeat split; [assumption.. | constructor].
      * (* the element lies behind the new clipper *)
        cbn in Hk. injection Hk as <- Hk. subst pre post0.
        destruct (Hg (pre0 ++ m :: k) e post p tn')
          as (pre' & m' & mid & Hp & Hm' & Hmid); auto.
        { rewrite <- app_assoc. reflexivity. }
        apply app_eq_app in Hp as [j [[Hp Hj] | [Hp Hj]]].
        -- destruct j as [|z j].
           ++ cbn in Hj. injection Hj as -> ->.
              rewrite app_nil_r in Hp. subst pre'.
              assert (tn' = tn) as -> by congruence.
              exists pre0, m, (elm :: k).
              repeat split; [assumption | now constructor].
           ++ (* the element of tn would be a clipper of tn' *)
              exfalso. cbn in Hj. injection Hj as -> ->.
              apply Forall_app in Hmid as [_ Hmid].
              inversion Hmid as [|? ? (q & Hq & Hqt) _]; subst.
              congruence.
        -- destruct j as [|z j].
           ++ cbn in Hj. injection Hj as <- <-.
              rewrite app_nil_r in Hp. subst pre'.
              assert (tn' = tn) as -> by congruence.
              exists pre0, m, (elm :: k).
              repeat split; [assumption | now constructor].
           ++ cbn in Hj. injection Hj as <- ->. subst pre'.
              exists (pre0 ++ m :: elm :: j), m', mid.
              repeat split; [|assumption..].
              rewrite <- !app_assoc. reflexivity.
Qed.

Lemma grouped_insert_plain trn (l : list rt_ELEM) (x : rt_ELEM) :
  grouped trn l ->
  (forall q, temp x = Some q -> trn q = None) ->
  grouped trn (x :: l).
Proof.
  intros Hg Hx pre e post p tn Heq He Ht.
  destruct pre as [|y pre].
  - cbn in Heq. injection Heq as <- _. rewrite (Hx p He) in Ht. discriminate.
  - apply (@grouped_behind trn [x] l (y :: pre) e post p tn); auto.
    cbn. lia.
Qed.

Lemma grouped_nil trn : grouped trn [].
Proof. intros [|x pre] e post p tn Heq; discriminate. Qed.

(** [insert_clipper] keeps the list grouped. *)
Lemma grouped_insert_clipper trn rel (srf : rt_Object) (h : rt_heap)
    (l : list rt_ELEM) :
  trn (this srf) = foreign_trnode srf ->
  (forall tn, foreign_trnode srf = Some tn -> trn tn = None) ->
  grouped trn l ->
  grouped trn (snd (insert_clipper rel srf (h, l))).
Proof.
  intros Ht Hn Hg. unfold insert_clipper, foreign_trnode in *.
  destruct (trnode srf) as [tn|].
  - destruct (Nat.eqb tn (this srf)) eqn:E; cbn [negb].
    + apply grouped_insert_plain; [assumption|].
      cbn. intros q [= <-]. assumption.
    + assert (Hc : same_trnode_clipper trn tn
                     (mk_ELEM h rel (Some (this srf)) (Some (this srf))))
        by (exists (this srf); auto).
      destruct (find_trnode_elem tn 0 l) as [n|] eqn:Hf; cbn [snd].
      * destruct (proj1 (find_sound tn l) n Hf)
          as (pre & m & post & -> & <- & Hp & Hm).
        rewrite insert_after_split.
        apply grouped_insert_under with (tn := tn); auto.
      * apply grouped_insert_head with (tn := tn); auto.
  - apply grouped_insert_plain; [assumption|].
    cbn. intros q [= <-]. assumption.
Qed.

Lemma grouped_add_relation_obj trn rel (t : rt_Tree) :
  tree_consistent trn t ->
  forall st, grouped trn (snd st) ->
  grouped trn (snd (add_relation_obj rel t st)).
Proof.
  revert t. fix IH 1. intros [o children] [Ho Hc] st Hg.
  cbn [add_relation_obj].
  destruct (RT_IS_ARRAY (tag o)).
  - clear Ho. revert st Hg Hc.
    induction children as [|c cs IHc]; intros st Hg Hc; cbn [fold_left].
    + assumption.
    + destruct Hc as [Hc1 Hc2]. apply IHc; [|assumption].
      apply IH; assumption.
  - destruct (RT_IS_SURFACE (tag o)); [|assumption].
    destruct (Ho eq_refl) as [Ht Hn]. destruct st as [h l].
    now apply grouped_insert_clipper.
Qed.

(** Whatever template [add_relation] is handed, the custom clippers
    list stays grouped; in particular the list rebuilt from scratch by an
    update is grouped. *)
Lemma grouped_add_relation_list trn (lst : list rt_TEMPLATE) :
  Forall (template_consistent trn) lst ->
  forall st, grouped trn (snd st) ->
  grouped trn (snd (add_relation_list lst st)).
Proof.
  unfold add_relation_list.
  induction 1 as [|e lst He Hl IH]; intros st Hg; cbn [fold_left].
  - assumption.
  - apply IH. unfold template_consistent in He.
    destruct (t_temp e) as [t|].
    + now apply grouped_add_relation_obj.
    + cbn [snd]. apply grouped_insert_plain; [assumption|].
      cbn. discriminate.
Qed.


End RelationClaims.

(** * Bounding and clipping boxes: the adjust_minmax family *)

Section ScalarMacros.

Lemma RT_MAX_ge_l (a b : rt_real) : (a <= RT_MAX a b)%Q.
Proof. unfold RT_MAX. split_cmp; lra. Qed.

Lemma RT_MAX_ge_r (a b : rt_real) : (b <= RT_MAX a b)%Q.
Proof. unfold RT_MAX. split_cmp; lra. Qed.

Lemma RT_MIN_le_l (a b : rt_real) : (RT_MIN a b <= a)%Q.
Proof. unfold RT_MIN. split_cmp; lra. Qed.

Lemma RT_MIN_le_r (a b : rt_real) : (RT_MIN a b <= b)%Q.
Proof. unfold RT_MIN. split_cmp; lra. Qed.

Lemma RT_FABS_nonneg (a : rt_real) : (0 <= RT_FABS a)%Q.
Proof. unfold RT_FABS. split_cmp; lra. Qed.

Lemma RT_MIN_glb (a b c : rt_real) :
  (c <= a)%Q -> (c <= b)%Q -> (c <= RT_MIN a b)%Q.
Proof. unfold RT_MIN. intros; split_cmp; lra. Qed.

Lemma RT_MAX_idem (a b : rt_real) : RT_MAX (RT_MAX a b) b = RT_MAX a b.
Proof.
  unfold RT_MAX. destruct (Qgt_bool a b) eqn:E; [now rewrite E|].
  destruct (Qgt_bool b b) eqn:E'; [|reflexivity].
  apply Qgt_bool_true in E'. lra.
Qed.

Lemma RT_MIN_idem (a b : rt_real) : RT_MIN (RT_MIN a b) b = RT_MIN a b.
Proof.
  unfold RT_MIN. destruct (Qlt_bool a b) eqn:E; [now rewrite E|].
  destruct (Qlt_bool b b) eqn:E'; [|reflexivity].
  apply Qlt_bool_true in E'. lra.
Qed.

End ScalarMacros.

Section BoxTheorems.

Context `{rt_Headers}.

(** Unfold the shape dispatch of [adjust_minmax] down to comparisons. *)
Ltac open_adjust :=
  unfold adjusted_bbox, adjusted_cbox, adjust_minmax, round_bbox, round_cbox,
    rt_Surface_adjust_minmax, open_lo, open_hi, RT_I, RT_J, RT_K in *;
  cbn [fst snd or_box vget vset vx vy vz flattened] in *.


(** X2.  The clipping box written by [adjust_minmax] never invents a
    bound: each bound is either the infinity of its side or the source
    bound itself, and a source bound that cuts into the original axis
    clipper of the surface is always replaced by the infinity. *)
Theorem adjust_minmax_cbox_bounds (s : rt_Surface) (smin smax : rt_vec3)
    (a : axis) :
  let c := adjusted_cbox s smin smax in
  (vget (fst c) a = Qopp RT_INF \/ vget (fst c) a = vget smin a) /\
  (vget (snd c) a = RT_INF \/ vget (snd c) a = vget smax a) /\
  ((vget (srf_min s) a < vget smin a)%Q -> vget (fst c) a = Qopp RT_INF) /\
  ((vget smax a < vget (srf_max s) a)%Q -> vget (snd c) a = RT_INF).
Proof.
  cbv zeta. open_adjust.
  assert (Hlo : forall x y, (y < x)%Q -> Qgt_bool x y = true)
    by (intros; now apply Qgt_bool_true).
  assert (Hhi : forall x y, (x < y)%Q -> Qlt_bool x y = true)
    by (intros; now apply Qlt_bool_true).
  destruct (shape s); destruct a; open_adjust;
    repeat split;
    try (intro Hcut; first [rewrite (Hlo _ _ Hcut) | rewrite (Hhi _ _ Hcut)];
         cbn [andb]);
    repeat match goal with
    | |- context [if ?c then _ else _] => destruct c
    end; auto.
Qed.

(** X3.  When the source box lies between the two infinities (and
    [RT_INF] is not negative), the bounding box written by
    [adjust_minmax] lies within the clipping box it writes, for every
    shape. *)
Theorem adjust_minmax_bbox_in_cbox (s : rt_Surface) (smin smax : rt_vec3) :
  (0 <= RT_INF)%Q ->
  in_range smin smax ->
  box_within (adjusted_bbox s smin smax) (adjusted_cbox s smin smax).
Proof.
  intros Hinf Hr.
  pose proof (Hr RT_X) as [HxL HxU].
  pose proof (Hr RT_Y) as [HyL HyU].
  pose proof (Hr RT_Z) as [HzL HzU].
  cbn [vget] in *.
  split; intro a; open_adjust;
    destruct (shape s); destruct a; open_adjust;
    unfold RT_MAX, RT_MIN; split_cmp; cbn [andb]; try lra.
Qed.

Lemma sphere_radii_top (xrad : rt_real) (smin smax smin' smax' : rt_vec3) :
  (forall k, sphere_top smin' smax' k = sphere_top smin smax k) ->
  sphere_radii xrad smin' smax' = sphere_radii xrad smin smax.
Proof.
  intro Ht. unfold sphere_radii. cbn [fold_left]. unfold sphere_step.
  now rewrite !Ht.
Qed.

Lemma sphere_radii_nonneg (xrad : rt_real) (smin smax : rt_vec3) (a : axis) :
  (forall x, 0 <= RT_SQRT x)%Q ->
  (0 <= vget (sphere_radii xrad smin smax) a)%Q.
Proof.
  intro Hs.
  destruct (sphere_radii_closed xrad smin smax) as (Hi & Hj & Hk).
  unfold RT_I, RT_J, RT_K in *.
  pose proof (RT_FABS_nonneg xrad) as Hf.
  destruct a; [rewrite Hi | rewrite Hj | rewrite Hk];
    unfold sphere_cross_radius;
    repeat apply RT_MIN_glb; auto.
Qed.

(** X4.  Adjusting an adjusted bounding box changes nothing: the bbox
    [adjust_minmax] computes from its own bbox is that bbox again, for
    every shape (given a square root that is never negative). *)
Theorem adjust_minmax_bbox_idempotent (s : rt_Surface)
    (smin smax : rt_vec3) :
  (forall x, 0 <= RT_SQRT x)%Q ->
  let b := adjusted_bbox s smin smax in
  adjusted_bbox s (fst b) (snd b) = b.
Proof.
  intro Hs. cbv zeta.
  unfold adjusted_bbox, adjust_minmax.
  destruct (shape s) as [|xrad|xrad|rat|par|rat hyp];
    cbn [fst snd or_box].
  - reflexivity.
  - unfold round_bbox, RT_I, RT_J, RT_K. cbn [fst snd vget vx vy vz].
    now rewrite !RT_MAX_idem, !RT_MIN_idem.
  - set (rad := sphere_radii xrad smin smax).
    assert (Hrad : forall a, (0 <= vget rad a)%Q)
      by (intro a; now apply sphere_radii_nonneg).
    assert (Htop : forall k,
               sphere_top
                 (mk_vec3 (RT_MAX (vget smin RT_I) (- vget rad RT_I))
                          (RT_MAX (vget smin RT_J) (- vget rad RT_J))
                          (RT_MAX (vget smin RT_K) (- vget rad RT_K)))
                 (mk_vec3 (RT_MIN (vget smax RT_I) (vget rad RT_I))
                          (RT_MIN (vget smax RT_J) (vget rad RT_J))
                          (RT_MIN (vget smax RT_K) (vget rad RT_K))) k
               = sphere_top smin smax k).
    { intro k. pose proof (Hrad k) as Hk.
      unfold sphere_top, RT_I, RT_J, RT_K.
      destruct k; cbn [vget vx vy vz] in *; unfold RT_MAX, RT_MIN;
        match goal with
        | |- context [Qgt_bool (?f smin) (- ?r)] =>
            destruct (Qgt_bool (f smin) (- r)) eqn:Elo;
            [apply Qgt_bool_true in Elo | apply Qgt_bool_false in Elo]
        end;
        match goal with
        | |- context [Qlt_bool (?f smax) ?r] =>
            destruct (Qlt_bool (f smax) r) eqn:Ehi;
            [apply Qlt_bool_true in Ehi | apply Qlt_bool_false in Ehi]
        end;
        split_cmp; try reflexivity; exfalso; lra. }
    rewrite (@sphere_radii_top xrad smin smax _ _ Htop). fold rad.
    unfold RT_I, RT_J, RT_K. cbn [vget vx vy vz].
    now rewrite !RT_MAX_idem, !RT_MIN_idem.
  - unfold round_bbox, RT_I, RT_J, RT_K. cbn [fst snd vget vx vy vz].
    now rewrite !RT_MAX_idem, !RT_MIN_idem.
  - unfold round_bbox, RT_I, RT_J, RT_K.
    cbn [fst snd vget vset vx vy vz].
    destruct (Qlt_bool par 0) eqn:Ep; destruct (Qgt_bool par 0) eqn:Eg;
      rewrite ?andb_false_r, ?andb_true_r;
      try (apply Qlt_bool_true in Ep; apply Qgt_bool_true in Eg; lra);
      rewrite !RT_MAX_idem, !RT_MIN_idem;
      destruct (Qle_bool (vz smin) 0) eqn:E1;
      destruct (Qle_bool 0 (vz smax)) eqn:E2;
      rewrite ?E1, ?E2; reflexivity.
  - unfold round_bbox, RT_I, RT_J, RT_K. cbn [fst snd vget vx vy vz].
    now rewrite !RT_MAX_idem, !RT_MIN_idem.
Qed.

End BoxTheorems.

(** * Axis mapping of boxes and accumulation of clippers *)

Section BoxMapping.

Context `{rt_Headers}.

(** Close a goal about mapped bounds: by arithmetic, or by refuting one
    of the decided comparisons. *)
Ltac close_bound :=
  first
    [ lra
    | exfalso;
      match goal with
      | Hn : ~ (_ == _)%Q |- _ => apply Hn; lra
      end ].

(** X5.  Mapping a world-space box to the local space of a surface
    ([invert_minmax]) and back ([direct_minmax]), for an axis mapping
    that addresses three different axes: a bound that is the infinity
    of its side comes back as that infinity; and when the position the
    two functions shift by is zero (a surface that is its own trnode,
    or one at the origin) every bound comes back as the same number. *)
Theorem direct_invert_roundtrip (s : rt_Surface) (smin smax : rt_vec3) :
  axis_map_injective s ->
  let b := direct_box s (invert_minmax s smin smax) in
  (forall a, (vget smin a == - RT_INF)%Q -> (vget (fst b) a == - RT_INF)%Q) /\
  (forall a, (vget smax a == RT_INF)%Q -> (vget (snd b) a == RT_INF)%Q) /\
  (vec3_eq (pps s) vzero -> box_eq b (smin, smax)).
Proof.
  cbv zeta.
  unfold axis_map_injective, box_eq, vec3_eq,
    direct_box, direct_minmax, invert_minmax, RT_I, RT_J, RT_K.
  generalize (pps s). intro p.
  destruct (mp_i s), (mp_j s), (mp_k s);
    intros (Hij & Hik & Hjk); try congruence; clear Hij Hik Hjk;
    destruct (0 <? iget (sgn s) RT_X), (0 <? iget (sgn s) RT_Y),
             (0 <? iget (sgn s) RT_Z);
    cbn [fst snd vget vset vx vy vz vzero vec3_val1];
    (split;
     [ intros a Ha; destruct a; cbn [vget vx vy vz] in *
     | split;
       [ intros a Ha; destruct a; cbn [vget vx vy vz] in *
       | intro Hp; pose proof (Hp RT_X) as Hpx; pose proof (Hp RT_Y) as Hpy;
         pose proof (Hp RT_Z) as Hpz; clear Hp;
         cbn [vget vx vy vz vzero vec3_val1] in Hpx, Hpy, Hpz;
         split; intro a; destruct a; cbn [vget vx vy vz] in * ] ]);
    repeat match goal with
    | |- context [Qeq_bool (?f smin) ?i] =>
        let E := fresh "E" in
        destruct (Qeq_bool (f smin) i) eqn:E;
        [apply Qeq_bool_iff in E | apply Qeq_bool_neq in E]
    | |- context [Qeq_bool (?f smax) ?i] =>
        let E := fresh "E" in
        destruct (Qeq_bool (f smax) i) eqn:E;
        [apply Qeq_bool_iff in E | apply Qeq_bool_neq in E]
    end;
    repeat match goal with
    | |- context [Qeq_bool ?a ?b] =>
        let E := fresh "E" in
        destruct (Qeq_bool a b) eqn:E;
        [apply Qeq_bool_iff in E | apply Qeq_bool_neq in E]
    end;
    try close_bound.
Qed.

Lemma box_within_refl (b : rt_box) : box_within b b.
Proof. split; intro a; apply Qle_refl. Qed.

Lemma box_within_trans (a b c : rt_box) :
  box_within a b -> box_within b c -> box_within a c.
Proof.
  intros [H1 H2] [H3 H4]. split; intro x.
  - eapply Qle_trans; [apply H3 | apply H1].
  - eapply Qle_trans; [apply H2 | apply H4].
Qed.

(** One clipper accumulating into a cbox can only tighten it. *)
Lemma recalc_accumulate_within (s : rt_Surface) (bbox c : rt_box)
    (b' : option rt_box) (c' : rt_box) :
  recalc_minmax s (Some bbox) false (Some c) = Some (b', Some c') ->
  box_within c' c.
Proof.
  unfold recalc_minmax. destruct bbox as [smin smax], c as [pmin pmax].
  destruct (invert_minmax s smin smax) as [tmin tmax].
  destruct (fst (adjust_minmax s tmin tmax true false)) as [[lmin lmax]|];
    [|discriminate].
  destruct (moved_bounds tmin tmax lmin lmax) as [mmin mmax].
  destruct (direct_minmax s mmin mmax) as [dmin dmax].
  intros [= _ <-]. unfold RT_VEC3_MAX, RT_VEC3_MIN.
  split; intro a; destruct a; cbn [fst snd vget vx vy vz];
    first [apply RT_MAX_ge_l | apply RT_MIN_le_l].
Qed.

(** X6.  The accumulation loop of [update_minmax] can only tighten the
    clipping box it starts from: whatever the custom clippers list
    holds, the accumulated box lies within the initial one. *)
Theorem scan_accum_shrinks (st : rt_store) (s : rt_Surface) (skip : rt_cell)
    (bbox cbox : rt_box) (l : list rt_ELEM) :
  box_within (scan_accum st s skip bbox cbox l) cbox.
Proof.
  revert skip cbox.
  induction l as [|elm rest IH]; intros skip cbox; cbn [scan_accum].
  - apply box_within_refl.
  - destruct (clipper_skipped st s (toggle_skip skip elm) elm); [apply IH|].
    destruct (temp elm) as [p|]; [|apply IH].
    destruct (recalc_minmax (st p) (Some bbox) false (Some cbox))
      as [[b' [c'|]]|] eqn:Hr; try apply IH.
    eapply box_within_trans; [apply IH|].
    eapply recalc_accumulate_within; exact Hr.
Qed.

End BoxMapping.

(** * rt_Camera::update: movement, rotation and the changed latch *)

Section CameraActions.

Context `{rt_Headers}.

(** X9.  Whatever the size of a non-negative step, no action takes the
    pitch out of [-180, 0]: looking up stops at level, looking down
    stops at straight down, and the other actions leave the pitch
    alone. *)
Theorem camera_pitch_clamped (c : rt_Camera) (time_ : rt_long)
    (action : camera_action) :
  (0 <= action_delta c time_ action)%Q ->
  pitch_range (cam_rot c RT_X) ->
  let c' := rt_Camera_update_action c time_ action in
  pitch_range (cam_rot c' RT_X) /\
  (action = RT_CAMERA_ROTATE_UP -> (cam_rot c RT_X <= cam_rot c' RT_X)%Q) /\
  (action = RT_CAMERA_ROTATE_DOWN -> (cam_rot c' RT_X <= cam_rot c RT_X)%Q) /\
  (action <> RT_CAMERA_ROTATE_UP -> action <> RT_CAMERA_ROTATE_DOWN ->
   cam_rot c' RT_X = cam_rot c RT_X).
Proof.
  intros Hd [H0 H1]. cbv zeta.
  unfold pitch_range, cam_rot, rt_Camera_update_action, action_delta in *.
  cbn [cam_obj set_trm trm] in *.
  remember (action_time c time_) as t eqn:Et. clear Et.
  destruct (trm (cam_obj c)) as [s r p]. destruct r as [rx ry rz].
  cbn [rot vget vx] in *.
  destruct action; unfold camera_action_trm, RT_I, RT_J, RT_K in *;
    cbn [pos rot scl set_pos set_rot vget vset vx vy vz
         dps drt hor_sin hor_cos cam_obj] in *;
    try (generalize dependent (vy (drt c) * t)%Q; intros d Hd);
    (split; [|split; [|split]]); try congruence; try discriminate;
    try (intros; reflexivity);
    try intros _;
    split_cmp; cbn [rot set_rot vget vx]; try split; lra.
Qed.

(** X10.  What an action never touches: the scale, the object's time,
    matrix, flags and pointers, the camera's deltas and cached sine and
    cosine; a movement leaves the rotation alone, a rotation the
    position, an unknown action the whole transform; and every action,
    known or not, raises the changed latch. *)
Theorem camera_action_frame (c : rt_Camera) (time_ : rt_long)
    (action : camera_action) :
  let c' := rt_Camera_update_action c time_ action in
  scl (trm (cam_obj c')) = scl (trm (cam_obj c)) /\
  set_trm (cam_obj c') (trm (cam_obj c)) = set_trm (cam_obj c) (trm (cam_obj c)) /\
  (dps c', drt c', hor_sin c', hor_cos c')
  = (dps c, drt c, hor_sin c, hor_cos c) /\
  (is_move action = true -> rot (trm (cam_obj c')) = rot (trm (cam_obj c))) /\
  (is_rotate action = true -> cam_pos c' = cam_pos c) /\
  (is_move action = false -> is_rotate action = false ->
   trm (cam_obj c') = trm (cam_obj c)) /\
  cam_changed c' = RT_UPDATE_FLAG_ARR.
Proof.
  cbv zeta. unfold rt_Camera_update_action, cam_pos.
  cbn [cam_obj set_trm trm dps drt hor_sin hor_cos cam_changed
       this tag f_anim time mtx obj_changed obj_has_trm mtx_has_trm
       trnode bvnode trb_trnode].
  repeat split; try reflexivity;
    destruct action; cbn; try discriminate; try reflexivity;
    intros; unfold camera_action_trm;
    repeat match goal with
    | |- context [if ?b then _ else _] => destruct b
    end; reflexivity.
Qed.

(** X11.  An action is never lost: the next [rt_Camera::update] that
    carries the OBJ flag recomputes the camera even when nothing else
    in the hierarchy changed (the object comes out changed, the cached
    sine and cosine of the heading are refreshed, the latch is cleared);
    an update without the OBJ flag does nothing and keeps the latch. *)
Theorem camera_action_picked_up (opts : rt_cell) (parents : list rt_Object)
    (c : rt_Camera) (t0 time_ : rt_long) (action : camera_action)
    (mtx_ : rt_mat4) (flags : rt_cell) :
  RT_UPDATE_FLAG_ARR <> 0 ->
  let c1 := rt_Camera_update_action c t0 action in
  let c2 := fst (rt_Camera_update opts parents c1 time_ mtx_ flags) in
  (Z.land flags RT_UPDATE_FLAG_OBJ <> 0 ->
   obj_changed (cam_obj c2) = RT_UPDATE_FLAG_ARR /\
   cam_changed c2 = 0 /\
   hor_sin c2 = RT_SINA (cam_rot c2 RT_Z) /\
   hor_cos c2 = RT_COSA (cam_rot c2 RT_Z)) /\
  (Z.land flags RT_UPDATE_FLAG_OBJ = 0 ->
   c2 = c1 /\ cam_changed c2 = RT_UPDATE_FLAG_ARR).
Proof.
  intros Harr. cbv zeta. unfold rt_Camera_update. split; intro Hobj.
  - apply Z.eqb_neq in Hobj. rewrite Hobj.
    set (c1 := rt_Camera_update_action c t0 action).
    assert (Hch : obj_changed
                    (fst (rt_Object_update opts parents (cam_obj c1) time_
                            mtx_ (Z.lor flags (cam_changed c1))))
                  = RT_UPDATE_FLAG_ARR).
    { unfold rt_Object_update.
      change (cam_changed c1) with RT_UPDATE_FLAG_ARR.
      rewrite lor_land_same.
      destruct (f_anim (cam_obj c1));
        [destruct (negb (time (cam_obj c1) =? time_))|];
        cbv beta iota zeta;
        apply Z.eqb_neq in Harr; rewrite Harr;
        repeat match goal with
        | |- context [let '(_, _) := ?m in _] => destruct m
        end; reflexivity. }
    destruct (rt_Object_update opts parents (cam_obj c1) time_ mtx_
                (Z.lor flags (cam_changed c1))) as [o1 log].
    cbn [fst] in Hch. rewrite Hch.
    apply Z.eqb_neq in Harr. rewrite Harr. cbn. auto.
  - apply Z.eqb_eq in Hobj. rewrite Hobj. cbn. auto.
Qed.

End CameraActions.

(** * update_bvnode over a hierarchy; add_relation on an existing list *)

Section TreeAndList.

Context `{rt_Headers}.

Lemma update_bvnode_object_roundtrip (o : rt_Object) (a : ptr) :
  bvnode o <> Some a ->
  rt_Object_update_bvnode (rt_Object_update_bvnode o (Some a) true)
                          (Some a) false = o.
Proof.
  intro Hb. unfold rt_Object_update_bvnode at 2.
  destruct (ptr_eqb (Some a) (Some (this o))) eqn:Es.
  - unfold rt_Object_update_bvnode. now rewrite Es.
  - unfold rt_Object_update_bvnode. cbn [this bvnode andb negb].
    rewrite Es. destruct o as [th tg tr fa ti mx oc oh mh tn bv tb].
    cbn [this tag trm f_anim time mtx obj_changed obj_has_trm mtx_has_trm
         trnode bvnode trb_trnode] in *.
    destruct bv as [c|]; cbn [ptr_eqb].
    + destruct (Nat.eqb c a) eqn:Ec; [|reflexivity].
      apply Nat.eqb_eq in Ec. congruence.
    + rewrite Nat.eqb_refl. reflexivity.
Qed.

(** X12.  Binding a hierarchy to a bounding-volume array and then
    untying it from the same array leaves every object as it was,
    provided no object of the hierarchy was bound to that array before
    (as is the case after [rt_Object::update], which clears every
    binding). *)
Theorem update_bvnode_bind_untie (t : rt_Tree) (a : ptr) :
  Forall (fun o => bvnode o <> Some a) (tree_objects t) ->
  update_bvnode (update_bvnode t (Some a) true) (Some a) false = t.
Proof.
  revert t. fix IH 1. intros [o children] Hall.
  cbn [tree_objects] in Hall. apply Forall_cons_iff in Hall as [Ho Hc].
  assert (Hch : map (fun c => update_bvnode c (Some a) false)
                    (map (fun c => update_bvnode c (Some a) true) children)
                = children).
  { clear Ho. induction children as [|c cs IHc]; cbn [map]; [reflexivity|].
    cbn [flat_map] in Hc. apply Forall_app in Hc as [Hc1 Hc2].
    rewrite (IH c Hc1), (IHc Hc2). reflexivity. }
  cbn [update_bvnode].
  destruct (tag o) eqn:Et; cbn [update_bvnode];
    unfold rt_Camera_update_bvnode, rt_Light_update_bvnode,
      rt_Node_update_bvnode;
    try (assert (Ht' : tag (rt_Object_update_bvnode o (Some a) true) = tag o)
           by (unfold rt_Object_update_bvnode;
               destruct (ptr_eqb (Some a) (Some (this o))); reflexivity);
         rewrite Ht', Et);
    rewrite ?Et;
    unfold rt_Camera_update_bvnode, rt_Light_update_bvnode,
      rt_Node_update_bvnode;
    rewrite ?update_bvnode_object_roundtrip by assumption;
    rewrite ?Hch; reflexivity.
Qed.

Lemma subseq_refl {A : Type} (l : list A) : subseq l l.
Proof. induction l; constructor; assumption. Qed.

Lemma subseq_trans {A : Type} (a b c : list A) :
  subseq a b -> subseq b c -> subseq a c.
Proof.
  intros Hab Hbc. revert a Hab.
  induction Hbc as [|x l l' Hll IH|x l l' Hll IH]; intros a Hab.
  - exact Hab.
  - inversion Hab; subst.
    + constructor. now apply IH.
    + apply subseq_skip. now apply IH.
  - apply subseq_skip. now apply IH.
Qed.

Lemma subseq_insert {A : Type} (pre post : list A) (x : A) :
  subseq (pre ++ post) (pre ++ x :: post).
Proof.
  induction pre as [|p pre IH]; cbn.
  - apply subseq_skip, subseq_refl.
  - now apply subseq_keep.
Qed.

Lemma subseq_insert_after (n : nat) (elm : rt_ELEM) (l : list rt_ELEM) :
  subseq l (insert_after n elm l).
Proof.
  unfold insert_after.
  rewrite <- (firstn_skipn (S n) l) at 1. apply subseq_insert.
Qed.

(** What one clipper adds to the list: itself, and at most one trnode
    element. *)
Lemma insert_clipper_grows rel (srf : rt_Object) (h : rt_heap)
    (l : list rt_ELEM) :
  let r := insert_clipper rel srf (h, l) in
  subseq l (snd r) /\
  (S (List.length l) <= List.length (snd r) <= S (S (List.length l)))%nat.
Proof.
  cbv zeta. unfold insert_clipper.
  assert (Hhead : forall x : rt_ELEM,
             subseq l (x :: l) /\
             (S (List.length l) <= List.length (x :: l)
              <= S (S (List.length l)))%nat).
  { intro x. split; [apply subseq_skip, subseq_refl | cbn; lia]. }
  destruct (trnode srf) as [tn|]; [|apply Hhead].
  destruct (negb (Nat.eqb tn (this srf))); [|apply Hhead].
  destruct (find_trnode_elem tn 0 l) as [n|]; cbn [snd].
  - split; [apply subseq_insert_after|].
    pose proof (f_equal (@List.length rt_ELEM) (firstn_skipn (S n) l))
      as Hfs.
    rewrite length_app in Hfs.
    unfold insert_after. rewrite length_app. cbn [List.length]. lia.
  - split; [do 2 apply subseq_skip; apply subseq_refl | cbn; lia].
Qed.

Lemma add_relation_obj_grows rel (t : rt_Tree) :
  forall st,
    let r := add_relation_obj rel t st in
    subseq (snd st) (snd r) /\
    (List.length (snd st) + tree_surfaces t <= List.length (snd r)
     <= List.length (snd st) + 2 * tree_surfaces t)%nat.
Proof.
  revert t. fix IH 1. intros [o children] st. cbv zeta.
  cbn [add_relation_obj tree_surfaces].
  destruct (RT_IS_ARRAY (tag o)).
  - revert st. induction children as [|c cs IHc]; intro st;
      cbn [fold_left fold_right].
    + clear IH. split; [apply subseq_refl | lia].
    + destruct (IH c (S (fst st), snd st)) as [Hs Hl]. cbn [snd] in Hs, Hl.
      destruct (IHc (add_relation_obj rel c (S (fst st), snd st)))
        as [Hs' Hl'].
      split; [eapply subseq_trans; eassumption |].
      clear IH IHc.
      set (F := fold_right _ _ cs) in *.
      set (L1 := List.length (snd st)) in *.
      set (L2 := List.length (snd (add_relation_obj rel c _))) in *.
      set (L3 := List.length (snd (fold_left _ _ _))) in *.
      lia.
  - clear IH. destruct (RT_IS_SURFACE (tag o)).
    + destruct st as [h l]. cbn [snd].
      destruct (insert_clipper_grows rel o h l) as [Hs Hl].
      split; [exact Hs | lia].
    + split; [apply subseq_refl | lia].
Qed.

Lemma add_relation_list_grows (lst : list rt_TEMPLATE) :
  forall st,
    subseq (snd st) (snd (add_relation_list lst st)) /\
    (List.length (snd st) + template_elements lst
     <= List.length (snd (add_relation_list lst st))
     <= List.length (snd st) + 2 * template_elements lst)%nat.
Proof.
  unfold add_relation_list.
  induction lst as [|e lst IH]; intro st;
    cbn [fold_left template_elements fold_right].
  - split; [apply subseq_refl | lia].
  - fold (template_elements lst).
    destruct (t_temp e) as [t|].
    + destruct (add_relation_obj_grows (t_data e) t st) as [Hs Hl].
      destruct (IH (add_relation_obj (t_data e) t st)) as [Hs' Hl'].
      split; [eapply subseq_trans; eassumption | lia].
    + destruct (IH (S (fst st),
                    mk_ELEM (fst st) (t_data e) None None :: snd st))
        as [Hs' Hl'].
      cbn [snd List.length] in *.
      split; [|lia].
      eapply subseq_trans; [|exact Hs'].
      apply subseq_skip, subseq_refl.
Qed.

(** X13.  [rt_Surface::add_relation] only ever adds to the custom
    clippers list: the elements the list held are all still there, in
    the same order; every marker of the template and every surface it
    names (directly or through an array) adds one element, and each such
    surface at most one trnode element more. *)
Theorem add_relation_keeps_elements (s : rt_Surface) (h : rt_heap)
    (lst : list rt_TEMPLATE) :
  let s' := snd (rt_Surface_add_relation s h lst) in
  subseq (clippers s) (clippers s') /\
  (List.length (clippers s) + template_elements lst
   <= List.length (clippers s')
   <= List.length (clippers s) + 2 * template_elements lst)%nat /\
  set_clippers s' (clippers s) = set_clippers s (clippers s).
Proof.
  cbv zeta. unfold rt_Surface_add_relation.
  destruct (add_relation_list_grows lst (h, clippers s)) as [Hs Hl].
  destruct (add_relation_list lst (h, clippers s)) as [h1 l1].
  cbn [snd set_clippers clippers] in *. repeat split; auto; apply Hl.
Qed.

End TreeAndList.

(** * rt_Node::update: axis mapping read off a matrix *)

Section AxisMapping.

Context `{rt_Macros}.

Lemma axis_eq_dec (a b : axis) : {a = b} + {a <> b}.
Proof. decide equality. Defined.

Lemma nonzero_true (x : rt_real) : nonzero x = true <-> ~ (x == 0)%Q.
Proof.
  unfold nonzero. rewrite negb_true_iff. split.
  - intros E Hx. apply Qeq_bool_iff in Hx. congruence.
  - intro Hx. destruct (Qeq_bool x 0) eqn:E; [|reflexivity].
    apply Qeq_bool_iff in E. contradiction.
Qed.

Lemma nonzero_false (x : rt_real) : nonzero x = false <-> (x == 0)%Q.
Proof.
  unfold nonzero. rewrite negb_false_iff. apply Qeq_bool_iff.
Qed.

Lemma basis_row_nonzero (r : rt_vec3) (j c : axis) :
  basis_row r j ->
  nonzero (vget r c) = if axis_eq_dec c j then true else false.
Proof.
  intro Hb. destruct (axis_eq_dec c j) as [e|e].
  - apply nonzero_true. intro Hz. apply (Hb c) in Hz. contradiction.
  - apply nonzero_false. now apply Hb.
Qed.

Lemma basis_row_pattern (r : rt_vec3) (j j' : axis) :
  basis_row r j ->
  same_pattern r (mrow iden4 j') = if axis_eq_dec j' j then true else false.
Proof.
  intro Hb. unfold same_pattern.
  pose proof (basis_row_nonzero RT_X Hb) as Hx.
  pose proof (basis_row_nonzero RT_Y Hb) as Hy.
  pose proof (basis_row_nonzero RT_Z Hb) as Hz.
  cbn [vget] in Hx, Hy, Hz. rewrite Hx, Hy, Hz.
  destruct j, j'; reflexivity.
Qed.

Lemma axis_step_other (m : rt_mat3) (i' j i : axis) (ax : rt_axes) :
  i <> i' -> axes_at (axis_step m i' ax j) i = axes_at ax i.
Proof.
  intro Hne. unfold axis_step, axes_at.
  destruct (same_pattern (mrow m i') (mrow iden4 j)); [|reflexivity].
  destruct i, i'; try congruence; reflexivity.
Qed.

Lemma row_steps_other (m : rt_mat3) (i' i : axis) (ax : rt_axes) :
  i <> i' -> axes_at (row_steps m i' ax) i = axes_at ax i.
Proof.
  intro Hne. unfold row_steps, all_axes. cbn [fold_left].
  now rewrite !axis_step_other.
Qed.

Lemma row_steps_match (m : rt_mat3) (i j : axis) (ax : rt_axes) :
  basis_row (mrow m i) j ->
  axes_at (row_steps m i ax) i
  = (j, RT_SIGN (mget m i j), RT_FABS (mget m i j)).
Proof.
  intro Hb. unfold row_steps, all_axes. cbn [fold_left].
  unfold axis_step.
  rewrite !(basis_row_pattern _ Hb).
  destruct j, i; cbn; reflexivity.
Qed.

Lemma row_steps_nomatch (m : rt_mat3) (i : axis) (ax : rt_axes) :
  no_basis_row (mrow m i) -> row_steps m i ax = ax.
Proof.
  intro Hn. unfold row_steps, all_axes. cbn [fold_left].
  unfold axis_step. now rewrite !Hn.
Qed.

Lemma axis_mapping_rows (m : rt_mat3) (ax : rt_axes) :
  axis_mapping m ax
  = row_steps m RT_Z (row_steps m RT_Y (row_steps m RT_X ax)).
Proof. reflexivity. Qed.

(** The entries of row [i] after the double loop are those the three
    steps of row [i] leave, whatever the other rows did. *)
Lemma axis_mapping_at (m : rt_mat3) (ax : rt_axes) (i : axis) :
  exists ax', axes_at (axis_mapping m ax) i = axes_at (row_steps m i ax') i /\
              axes_at ax' i = axes_at ax i.
Proof.
  rewrite axis_mapping_rows. destruct i.
  - exists ax. split; [|reflexivity].
    rewrite !row_steps_other by discriminate. reflexivity.
  - exists (row_steps m RT_X ax). split.
    + rewrite row_steps_other by discriminate. reflexivity.
    + now rewrite row_steps_other by discriminate.
  - exists (row_steps m RT_Y (row_steps m RT_X ax)). split; [reflexivity|].
    now rewrite !row_steps_other by discriminate.
Qed.

Lemma sign_times_abs (x : rt_real) :
  RT_SIGN_signs -> ~ (x == 0)%Q ->
  (RT_SIGN x = 1 \/ RT_SIGN x = -1) /\
  (0 < RT_FABS x)%Q /\
  (inject_Z (RT_SIGN x) * RT_FABS x == x)%Q.
Proof.
  intros [Hp Hn] Hx. unfold RT_FABS.
  destruct (Qlt_bool x 0) eqn:E.
  - apply Qlt_bool_true in E. rewrite (Hn x E).
    split; [now right|]. split; [lra|].
    change (inject_Z (-1)) with (-(1))%Q. lra.
  - apply Qlt_bool_false in E.
    assert (0 < x)%Q as Hpos.
    { apply Qle_lteq in E as [E|E]; [exact E|]. symmetry in E. contradiction. }
    rewrite (Hp x Hpos). split; [now left|]. split; [lra|].
    change (inject_Z 1) with 1%Q. lra.
Qed.

(** What the double loop leaves for a row that is a non-zero multiple
    of a basis vector. *)
Lemma axis_mapping_basis (m : rt_mat3) (ax0 : rt_axes) (i j : axis) :
  RT_SIGN_signs ->
  basis_row (mrow m i) j ->
  let ax := axis_mapping m ax0 in
  aget (a_map ax) i = j /\
  (iget (a_sgn ax) i = 1 \/ iget (a_sgn ax) i = -1) /\
  (0 < vget (a_scl ax) i)%Q /\
  forall c,
    (mget m i c
     == inject_Z (iget (a_sgn ax) i) * vget (a_scl ax) i
        * mget iden4 (aget (a_map ax) i) c)%Q.
Proof.
  intros Hsig Hb ax.
  destruct (axis_mapping_at m ax0 i) as (ax' & Hat & Hsame). fold ax in Hat.
  rewrite (@row_steps_match m i j ax' Hb) in Hat.
  unfold axes_at in Hat. injection Hat as Hm Hs Hc.
  assert (Hnz : ~ (mget m i j == 0)%Q).
  { intro Hz. apply (Hb j) in Hz. congruence. }
  destruct (@sign_times_abs (mget m i j) Hsig Hnz) as (Hsgn & Hpos & Hprod).
  rewrite Hm, Hs, Hc. repeat split; auto.
  intro c. rewrite Hprod.
  destruct (axis_eq_dec c j) as [-> | Hne].
  - assert (mget iden4 j j == 1)%Q as -> by (destruct j; reflexivity).
    lra.
  - assert (mget iden4 j c == 0)%Q as ->
      by (destruct j, c; try congruence; reflexivity).
    unfold mget. rewrite (proj2 (Hb c) Hne). lra.
Qed.

(** X14.  Axis map extraction.  For a row of the matrix that is a
    non-zero multiple of a basis vector, the double loop of
    [rt_Node::update] records the axis of that vector in [map], a sign
    of +1 or -1 in [sgn] and a positive scale in [scl], and the row is
    recovered from them (entry c of row i is sgn[i] * scl[i] times entry
    c of row map[i] of the identity), whatever the three arrays held
    before; a row that matches no basis pattern leaves its three entries
    as they were. *)
Theorem axis_mapping_extracts (m : rt_mat3) (ax0 : rt_axes) (i : axis) :
  RT_SIGN_signs ->
  let ax := axis_mapping m ax0 in
  (forall j,
     basis_row (mrow m i) j ->
     aget (a_map ax) i = j /\
     (iget (a_sgn ax) i = 1 \/ iget (a_sgn ax) i = -1) /\
     (0 < vget (a_scl ax) i)%Q /\
     forall c,
       (mget m i c
        == inject_Z (iget (a_sgn ax) i) * vget (a_scl ax) i
           * mget iden4 (aget (a_map ax) i) c)%Q) /\
  (no_basis_row (mrow m i) -> axes_at ax i = axes_at ax0 i).
Proof.
  intros Hsig ax. split.
  - intros j Hb. now apply axis_mapping_basis.
  - intro Hn.
    destruct (axis_mapping_at m ax0 i) as (ax' & Hat & Hsame).
    fold ax in Hat.
    rewrite (@row_steps_nomatch m i ax' Hn) in Hat. congruence.
Qed.

Lemma axis_matrix_entry (ax : rt_axes) (i j : axis) :
  mget (axis_matrix ax) i j
  = if axis_eq_dec j (aget (a_map ax) i)
    then inject_Z (iget (a_sgn ax) i) else 0%Q.
Proof.
  unfold axis_matrix, all_axes. cbn [fold_left].
  destruct i, j;
    destruct (aget (a_map ax) RT_X), (aget (a_map ax) RT_Y),
      (aget (a_map ax) RT_Z); reflexivity.
Qed.

(** X15.  Separation of the axis mapping from a matrix that scales
    along permuted axes (every row a non-zero multiple of a different
    basis vector): the second loop of [rt_Node::update] leaves a
    diagonal matrix with positive entries, and the matrix of the axis
    mapping built by [rt_Array::update] times that diagonal matrix is
    the original matrix. *)
Theorem separate_scale_decomposes (m : rt_mat3) (ax0 : rt_axes)
    (p : axis -> axis) :
  RT_SIGN_signs ->
  axis_aligned m p ->
  injective p ->
  let ax := axis_mapping m ax0 in
  let sep := separate_scale ax m in
  let axm := axis_matrix ax in
  (forall j c, j <> c -> (mget sep j c == 0)%Q) /\
  (forall j, (0 < mget sep j j)%Q) /\
  (forall i c, (mmul_entry axm sep i c == mget m i c)%Q).
Proof.
  intros Hsig Hal Hinj. cbv zeta.
  destruct (@axis_mapping_basis m ax0 RT_X (p RT_X) Hsig (Hal RT_X))
    as (Hmx & Hsx & Hpx & Hdx).
  destruct (@axis_mapping_basis m ax0 RT_Y (p RT_Y) Hsig (Hal RT_Y))
    as (Hmy & Hsy & Hpy & Hdy).
  destruct (@axis_mapping_basis m ax0 RT_Z (p RT_Z) Hsig (Hal RT_Z))
    as (Hmz & Hsz & Hpz & Hdz).
  pose proof (Hinj RT_X RT_Y) as Ixy.
  pose proof (Hinj RT_X RT_Z) as Ixz.
  pose proof (Hinj RT_Y RT_Z) as Iyz.
  set (ax := axis_mapping m ax0) in *.
  unfold mmul_entry. setoid_rewrite axis_matrix_entry.
  unfold separate_scale, all_axes. cbn [fold_left].
  rewrite Hmx, Hmy, Hmz. clear Hal Hinj.
  revert Hmx Hmy Hmz Hdx Hdy Hdz Ixy Ixz Iyz.
  destruct (p RT_X), (p RT_Y), (p RT_Z);
    intros Hmx Hmy Hmz Hdx Hdy Hdz Ixy Ixz Iyz;
    try discriminate (Ixy eq_refl); try discriminate (Ixz eq_refl);
    try discriminate (Iyz eq_refl); clear Ixy Ixz Iyz;
    pose proof (Hdx RT_X) as Hxx; pose proof (Hdx RT_Y) as Hxy;
    pose proof (Hdx RT_Z) as Hxz; pose proof (Hdy RT_X) as Hyx;
    pose proof (Hdy RT_Y) as Hyy; pose proof (Hdy RT_Z) as Hyz;
    pose proof (Hdz RT_X) as Hzx; pose proof (Hdz RT_Y) as Hzy;
    pose proof (Hdz RT_Z) as Hzz; clear Hdx Hdy Hdz;
    rewrite Hmx, Hmy, Hmz in *;
    cbn [mget mrow iden4 m_row0 m_row1 m_row2 vget vx vy vz] in *;
    destruct Hsx as [Hsx|Hsx], Hsy as [Hsy|Hsy], Hsz as [Hsz|Hsz];
    rewrite Hsx, Hsy, Hsz in *;
    change (inject_Z 1) with 1%Q in *;
    change (inject_Z (-1)) with (-(1))%Q in *;
    (split;
     [ intros j c Hne; destruct j, c; try congruence;
       cbn [mget mrow mset_row vscale iden4 m_row0 m_row1 m_row2
            vget vx vy vz]; lra
     | split;
       [ intro j; destruct j;
         cbn [mget mrow mset_row vscale iden4 m_row0 m_row1 m_row2
              vget vx vy vz]; lra
       | intros i c; destruct i, c;
         cbn [mget mrow mset_row vscale iden4 m_row0 m_row1 m_row2
              vget vx vy vz];
         rewrite ?Hmx, ?Hmy, ?Hmz, ?Hsx, ?Hsy, ?Hsz;
         change (inject_Z 1) with 1%Q;
         change (inject_Z (-1)) with (-(1))%Q;
         repeat match goal with
         | |- context [axis_eq_dec ?a ?b] => destruct (axis_eq_dec a b)
         end; try congruence; lra ] ]).
Qed.

End AxisMapping.

(** * rt_Array::update: the relations loop *)

Section ArrayRelationsTheorems.

Context `{rt_Headers} `{rt_Macros}.

Lemma sub_in_range (l : list rt_Tree) (k : rt_cell) :
  0 <= k -> k < Z.of_nat (List.length l) -> exists t, sub l k = Some t.
Proof.
  intros Hge Hlt. unfold sub.
  destruct (Z.ltb_spec k 0) as [Hneg|_]; [lia|].
  destruct (nth_error l (Z.to_nat k)) as [t|] eqn:E; [now exists t|].
  apply nth_error_None in E. lia.
Qed.

Lemma clipper_template_intro (k : rel_kind) (t : rt_Tree) :
  k = REL_MINUS_INNER \/ k = REL_MINUS_OUTER ->
  clipper_template (mk_TEMPLATE (rel_data k) (Some t)).
Proof.
  intros [-> | ->]; split; cbn; auto; discriminate.
Qed.

(** Read the array elements a step addresses. *)
Ltac read_sub :=
  repeat match goal with
  | |- context [sub ?l ?k] =>
      let t := fresh "t" in
      let Ht := fresh "Ht" in
      destruct (@sub_in_range l k) as [t Ht]; [lia | cbn; lia |];
      rewrite Ht; cbn [opt_bind]
  end.

Lemma rel_finish_spec (opts : rt_cell) (this : rt_Tree) (r : rt_RELATION)
    (st : rel_state) (elm : option (list rt_TEMPLATE))
    (bv : option (rt_Tree * rt_Tree * bool)) :
  (elm = None \/ obj1 r < Z.of_nat (List.length (rs_l st))) ->
  exists st' calls,
    rel_finish opts this r st elm bv = Some (st', calls) /\
    rs_lst st' = rs_lst st /\ rs_acc st' = rs_acc st /\
    (forall c, In c calls ->
       (exists t e, c = Call_add_relation t e /\ elm = Some e /\
                    0 <= obj1 r) \/
       (exists obj arr mode,
          c = Call_update_bvnode obj arr mode /\ bv = Some (obj, arr, mode))).
Proof.
  intro Hl. unfold rel_finish.
  assert (Hfirst :
    exists st1 calls1,
      match elm with
      | Some e =>
          if 0 <=? obj1 r
          then opt_bind (sub (rs_l st) (obj1 r))
                 (fun t => Some (set_l st (tree_arr this),
                                 [Call_add_relation t e]))
          else Some (st, [])
      | None => Some (st, [])
      end = Some (st1, calls1) /\
      rs_lst st1 = rs_lst st /\ rs_acc st1 = rs_acc st /\
      (forall c, In c calls1 ->
         exists t e, c = Call_add_relation t e /\ elm = Some e /\
                     0 <= obj1 r)).
  { destruct elm as [e|].
    - destruct Hl as [Hl | Hl]; [discriminate|].
      destruct (Z.leb_spec 0 (obj1 r)).
      + destruct (@sub_in_range (rs_l st) (obj1 r)) as [t Ht]; [lia|lia|].
        rewrite Ht. cbn [opt_bind]. do 2 eexists. split; [reflexivity|].
        repeat split. intros c [<- | []]. eauto.
      + do 2 eexists. split; [reflexivity|]. repeat split. intros c [].
    - do 2 eexists. split; [reflexivity|]. repeat split. intros c []. }
  destruct Hfirst as (st1 & calls1 & -> & Hlst & Hacc & Hc1).
  cbn [opt_bind].
  destruct bv as [[[obj arr] mode]|].
  - do 2 eexists. split; [reflexivity|].
    split; [|split].
    + destruct (0 <=? obj1 r), (0 <=? obj2 r); cbn; assumption.
    + destruct (0 <=? obj1 r), (0 <=? obj2 r); cbn; assumption.
    + intros c Hin. apply in_app_or in Hin as [Hin | Hin].
      * left. now apply Hc1.
      * right. destruct (negb (Z.land opts RT_OPTS_VARRAY =? 0));
          [|destruct Hin].
        destruct Hin as [<- | []]. eauto.
  - do 2 eexists. split; [reflexivity|]. repeat split; auto.
Qed.

Lemma pending_shape_same (st st' : rel_state) :
  rs_lst st' = rs_lst st -> rs_acc st' = rs_acc st ->
  pending_shape st -> pending_shape st'.
Proof. unfold pending_shape. intros -> ->. auto. Qed.

(** Run the statements after the [switch] and name what they return. *)
Ltac run_finish :=
  match goal with
  | |- context [rel_finish ?o ?t ?r ?s ?e ?b] =>
      let st' := fresh "st'" in
      let calls := fresh "calls" in
      let Hf := fresh "Hf" in
      let Hlst := fresh "Hlst" in
      let Hacc := fresh "Hacc" in
      let Hcalls := fresh "Hcalls" in
      destruct (@rel_finish_spec o t r s e b)
        as (st' & calls & Hf & Hlst & Hacc & Hcalls);
      [ first [now left | right; cbn; lia]
      | rewrite Hf; cbn [rs_lst rs_acc set_l set_r] in Hlst, Hacc;
        exists st', calls; split; [reflexivity|] ]
  end.

(** No call at all came out of the statements after the [switch]. *)
Ltac no_calls Hcalls :=
  apply Forall_forall; intros c Hin;
  destruct (Hcalls c Hin)
    as [(t' & e' & _ & He & Hge) | (o' & a' & m' & _ & Hb)];
  try discriminate; try lia.

(** The pending template after a step, from the one before it. *)
Ltac shape_pending Hp Hlst Hacc :=
  unfold pending_shape in *; rewrite Hlst, Hacc;
  destruct Hp as [[Ha Hl0] | [Ha (cs & Hne & Hall & Hl0)]]; try lia;
  rewrite ?Hl0;
  first
    [ left; split; [lia | reflexivity]
    | right; split; [lia|]; exists cs; repeat split; assumption
    | right; split; [lia|];
      match goal with
      | |- exists cs', _ /\ _ /\ ?c :: ?m :: [] = _ =>
          exists [c]; split; [discriminate|]; split; [|reflexivity];
          repeat constructor; cbn; auto; discriminate
      | |- exists cs', _ /\ _ /\ ?c :: cs ++ _ = _ =>
          exists (c :: cs); split; [discriminate|]; split; [|reflexivity];
          constructor; [|assumption];
          repeat constructor; cbn; auto; discriminate
      end ].

(** The shape of every call that came out of a step. *)
Ltac shape_calls Hp Hcalls :=
  apply Forall_forall; intros c Hin;
  destruct (Hcalls c Hin)
    as [(t' & e' & -> & He & Hge) | (o' & a' & m' & -> & Hb)];
  [ try lia; try discriminate; injection He as <-; cbn [call_shape];
    first
      [ left; eexists; split; [reflexivity|];
        split; cbn; auto; discriminate
      | right; unfold pending_shape in Hp;
        destruct Hp as [[Ha Hl0] | [Ha (cs & Hne & Hall & Hl0)]];
        [lia|]; exists cs; rewrite Hl0; repeat split; assumption ]
  | try discriminate; injection Hb as <- <- <-; cbn [call_shape];
    cbn [tree_obj]; try assumption ].

Lemma rel_step_spec (opts : rt_cell) (this : rt_Tree) (st : rel_state)
    (r : rt_RELATION) :
  exists st' calls,
    rel_step opts this st r = Some (st', calls) /\
    (pending_shape st -> RT_IS_ARRAY (tag (tree_obj this)) = true ->
     pending_shape st' /\ Forall call_shape calls).
Proof.
  unfold rel_step.
  destruct (Z.leb_spec (Z.of_nat (List.length (rs_l st))) (obj1 r)) as [Hl|Hl];
    cbn [orb].
  { exists st, []. split; [reflexivity|]. intros Hp _. now split. }
  destruct (Z.leb_spec (Z.of_nat (List.length (rs_r st))) (obj2 r)) as [Hr|Hr].
  { exists st, []. split; [reflexivity|]. intros Hp _. now split. }
  destruct (rel r) eqn:Ek.
  - (* INDEX_ARRAY *)
    unfold when_array.
    destruct (Z.leb_spec 0 (obj1 r)); destruct (Z.leb_spec (-1) (obj2 r));
      destruct (Z.leb_spec (-1) (obj1 r)); destruct (Z.leb_spec 0 (obj2 r));
      cbn [andb opt_bind]; try lia;
      repeat match goal with
      | |- context [sub ?l ?k] =>
          let t := fresh "t" in
          let Ht := fresh "Ht" in
          destruct (@sub_in_range l k) as [t Ht];
          [lia | try (destruct (RT_IS_ARRAY _)); cbn; lia |];
          rewrite Ht; cbn [opt_bind]
      end;
      run_finish; intros Hp _;
      (split; [eapply pending_shape_same; [exact Hlst | exact Hacc |];
               repeat match goal with
               | |- context [if ?b then _ else _] => destruct b
               end; exact Hp
              | no_calls Hcalls]).
  - (* MINUS_INNER *)
    destruct (Z.eqb_spec (obj1 r) (-1)) as [E1|E1];
      destruct (Z.leb_spec 0 (obj2 r)) as [E2|E2];
      destruct (Z.eqb_spec (rs_acc st) 0) as [E3|E3];
      destruct (Z.leb_spec (-1) (obj1 r)) as [E4|E4];
      cbn [andb opt_bind]; try lia;
      read_sub; cbv beta iota zeta; cbn [andb opt_bind];
      run_finish; intros Hp Harr;
      (split; [shape_pending Hp Hlst Hacc | shape_calls Hp Hcalls]).
  - (* MINUS_OUTER *)
    destruct (Z.eqb_spec (obj1 r) (-1)) as [E1|E1];
      destruct (Z.leb_spec 0 (obj2 r)) as [E2|E2];
      destruct (Z.eqb_spec (rs_acc st) 0) as [E3|E3];
      destruct (Z.leb_spec (-1) (obj1 r)) as [E4|E4];
      cbn [andb opt_bind]; try lia;
      read_sub; cbv beta iota zeta; cbn [andb opt_bind];
      run_finish; intros Hp Harr;
      (split; [shape_pending Hp Hlst Hacc | shape_calls Hp Hcalls]).
  - (* MINUS_ACCUM *)
    destruct (Z.leb_spec 0 (obj1 r)) as [E1|E1];
      destruct (Z.eqb_spec (obj2 r) (-1)) as [E2|E2];
      destruct (Z.eqb_spec (rs_acc st) 1) as [E3|E3];
      cbn [andb]; run_finish; intros Hp Harr;
      (split; [shape_pending Hp Hlst Hacc | shape_calls Hp Hcalls]).
  - (* BOUND_ARRAY *)
    destruct (Z.eqb_spec (obj1 r) (-1)) as [E1|E1];
      destruct (Z.eqb_spec (obj2 r) (-1)) as [E2|E2];
      destruct (Z.leb_spec 0 (obj2 r)) as [E3|E3];
      cbn [andb opt_bind]; try lia; read_sub;
      try match goal with
          | |- context [if RT_IS_ARRAY ?x then _ else _] =>
              destruct (RT_IS_ARRAY x) eqn:Ea
          end; cbn [opt_bind];
      run_finish; intros Hp Harr;
      (split; [shape_pending Hp Hlst Hacc | shape_calls Hp Hcalls]).
  - (* UNTIE_ARRAY *)
    destruct (Z.eqb_spec (obj1 r) (-1)) as [E1|E1];
      destruct (Z.eqb_spec (obj2 r) (-1)) as [E2|E2];
      destruct (Z.leb_spec 0 (obj2 r)) as [E3|E3];
      cbn [andb opt_bind]; try lia; read_sub;
      try match goal with
          | |- context [if RT_IS_ARRAY ?x then _ else _] =>
              destruct (RT_IS_ARRAY x) eqn:Ea
          end; cbn [opt_bind];
      run_finish; intros Hp Harr;
      (split; [shape_pending Hp Hlst Hacc | shape_calls Hp Hcalls]).
  - (* BOUND_INDEX *)
    destruct (Z.eqb_spec (obj1 r) (-1)) as [E1|E1];
      destruct (Z.leb_spec 0 (obj1 r)) as [E2|E2];
      destruct (Z.leb_spec 0 (obj2 r)) as [E3|E3];
      cbn [andb opt_bind]; try lia; read_sub;
      try match goal with
          | |- context [if RT_IS_ARRAY ?x then _ else _] =>
              destruct (RT_IS_ARRAY x) eqn:Ea
          end; cbn [opt_bind];
      read_sub; cbn [opt_bind]; run_finish; intros Hp Harr;
      (split; [shape_pending Hp Hlst Hacc | shape_calls Hp Hcalls]).
  - (* UNTIE_INDEX *)
    destruct (Z.eqb_spec (obj1 r) (-1)) as [E1|E1];
      destruct (Z.leb_spec 0 (obj1 r)) as [E2|E2];
      destruct (Z.leb_spec 0 (obj2 r)) as [E3|E3];
      cbn [andb opt_bind]; try lia; read_sub;
      try match goal with
          | |- context [if RT_IS_ARRAY ?x then _ else _] =>
              destruct (RT_IS_ARRAY x) eqn:Ea
          end; cbn [opt_bind];
      read_sub; cbn [opt_bind]; run_finish; intros Hp Harr;
      (split; [shape_pending Hp Hlst Hacc | shape_calls Hp Hcalls]).
  - (* default *)
    run_finish; intros Hp Harr;
      (split; [shape_pending Hp Hlst Hacc | shape_calls Hp Hcalls]).
Qed.

Lemma rel_loop_spec (opts : rt_cell) (this : rt_Tree)
    (rels : list rt_RELATION) :
  forall st,
  exists st' calls,
    rel_loop opts this st rels = Some (st', calls) /\
    (pending_shape st -> RT_IS_ARRAY (tag (tree_obj this)) = true ->
     pending_shape st' /\ Forall call_shape calls).
Proof.
  induction rels as [|r rest IH]; intro st; cbn [rel_loop].
  - exists st, []. split; [reflexivity|]. intros Hp _. now split.
  - destruct (rel_step_spec opts this st r) as (st1 & calls1 & -> & H1).
    cbn [opt_bind].
    destruct (IH st1) as (st2 & calls2 & -> & H2). cbn [opt_bind].
    exists st2, (calls1 ++ calls2). split; [reflexivity|].
    intros Hp Harr. destruct (H1 Hp Harr) as [Hp1 Hc1].
    destruct (H2 Hp1 Harr) as [Hp2 Hc2].
    split; [exact Hp2|]. apply Forall_app. now split.
Qed.

(** X16.  The relations loop of [rt_Array::update] never reads outside
    an array and never links a null element: whatever indices and kinds
    the relations of the scene data hold, every access [obj_arr[k]] it
    makes has [0 <= k < obj_num] (a relation with an index beyond the
    current sub-array is skipped). *)
Theorem array_relations_in_bounds (opts : rt_cell) (this : rt_Tree)
    (rels : list rt_RELATION) :
  exists calls, array_relations opts this rels = Some calls.
Proof.
  unfold array_relations. destruct rels as [|r rest]; [now exists []|].
  destruct (rel_loop_spec opts this (r :: rest)
              (mk_rel_state [] 0 (tree_arr this) (tree_arr this)))
    as (st' & calls & -> & _).
  now exists calls.
Qed.

(** X17.  Every template the relations loop hands to [add_relation] is
    either a single clipper element (MINUS_INNER or MINUS_OUTER of an
    object of the array) or a complete accumulation segment: the leave
    marker, at least one clipper, the enter marker; and every
    [update_bvnode] call names an array as the bounding volume. *)
Theorem array_relations_shapes (opts : rt_cell) (this : rt_Tree)
    (rels : list rt_RELATION) (calls : list rel_call) :
  RT_IS_ARRAY (tag (tree_obj this)) = true ->
  array_relations opts this rels = Some calls ->
  Forall call_shape calls.
Proof.
  intros Harr. unfold array_relations.
  destruct rels as [|r rest]; [intros [= <-]; constructor|].
  destruct (rel_loop_spec opts this (r :: rest)
              (mk_rel_state [] 0 (tree_arr this) (tree_arr this)))
    as (st' & calls' & -> & Hs).
  cbn [option_map snd]. intros [= <-].
  apply Hs; [|exact Harr]. left. now split.
Qed.

End ArrayRelationsTheorems.

(** * Bounding polyhedron and bounding sphere *)

Section VertsTheorems.

Context `{rt_Geom}.

(** X18.  Without a trnode and with an axis mapping onto three
    different axes, the eight vertices [rt_Quadric::update] writes are
    corners of the bounding box (every coordinate is the lower or the
    upper bound of its axis), each of the twelve edges of the table runs
    along the axis it is labelled with, from one bound to the other, and
    each of the six faces lies across the axis of its first label, its
    two other labels naming the two axes it spans. *)
Theorem quadric_vertices_box (st : rt_store) (s : rt_Surface)
    (shp : rt_Bound) (stack : nat -> rt_vec4) (old : list rt_vec4) :
  trnode (node s) = None ->
  axis_map_injective s ->
  b_verts shp = Some old ->
  List.length old = 8%nat ->
  let shp' := rt_Quadric_update_verts st s shp stack in
  exists verts,
    b_verts shp' = Some verts /\
    List.length verts = 8%nat /\
    (forall v a, In v verts ->
       vget (v_xyz v) a = vget (bmin s) a \/
       vget (v_xyz v) a = vget (bmax s) a) /\
    Forall2 (edge_along s verts) qd_edges (b_edges_k shp') /\
    Forall2 (face_across s verts) qd_faces (b_faces_kij shp').
Proof.
  intros Htr (Hij & Hik & Hjk) Hv Hlen. cbv zeta.
  unfold rt_Quadric_update_verts, update_verts. rewrite Hv, Htr.
  destruct old as [|v0 [|v1 [|v2 [|v3 [|v4 [|v5 [|v6 [|v7 [|]]]]]]]]];
    try discriminate.
  cbn [combine qd_corners map].
  destruct (rt_Surface_update_bounds _) as [mid rad].
  eexists. split; [reflexivity|]. split; [reflexivity|].
  unfold qd_edges_k, qd_faces_kij, corner, box_pick.
  cbn [b_edges_k b_faces_kij map].
  destruct (mp_i s), (mp_j s), (mp_k s); try congruence; clear Hij Hik Hjk;
    (split; [|split]).
  all: try (intros v a [<- | [<- | [<- | [<- | [<- | [<- | [<- | [<- | []]]]]]]]];
            destruct a; cbn; auto).
  all: try (unfold qd_edges; repeat constructor;
            unfold edge_along, vertex; cbn [fst snd Z.to_nat nth];
            (eexists; split; [reflexivity|]); cbn;
            (split; [intros a Hne; destruct a; congruence || reflexivity
                    | auto])).
  all: unfold qd_faces; repeat constructor;
       unfold face_across, vertex; cbn [Z.to_nat nth];
       (do 3 eexists; split; [reflexivity|]; split; [reflexivity|];
        split; [reflexivity|]); cbn;
       (split; [discriminate|]; split; [discriminate|];
        split; [discriminate|]);
       eexists; (split; [|repeat split; reflexivity]); auto.
Qed.

(** X19.  The four vertices [rt_Plane::update] writes without a trnode
    are the corners of the upper K face of the bounding box, each edge
    runs along the axis it is labelled with and the face lies across
    K. *)
Theorem plane_vertices_box (st : rt_store) (s : rt_Surface)
    (shp : rt_Bound) (stack : nat -> rt_vec4) (old : list rt_vec4) :
  trnode (node s) = None ->
  axis_map_injective s ->
  b_verts shp = Some old ->
  List.length old = 4%nat ->
  let shp' := rt_Plane_update_verts st s shp stack in
  exists verts,
    b_verts shp' = Some verts /\
    List.length verts = 4%nat /\
    (forall v, In v verts ->
       vget (v_xyz v) (mp_k s) = vget (bmax s) (mp_k s) /\
       forall a, vget (v_xyz v) a = vget (bmin s) a \/
                 vget (v_xyz v) a = vget (bmax s) a) /\
    Forall2 (edge_along s verts) pl_edges (b_edges_k shp') /\
    Forall2 (face_across s verts) pl_faces (b_faces_kij shp').
Proof.
  intros Htr (Hij & Hik & Hjk) Hv Hlen. cbv zeta.
  unfold rt_Plane_update_verts, update_verts. rewrite Hv, Htr.
  destruct old as [|v0 [|v1 [|v2 [|v3 [|]]]]]; try discriminate.
  cbn [combine pl_corners qd_corners firstn map].
  destruct (rt_Surface_update_bounds _) as [mid rad].
  eexists. split; [reflexivity|]. split; [reflexivity|].
  unfold pl_edges_k, pl_faces_kij, corner, box_pick.
  cbn [b_edges_k b_faces_kij map].
  destruct (mp_i s), (mp_j s), (mp_k s); try congruence; clear Hij Hik Hjk;
    (split; [|split]).
  all: try (intros v [<- | [<- | [<- | [<- | []]]]];
            (split; [reflexivity | intro a; destruct a; cbn; auto])).
  all: try (unfold pl_edges; repeat constructor;
            unfold edge_along, vertex; cbn [fst snd Z.to_nat nth];
            (eexists; split; [reflexivity|]); cbn;
            (split; [intros a Hne; destruct a; congruence || reflexivity
                    | auto])).
  all: unfold pl_faces; repeat constructor;
       unfold face_across, vertex; cbn [Z.to_nat nth];
       (do 3 eexists; split; [reflexivity|]; split; [reflexivity|];
        split; [reflexivity|]); cbn;
       (split; [discriminate|]; split; [discriminate|];
        split; [discriminate|]);
       eexists; (split; [|repeat split; reflexivity]); auto.
Qed.

Lemma corner_init (s : rt_Surface) (init init' : rt_vec4)
    (c : bool * bool * bool) :
  axis_map_injective s -> corner s init c = corner s init' c.
Proof.
  intros (Hij & Hik & Hjk). unfold corner. destruct c as [[ci cj] ck].
  f_equal. destruct (v_xyz init), (v_xyz init').
  destruct (mp_i s), (mp_j s), (mp_k s); try congruence; reflexivity.
Qed.

(** X20.  With an axis mapping onto three different axes the vertices
    do not depend on what the memory they are built in held before:
    neither on the uninitialised locals of the branch with a trnode nor
    on the previous positions of the vertices in the branch without. *)
Theorem update_verts_initialised (st : rt_store) (s : rt_Surface)
    (corners : list (bool * bool * bool)) (old old' : list rt_vec4)
    (stack stack' : nat -> rt_vec4) :
  axis_map_injective s ->
  List.length old = List.length old' ->
  update_verts st s corners old stack = update_verts st s corners old' stack'.
Proof.
  intros Hinj Hlen. unfold update_verts.
  destruct (trnode (node s)) as [tn|].
  - apply map_ext. intros [n c]. f_equal. now apply corner_init.
  - revert old' corners Hlen.
    induction old as [|v old IH]; intros [|v' old'] corners Hlen;
      try discriminate; [reflexivity|].
    destruct corners as [|c corners]; [reflexivity|].
    cbn [combine map]. f_equal.
    + now apply corner_init.
    + apply IH. now injection Hlen.
Qed.

Lemma fold_rad2_max (mid : rt_vec3) (verts : list rt_vec4) (r0 : rt_real) :
  let r := fold_left
             (fun rad v =>
                if Qlt_bool rad (dff_dot mid v) then dff_dot mid v else rad)
             verts r0 in
  (r0 <= r)%Q /\
  (forall v, In v verts -> (dff_dot mid v <= r)%Q) /\
  (r = r0 \/ exists v, In v verts /\ r = dff_dot mid v).
Proof.
  revert r0. induction verts as [|v verts IH]; intro r0; cbn [fold_left].
  - split; [lra|]. split; [intros v []|]. now left.
  - destruct (IH (if Qlt_bool r0 (dff_dot mid v) then dff_dot mid v else r0))
      as (Hge & Hall & Hatt).
    destruct (Qlt_bool r0 (dff_dot mid v)) eqn:E;
      [apply Qlt_bool_true in E | apply Qlt_bool_false in E].
    + split; [lra|]. split.
      * intros w [<- | Hin]; [exact Hge | now apply Hall].
      * right. destruct Hatt as [-> | (w & Hin & ->)].
        -- exists v. split; [now left | reflexivity].
        -- exists w. split; [now right | reflexivity].
    + split; [exact Hge|]. split.
      * intros w [<- | Hin]; [lra | now apply Hall].
      * destruct Hatt as [-> | (w & Hin & ->)]; [now left|].
        right. exists w. split; [now right | reflexivity].
Qed.

Lemma dff_dot_nonneg (mid : rt_vec3) (v : rt_vec4) : (0 <= dff_dot mid v)%Q.
Proof.
  unfold dff_dot, RT_VEC3_DOT, RT_VEC3_SUB. cbn [vx vy vz].
  generalize (vx mid - vx (v_xyz v))%Q, (vy mid - vy (v_xyz v))%Q,
    (vz mid - vz (v_xyz v))%Q.
  intros a b c. nra.
Qed.

(** X21.  The bounding sphere of [rt_Surface::update_bounds]: no
    vertex lies farther from the centre the first loop leaves than the
    largest squared distance the second loop finds, some vertex lies
    exactly that far, and the radius is the square root macro applied
    to that squared distance. *)
Theorem bounding_sphere_encloses (verts : list rt_vec4) :
  verts <> [] ->
  let mid := fst (rt_Surface_update_bounds verts) in
  let rad := snd (rt_Surface_update_bounds verts) in
  (forall v, In v verts -> (dff_dot mid v <= bound_rad2 mid verts)%Q) /\
  (exists v, In v verts /\ (bound_rad2 mid verts == dff_dot mid v)%Q) /\
  rad = RT_SQRT (bound_rad2 mid verts).
Proof.
  intro Hne. cbv zeta. unfold rt_Surface_update_bounds.
  destruct verts as [|v0 vs]; [congruence|]. clear Hne.
  set (verts := v0 :: vs). cbn [fst snd].
  split; [|split].
  - intros v Hin.
    destruct (fold_rad2_max (bound_mid verts) verts 0%Q) as (_ & Hall & _).
    now apply Hall.
  - destruct (fold_rad2_max (bound_mid verts) verts 0%Q)
      as (_ & Hall & [Hz | (w & Hin & Hw)]).
    + exists v0. split; [now left|].
      pose proof (Hall v0 (or_introl eq_refl)) as Hle.
      pose proof (dff_dot_nonneg (bound_mid verts) v0) as Hnn.
      unfold bound_rad2. rewrite Hz in *. lra.
    + exists w. split; [exact Hin|]. unfold bound_rad2. rewrite Hw.
      reflexivity.
  - reflexivity.
Qed.

End VertsTheorems.

(** * Materials and textures *)

Section MaterialTheorems.

Import Material.

Context `{rt_Headers} `{rt_Macros} `{rt_Props}.

Variable cstr : rt_pntr -> rt_pstr.
Variable load_image : rt_pstr -> rt_result rt_TEX.

Lemma resolve_texture_bound (rg rg' : list rt_Texture) (tx tx' : rt_TEX) :
  (x_dim tx =? 0) && (y_dim tx =? 0) = false ->
  resolve_texture cstr load_image rg tx = Ok (rg', tx') ->
  rg' = rg /\ tx' = tx.
Proof.
  intros Hd. unfold resolve_texture. rewrite Hd. cbn [andb]. rewrite Hd.
  cbn [andb]. now intros [= <- <-].
Qed.

(** X22.  Constructing a material and destroying it again leaves the
    scene record as it was: whatever [resolve_texture] wrote into
    [mat->tex] (a colour defined in place, a loaded image), the
    destructor puts the original texture data back. *)
Theorem material_texture_restored (fuel : nat) (rg rg' : list rt_Texture)
    (sd : rt_SIDE) (mat mat' : rt_MATERIAL) (otx0 : rt_TEX)
    (map0 sgn0 : rt_cell * rt_cell) (m : rt_Material) :
  rt_Material_ctor cstr load_image fuel rg sd (Some mat) otx0 map0 sgn0
    = Some (Ok (rg', mat', m)) ->
  rt_Material_dtor m mat' = mat.
Proof.
  unfold rt_Material_ctor.
  destruct (resolve_texture cstr load_image rg (tex mat))
    as [[rg1 tx]|msg] eqn:Hres; [|discriminate].
  destruct (lg2_loop fuel (x_dim tx) 0) as [x_lg2|]; [|discriminate].
  intros [= _ <- <-]. unfold rt_Material_dtor. cbn [otx tag lgt prp].
  destruct ((x_dim (tex mat) =? 0) && (y_dim (tex mat) =? 0)) eqn:Hd.
  - rewrite Hd. now destruct mat.
  - cbn [x_dim y_dim Z.eqb andb].
    destruct (resolve_texture_bound _ _ Hd Hres) as [_ ->].
    now destruct mat.
Qed.

Lemma find_texture_none (rg : list rt_Texture) (name : rt_pstr) :
  find_texture rg name = None -> ~ In name (List.map t_name rg).
Proof.
  unfold find_texture. intros Hf Hin.
  apply in_map_iff in Hin. destruct Hin as (t & Hn & Hin).
  pose proof (List.find_none _ _ Hf t Hin) as Hne. cbn in Hne.
  rewrite <- Hn, String.eqb_refl in Hne. discriminate.
Qed.

(** X23.  [resolve_texture] loads an image at most once: it leaves the
    registry's list as it was or puts one texture in front whose name
    was not in the list (so names stay unique), and resolving the same
    texture record against the resulting list returns the same texture
    data without loading anything. *)
Theorem texture_loaded_once (rg rg' : list rt_Texture) (tx tx' : rt_TEX) :
  resolve_texture cstr load_image rg tx = Ok (rg', tx') ->
  registry_step rg rg' /\
  (unique_names rg -> unique_names rg') /\
  resolve_texture cstr load_image rg' tx = Ok (rg', tx').
Proof.
  unfold resolve_texture.
  set (tx1 := if (x_dim tx =? 0) && (y_dim tx =? 0) && is_null (ptex tx)
              then set_color_in_place tx else tx).
  destruct ((x_dim tx1 =? 0) && (y_dim tx1 =? 0) && negb (is_null (ptex tx1)))
    eqn:Hload.
  - destruct (find_texture rg (cstr (ptex tx1))) as [t|] eqn:Hf.
    + intros [= <- <-]. rewrite Hf.
      split; [now left|]. split; [auto | reflexivity].
    + unfold rt_Texture_ctor.
      destruct (load_image (cstr (ptex tx1))) as [img|msg]; [|discriminate].
      cbn [bind]. intros [= <- <-].
      pose proof (find_texture_none _ _ Hf) as Hnew.
      split; [|split].
      * right. eexists. split; [reflexivity | exact Hnew].
      * intro Hu. unfold unique_names. cbn [List.map t_name].
        now constructor.
      * unfold find_texture. cbn [find t_name].
        now rewrite String.eqb_refl.
  - intros [= <- <-]. split; [now left|]. split; [auto | reflexivity].
Qed.

Lemma lg2_loop_positive (fuel : nat) (x l : rt_cell) :
  0 < x -> Z.log2 x < Z.of_nat fuel ->
  lg2_loop fuel x l = Some (l + Z.log2 x).
Proof.
  revert x l. induction fuel as [|fuel IH]; intros x l Hx Hf.
  - pose proof (Z.log2_nonneg x). lia.
  - cbn [lg2_loop].
    pose proof (Z.log2_shiftr x 1 Hx) as Hs.
    destruct (Z.shiftr x 1 =? 0) eqn:E.
    + apply Z.eqb_eq in E. rewrite Z.shiftr_div_pow2 in E by lia.
      change (2 ^ 1) with 2 in E.
      assert (x = 1) by (pose proof (Z.div_mod x 2); pose proof (Z.mod_pos_bound x 2); lia).
      subst x. f_equal. cbn. lia.
    + apply Z.eqb_neq in E.
      assert (Hpos : 0 < Z.shiftr x 1).
      { pose proof (Z.shiftr_nonneg x 1). lia. }
      assert (Hge : 1 <= Z.log2 x).
      { assert (H2 : 2 <= x).
        { rewrite Z.shiftr_div_pow2 in Hpos by lia.
          change (2 ^ 1) with 2 in Hpos.
          destruct (Z_lt_le_dec x 2) as [Hlt|Hle]; [|exact Hle].
          rewrite Z.div_small in Hpos by lia. lia. }
        pose proof (Z.log2_le_mono 2 x H2) as Hm.
        change (Z.log2 2) with 1 in Hm. exact Hm. }
      rewrite IH by lia. f_equal. lia.
Qed.

Lemma lg2_loop_negative (fuel : nat) (x l : rt_cell) :
  x < 0 -> lg2_loop fuel x l = None.
Proof.
  revert x l. induction fuel as [|fuel IH]; intros x l Hx; [reflexivity|].
  cbn [lg2_loop].
  assert (Hs : Z.shiftr x 1 < 0) by now apply Z.shiftr_neg.
  destruct (Z.shiftr x 1 =? 0) eqn:E; [apply Z.eqb_eq in E; lia|].
  now apply IH.
Qed.

(** X24.  The loop [while (x_dim >>= 1) x_lg2++] leaves the position of
    the highest set bit of a dimension that is not negative (so k for
    the dimension 2^k, and 0 for the dimensions 0 and 1), within at most
    that many tests plus one; on a negative dimension it never ends. *)
Theorem x_lg2_highest_bit (fuel : nat) (x_dim : rt_cell) :
  (0 <= x_dim -> Z.log2 x_dim < Z.of_nat fuel ->
   lg2_loop fuel x_dim 0 = Some (Z.log2 x_dim)) /\
  (forall k, 0 <= k < Z.of_nat fuel ->
   lg2_loop fuel (2 ^ k) 0 = Some k) /\
  (x_dim < 0 -> lg2_loop fuel x_dim 0 = None).
Proof.
  split; [|split].
  - intros Hx Hf. destruct (Z.eq_dec x_dim 0) as [->|Hne].
    + destruct fuel; [cbn in Hf; lia | reflexivity].
    + rewrite lg2_loop_positive by lia. reflexivity.
  - intros k Hk.
    rewrite lg2_loop_positive.
    + now rewrite Z.log2_pow2 by lia.
    + apply Z.pow_pos_nonneg; lia.
    + rewrite Z.log2_pow2 by lia. lia.
  - apply lg2_loop_negative.
Qed.

Lemma RT_FABS_opp (x : rt_real) : (RT_FABS (- x) == RT_FABS x)%Q.
Proof. unfold RT_FABS. split_cmp; lra. Qed.

Lemma Qeq_bool_fabs_opp (x y : rt_real) :
  Qeq_bool (RT_FABS (- x)) y = Qeq_bool (RT_FABS x) y.
Proof.
  destruct (Qeq_bool (RT_FABS x) y) eqn:E.
  - apply Qeq_bool_iff in E. apply Qeq_bool_iff.
    now rewrite RT_FABS_opp.
  - apply Qeq_bool_neq in E.
    destruct (Qeq_bool (RT_FABS (- x)) y) eqn:E'; [|reflexivity].
    apply Qeq_bool_iff in E'. rewrite RT_FABS_opp in E'. contradiction.
Qed.

(** X25.  The axis mapping of a texture never holds a stale value: for
    the rotation matrix the constructor builds either both rows match
    (the mapping is U, V in order or swapped) or none does (the default
    U, V with signs 1 is taken), so the result does not depend on what
    the locals [map] and [sgn] held before. *)
Theorem texture_axes_initialised (sd : rt_SIDE)
    (map0 sgn0 map0' sgn0' : rt_cell * rt_cell) :
  let ax := texture_axes (texture_matrix sd) map0 sgn0 in
  texture_axes (texture_matrix sd) map0' sgn0' = ax /\
  ((tm_match ax = 2 /\ axes_permuted (tm_map ax)) \/
   (tm_match ax = 0 /\ tm_map ax = (RT_U, RT_V) /\ tm_sgn ax = (1, 1))).
Proof.
  cbv zeta. unfold texture_axes, texture_matrix, tex_step, axes_permuted.
  generalize (RT_COSA (sd_rot sd)) (RT_SINA (sd_rot sd)). intros c s.
  cbn [fold_left get2 set2 Z.eqb fst snd].
  change (vx (mrow iden4 (axis_of_index 0))) with 1%Q.
  change (vy (mrow iden4 (axis_of_index 0))) with 0%Q.
  change (vx (mrow iden4 (axis_of_index 1))) with 0%Q.
  change (vy (mrow iden4 (axis_of_index 1))) with 1%Q.
  rewrite !Qeq_bool_fabs_opp.
  destruct (Qeq_bool (RT_FABS c) 1) eqn:C1;
    destruct (Qeq_bool (RT_FABS c) 0) eqn:C0;
    try (apply Qeq_bool_iff in C1; apply Qeq_bool_iff in C0; lra);
    destruct (Qeq_bool (RT_FABS s) 1) eqn:S1;
    destruct (Qeq_bool (RT_FABS s) 0) eqn:S0;
    try (apply Qeq_bool_iff in S1; apply Qeq_bool_iff in S0; lra);
    cbn [andb tm_map tm_sgn tm_match set2 get2 Z.eqb Z.ltb Z.add Z.compare
         Pos.compare Pos.compare_cont Pos.add fst snd];
    (split; [reflexivity|]); auto.
Qed.

End MaterialTheorems.

(** * The statements at concrete inputs *)

(** C5: with FSCALE clear, a rotation of 45 degrees with unit scale sets
    the SCL flag although every scale component is +1. *)
Lemma obj_has_trm_flags_counterexample :
  let o' := fst (@rt_Object_update example_headers 0 [] example_rotated
                   0 M_iden 2) in
  obj_changed o' <> 0 /\
  Z.land (obj_has_trm o') (@RT_UPDATE_FLAG_SCL example_headers) <> 0 /\
  scl_trivial (trm o').
Proof.
  cbv zeta. split; [vm_compute; discriminate|].
  split; [vm_compute; discriminate|].
  repeat split; exists 1%Q; (split; [right; left; reflexivity | reflexivity]).
Qed.

Lemma obj_has_trm_flags_witness :
  let o' := fst (@rt_Object_update example_headers 1 [] example_rotated
                   0 M_iden 2) in
  @trm_flags_distinct example_headers /\ obj_changed o' <> 0 /\
  (Z.land (obj_has_trm o') 16 <> 0 <-> ~ rot_trivial (trm o')).
Proof.
  cbv zeta.
  assert (Hd : @trm_flags_distinct example_headers)
    by (repeat split; discriminate).
  assert (Hc : obj_changed
                 (fst (@rt_Object_update example_headers 1 [] example_rotated
                         0 M_iden 2)) <> 0)
    by (vm_compute; discriminate).
  split; [exact Hd|]. split; [exact Hc|].
  apply (@obj_has_trm_flags example_headers 1 [] example_rotated
           0 M_iden 2 Hd Hc).
  vm_compute; discriminate.
Defined.



(** C1: a camera with a trivial transform under a rotated array ends up
    as its own trnode, while the nearest object with a transform of its
    own is the array. *)
Lemma trnode_after_update_counterexample :
  let o' := fst (@rt_Object_update example_headers 2 [example_parent]
                   example_camera 0 M_iden 2) in
  obj_changed o' <> 0 /\
  trnode o' = Some 2%nat /\
  obj_has_trm o' = 0 /\
  nearest_own_transform o' [example_parent] = Some 1%nat /\
  trnode o' <> nearest_own_transform o' [example_parent].
Proof.
  cbv zeta. repeat split; vm_compute; try reflexivity; discriminate.
Qed.

Lemma trnode_after_update_witness :
  let o' := fst (@rt_Object_update example_headers 2 [example_parent]
                   example_plane 0 M_iden 2) in
  ~ In (this example_plane) (map this [example_parent]) /\
  obj_changed o' <> 0 /\
  trnode o' = nearest_own_transform o' [example_parent] /\
  trnode o' = Some 1%nat.
Proof.
  cbv zeta.
  assert (Ha : ~ In (this example_plane) (map this [example_parent]))
    by (cbn; intros [e | []]; discriminate).
  assert (Hc : obj_changed
                 (fst (@rt_Object_update example_headers 2 [example_parent]
                         example_plane 0 M_iden 2)) <> 0)
    by (vm_compute; discriminate).
  split; [exact Ha|]. split; [exact Hc|].
  destruct (@trnode_after_update example_headers 2 [example_parent]
              example_plane 0 M_iden 2 Ha Hc) as (_ & Hnear & _).
  split; [|reflexivity].
  apply Hnear; [vm_compute; discriminate | reflexivity].
Defined.

(** C8: turning left by exactly 180 degrees from 0 ends at -180, outside
    (-180, +180]; so does pitching down by 20 degrees from -170. *)
Lemma camera_rotation_counterexample :
  (normalized_rot (cam_rot example_cam RT_Z) /\
   (Qle 0 (action_delta example_cam 50 RT_CAMERA_ROTATE_LEFT) /\
    Qlt (action_delta example_cam 50 RT_CAMERA_ROTATE_LEFT) 360) /\
   ~ normalized_rot
       (cam_rot (rt_Camera_update_action example_cam 50
                   RT_CAMERA_ROTATE_LEFT) RT_Z)) /\
  (normalized_rot (cam_rot example_cam_low RT_X) /\
   (Qle 0 (action_delta example_cam_low 50 RT_CAMERA_ROTATE_DOWN) /\
    Qlt (action_delta example_cam_low 50 RT_CAMERA_ROTATE_DOWN) 360) /\
   ~ normalized_rot
       (cam_rot (rt_Camera_update_action example_cam_low 50
                   RT_CAMERA_ROTATE_DOWN) RT_X)).
Proof.
  unfold normalized_rot.
  split; (split; [vm_compute; split; [reflexivity | discriminate]|]);
    (split; [vm_compute; split; [discriminate | reflexivity]|]);
    vm_compute; intros [Hlt _]; discriminate.
Qed.

Lemma camera_rotation_bounded_witness :
  (Qle 0 (action_delta example_cam 50 RT_CAMERA_ROTATE_LEFT) /\
   Qlt (action_delta example_cam 50 RT_CAMERA_ROTATE_LEFT) 360) /\
  (forall a, bounded_rot (cam_rot example_cam a)) /\
  (forall a, bounded_rot
               (cam_rot (rt_Camera_update_action example_cam 50
                           RT_CAMERA_ROTATE_LEFT) a)).
Proof.
  assert (Hd : Qle 0 (action_delta example_cam 50 RT_CAMERA_ROTATE_LEFT) /\
               Qlt (action_delta example_cam 50 RT_CAMERA_ROTATE_LEFT) 360)
    by (vm_compute; split; [discriminate | reflexivity]).
  assert (Hb : forall a, bounded_rot (cam_rot example_cam a))
    by (intros []; vm_compute; split; discriminate).
  split; [exact Hd|]. split; [exact Hb|].
  exact (@camera_rotation_bounded example_headers example_cam 50
           RT_CAMERA_ROTATE_LEFT Hd Hb).
Defined.

(** C6: a sphere whose clipper box is unbounded on all axes still gets
    the 8 / 12 / 6 polyhedron. *)
Lemma unbounded_box_polyhedron_counterexample :
  @all_infinite example_headers unbounded_SURFACE /\
  exists outer inner,
    @rt_Surface_ctor example_headers example_OBJ (SH_SPHERE 1) unbounded_SURFACE
    = Ok (Built_Surface (SH_SPHERE 1)
            (mk_SHAPE 8 (Some (repeat vzero 8))
                      12 (Some qd_edges) 6 (Some qd_faces))
            outer inner).
Proof.
  split.
  - intros []; split; reflexivity.
  - exists example_material, example_material. reflexivity.
Qed.

Lemma unbounded_box_polyhedron_witness :
  @all_infinite example_headers unbounded_SURFACE /\
  @rt_Surface_ctor example_headers example_OBJ SH_PLANE unbounded_SURFACE
  = Ok (Built_Surface SH_PLANE no_polyhedron example_material
                      example_material) /\
  @shape_polyhedron example_headers SH_PLANE unbounded_SURFACE = no_polyhedron.
Proof.
  assert (Hi : @all_infinite example_headers unbounded_SURFACE)
    by (intros []; split; reflexivity).
  assert (Hc : @rt_Surface_ctor example_headers example_OBJ SH_PLANE
                 unbounded_SURFACE
               = Ok (Built_Surface SH_PLANE no_polyhedron example_material
                                   example_material))
    by reflexivity.
  split; [exact Hi|]. split; [exact Hc|].
  destruct (@unbounded_box_polyhedron example_headers example_OBJ SH_PLANE
              unbounded_SURFACE _ Hi Hc) as (outer & inner & _ & Hs).
  exact Hs.
Defined.



(** C3: on the slab 3/5 <= k <= 4/5 of the unit sphere the code takes
    top = 3/5 (the near face), not max(|3/5|, |4/5|) = 4/5, and bounds the
    I axis by sqrt(1 - 9/25) = 4/5, not by sqrt(1 - 16/25) = 3/5. *)
Lemma sphere_adjust_minmax_counterexample :
  let smin := srf_min example_sphere in
  let smax := srf_max example_sphere in
  (sphere_top smin smax RT_K == 3 # 5)%Q /\
  (spec_sphere_top 1 smin smax RT_K == 4 # 5)%Q /\
  ~ (sphere_top smin smax RT_K == spec_sphere_top 1 smin smax RT_K)%Q /\
  exists bmn bmx c,
    adjust_minmax example_sphere smin smax true true
    = (Some (bmn, bmx), c) /\
    (vget bmx RT_I == 4 # 5)%Q /\
    ~ (vget bmx RT_I
       == @RT_SQRT example_headers
            (1 * 1 - spec_sphere_top 1 smin smax RT_K
                     * spec_sphere_top 1 smin smax RT_K))%Q.
Proof.
  cbv zeta. split; [reflexivity|]. split; [reflexivity|].
  split; [vm_compute; discriminate|].
  do 3 eexists. split; [reflexivity|].
  split; vm_compute; [reflexivity | discriminate].
Qed.

Lemma sphere_adjust_minmax_boxes_witness :
  shape example_sphere = SH_SPHERE 1 /\
  (vget (@sphere_radii example_headers 1 (srf_min example_sphere)
           (srf_max example_sphere))
        RT_I
   == 4 # 5)%Q.
Proof.
  assert (Hs : shape example_sphere = SH_SPHERE 1) by reflexivity.
  split; [exact Hs|].
  destruct (@sphere_adjust_minmax_boxes example_headers example_sphere 1%Q
              (srf_min example_sphere) (srf_max example_sphere) Hs)
    as (_ & (HI & _ & _) & _).
  rewrite HI. vm_compute. reflexivity.
Defined.

(** C2: an unchanged cylinder with an unchanged outer clipper keeps the
    boxes it had (here the zeros of a fresh object) instead of the
    boxes the three steps would compute. *)
Lemma update_minmax_counterexample :
  let s := example_cylinder 0 in
  no_clippers s = false /\ is_own_trnode s = false /\
  Z.land 4 (@RT_OPTS_ADJUST example_headers) <> 0 /\
  bbox_of (update_minmax 4 example_store s) = (vzero, vzero) /\
  cbox_of (update_minmax 4 example_store s) = (vzero, vzero) /\
  (vget (fst (fst (recomputed_boxes example_store s))) RT_K == -(1))%Q /\
  bbox_of (update_minmax 4 example_store s)
  <> fst (recomputed_boxes example_store s).
Proof.
  cbv zeta. repeat split; try reflexivity; vm_compute; discriminate.
Qed.

(** Cylinder minus sphere, updated as changed: the bounding box shrinks
    from +-9/2 to +-1 along K and from +-3/2 to +-1 along I and J. *)
Lemma update_minmax_cylinder_minus_sphere :
  let s := update_minmax 4 example_store (example_cylinder 2) in
  bmin s = vec3_of (-1) (-1) (-1) /\ bmax s = vec3_of 1 1 1 /\
  srf_changed s = 2.
Proof. cbv zeta. repeat split; vm_compute; reflexivity. Qed.


(** A second clipper of the same trnode goes under the existing trnode
    element; a clipper of that trnode added after an accumulation segment
    that holds one gets a trnode element of its own. *)
Lemma add_relation_examples :
  snd (add_relation_list
         [mk_TEMPLATE 1 (Some (Tree example_clipper_a []));
          mk_TEMPLATE 1 (Some (Tree example_clipper_b []))] (0%nat, []))
  = [mk_ELEM 1%nat 0 (Some 20%nat) (Some 20%nat);
     mk_ELEM 2%nat 1 (Some 22%nat) (Some 22%nat);
     mk_ELEM 0%nat 1 (Some 21%nat) (Some 21%nat)] /\
  snd (add_relation_list
         (example_template
          ++ [mk_TEMPLATE 1 (Some (Tree example_clipper_b []))])
         (0%nat, []))
  = [mk_ELEM 6%nat 5 (Some 20%nat) (Some 20%nat);
     mk_ELEM 5%nat 1 (Some 22%nat) (Some 22%nat);
     mk_ELEM 4%nat (-1) None None;
     mk_ELEM 3%nat 2 (Some 20%nat) (Some 20%nat);
     mk_ELEM 2%nat 1 (Some 21%nat) (Some 21%nat);
     mk_ELEM 1%nat (-1) (Some 23%nat) (Some 23%nat);
     mk_ELEM 0%nat 1 None None].
Proof. split; reflexivity. Qed.

(** * The further properties at concrete inputs *)

Lemma Qsqrt_down_nonneg (x : rt_real) : (0 <= Qsqrt_down x)%Q.
Proof.
  unfold Qsqrt_down, Qle. cbn [Qnum Qden].
  pose proof (Z.sqrt_nonneg (Qnum x * Z.pos (Qden x))). lia.
Qed.

Lemma example_macros_signs : @RT_SIGN_signs example_macros.
Proof.
  split; intros x Hx; cbn [RT_SIGN example_macros].
  - destruct (Qlt_bool x 0) eqn:E; [|reflexivity].
    apply Qlt_bool_true in E. lra.
  - destruct (Qlt_bool x 0) eqn:E; [reflexivity|].
    apply Qlt_bool_false in E. lra.
Qed.

Lemma example_ball_injective : @axis_map_injective example_headers example_ball.
Proof. repeat split; discriminate. Qed.

Lemma example_square_injective :
  @axis_map_injective example_headers example_square.
Proof. repeat split; discriminate. Qed.

Lemma adjust_minmax_bbox_in_cbox_witness :
  @in_range example_headers (vec3_of (-2) (-2) (-2)) (vec3_of 2 2 2) /\
  box_within
    (adjusted_bbox example_ball (vec3_of (-2) (-2) (-2)) (vec3_of 2 2 2))
    (adjusted_cbox example_ball (vec3_of (-2) (-2) (-2)) (vec3_of 2 2 2)).
Proof.
  assert (Hr : @in_range example_headers
                 (vec3_of (-2) (-2) (-2)) (vec3_of 2 2 2))
    by (intro a; destruct a; split; vm_compute; discriminate).
  split; [exact Hr|].
  apply (@adjust_minmax_bbox_in_cbox example_headers example_ball _ _);
    [vm_compute; discriminate | exact Hr].
Defined.

Lemma adjust_minmax_bbox_idempotent_witness :
  let b := adjusted_bbox example_ball
             (vec3_of (-2) (-2) (-2)) (vec3_of 2 2 2) in
  adjusted_bbox example_ball (fst b) (snd b) = b.
Proof.
  apply (@adjust_minmax_bbox_idempotent example_headers example_ball
           (vec3_of (-2) (-2) (-2)) (vec3_of 2 2 2)).
  exact Qsqrt_down_nonneg.
Defined.

Lemma direct_invert_roundtrip_witness :
  let b := direct_box example_ball
             (invert_minmax example_ball (vec3_of (-2) (-2) (-2))
                            example_upper) in
  (vget (snd b) RT_Z == @RT_INF example_headers)%Q.
Proof.
  cbv zeta.
  destruct (@direct_invert_roundtrip example_headers example_ball
              (vec3_of (-2) (-2) (-2)) example_upper
              example_ball_injective) as (_ & Hmax & _).
  apply (Hmax RT_Z). reflexivity.
Defined.

Lemma camera_pitch_clamped_witness :
  let c' := rt_Camera_update_action example_cam_low 50
              RT_CAMERA_ROTATE_DOWN in
  pitch_range (cam_rot example_cam_low RT_X) /\
  pitch_range (cam_rot c' RT_X) /\
  cam_rot c' RT_X = (-(180))%Q.
Proof.
  cbv zeta.
  assert (Hp : pitch_range (cam_rot example_cam_low RT_X))
    by (split; vm_compute; discriminate).
  split; [exact Hp|]. split; [|reflexivity].
  apply (@camera_pitch_clamped example_headers example_cam_low 50
           RT_CAMERA_ROTATE_DOWN); [vm_compute; discriminate | exact Hp].
Defined.

Lemma camera_action_picked_up_witness :
  let c1 := rt_Camera_update_action example_cam 50 RT_CAMERA_ROTATE_LEFT in
  let c2 := fst (rt_Camera_update 0 [] c1 50 M_iden 1) in
  obj_changed (cam_obj c2) = 2 /\ cam_changed c2 = 0.
Proof.
  cbv zeta.
  destruct (@camera_action_picked_up example_headers 0 [] example_cam 50 50
              RT_CAMERA_ROTATE_LEFT M_iden 1) as [Hobj _];
    [discriminate|].
  destruct Hobj as (Hc & Hl & _); [discriminate|].
  split; [exact Hc | exact Hl].
Defined.

Lemma update_bvnode_bind_untie_witness :
  update_bvnode (update_bvnode example_array (Some 7%nat) true)
                (Some 7%nat) false
  = example_array.
Proof.
  apply (@update_bvnode_bind_untie example_headers example_array 7%nat).
  repeat constructor; vm_compute; discriminate.
Defined.

Lemma axis_mapping_extracts_witness :
  let ax := @axis_mapping example_macros example_mat3 example_axes in
  basis_row (mrow example_mat3 RT_Y) RT_X /\
  aget (a_map ax) RT_Y = RT_X /\ iget (a_sgn ax) RT_Y = -1 /\
  (vget (a_scl ax) RT_Y == 3)%Q.
Proof.
  cbv zeta.
  assert (Hb : basis_row (mrow example_mat3 RT_Y) RT_X).
  { intro c; destruct c; split; intro Hc;
      first [ congruence | discriminate
            | exfalso; vm_compute in Hc; discriminate
            | reflexivity ]. }
  split; [exact Hb|].
  destruct (@axis_mapping_extracts example_macros example_mat3 example_axes
              RT_Y example_macros_signs) as [Hmatch _].
  destruct (Hmatch RT_X Hb) as (Hm & _).
  split; [exact Hm|]. split; reflexivity.
Defined.

Lemma example_mat3_aligned : axis_aligned example_mat3 example_perm.
Proof.
  intros i c; destruct i, c; cbn [example_perm]; split; intro Hc;
    first [ congruence | discriminate
          | exfalso; vm_compute in Hc; discriminate
          | reflexivity ].
Qed.

Lemma example_perm_injective : injective example_perm.
Proof. intros i i'; destruct i, i'; intro Hp; congruence || discriminate. Qed.

Lemma separate_scale_decomposes_witness :
  let ax := @axis_mapping example_macros example_mat3 example_axes in
  let sep := separate_scale ax example_mat3 in
  let axm := axis_matrix ax in
  (forall j c, j <> c -> (mget sep j c == 0)%Q) /\
  (forall j, (0 < mget sep j j)%Q) /\
  (forall i c, (mmul_entry axm sep i c == mget example_mat3 i c)%Q).
Proof.
  exact (@separate_scale_decomposes example_macros example_mat3 example_axes
           example_perm example_macros_signs example_mat3_aligned
           example_perm_injective).
Defined.

Lemma array_relations_shapes_witness :
  exists calls,
    @array_relations example_headers example_macros 0 example_array
      example_relations = Some calls /\
    List.length calls = 2%nat /\
    Forall call_shape calls.
Proof.
  eexists. split; [vm_compute; reflexivity|]. split; [reflexivity|].
  apply (@array_relations_shapes example_headers example_macros 0
           example_array example_relations);
    [reflexivity | vm_compute; reflexivity].
Defined.

Lemma quadric_vertices_box_witness :
  let shp' := @rt_Quadric_update_verts example_headers example_geom
                example_store example_ball (example_bound 8)
                (fun _ => origin4) in
  exists verts,
    b_verts shp' = Some verts /\
    List.length verts = 8%nat /\
    (forall v a, In v verts ->
       vget (v_xyz v) a = vget (bmin example_ball) a \/
       vget (v_xyz v) a = vget (bmax example_ball) a) /\
    Forall2 (edge_along example_ball verts) qd_edges (b_edges_k shp') /\
    Forall2 (face_across example_ball verts) qd_faces (b_faces_kij shp').
Proof.
  apply (@quadric_vertices_box example_headers example_geom example_store
           example_ball (example_bound 8) (fun _ => origin4)
           (repeat origin4 8));
    [reflexivity | exact example_ball_injective | reflexivity | reflexivity].
Defined.

Lemma plane_vertices_box_witness :
  let shp' := @rt_Plane_update_verts example_headers example_geom
                example_store example_square (example_bound 4)
                (fun _ => origin4) in
  exists verts,
    b_verts shp' = Some verts /\
    List.length verts = 4%nat /\
    (forall v, In v verts ->
       vget (v_xyz v) (mp_k example_square)
       = vget (bmax example_square) (mp_k example_square) /\
       forall a, vget (v_xyz v) a = vget (bmin example_square) a \/
                 vget (v_xyz v) a = vget (bmax example_square) a) /\
    Forall2 (edge_along example_square verts) pl_edges (b_edges_k shp') /\
    Forall2 (face_across example_square verts) pl_faces (b_faces_kij shp').
Proof.
  apply (@plane_vertices_box example_headers example_geom example_store
           example_square (example_bound 4) (fun _ => origin4)
           (repeat origin4 4));
    [reflexivity | exact example_square_injective | reflexivity | reflexivity].
Defined.

Lemma update_verts_initialised_witness :
  @update_verts example_headers example_geom example_store example_ball
    qd_corners (repeat origin4 8) (fun _ => origin4)
  = @update_verts example_headers example_geom example_store example_ball
      qd_corners (repeat (mk_vec4 (vec3_of 7 7 7) 5%Q) 8)
      (fun _ => mk_vec4 (vec3_of 9 9 9) 3%Q).
Proof.
  apply (@update_verts_initialised example_headers example_geom example_store
           example_ball qd_corners);
    [exact example_ball_injective | reflexivity].
Defined.

Lemma bounding_sphere_encloses_witness :
  let verts := [mk_vec4 (vec3_of 0 0 0) 1%Q; mk_vec4 (vec3_of 4 0 0) 1%Q] in
  let mid := fst (@rt_Surface_update_bounds example_headers verts) in
  (forall v, In v verts -> (dff_dot mid v <= bound_rad2 mid verts)%Q) /\
  (exists v, In v verts /\ (bound_rad2 mid verts == dff_dot mid v)%Q) /\
  snd (@rt_Surface_update_bounds example_headers verts)
  = @RT_SQRT example_headers (bound_rad2 mid verts).
Proof.
  apply (@bounding_sphere_encloses example_headers
           [mk_vec4 (vec3_of 0 0 0) 1%Q; mk_vec4 (vec3_of 4 0 0) 1%Q]).
  discriminate.
Defined.

Lemma material_texture_restored_witness :
  exists rg' mat' m,
    @Material.rt_Material_ctor example_headers example_macros example_props
      example_cstr example_load_image 32 [] example_side (Some example_wood)
      example_image (7, 7) (7, 7)
    = Some (Ok (rg', mat', m)) /\
    Material.tex mat' = example_image /\
    Material.rt_Material_dtor m mat' = example_wood.
Proof.
  do 3 eexists. split; [vm_compute; reflexivity|]. split; [reflexivity|].
  eapply (@material_texture_restored example_headers example_macros
           example_props example_cstr example_load_image 32 []
           _ example_side example_wood _ example_image (7, 7) (7, 7) _).
  vm_compute; reflexivity.
Defined.

Lemma texture_loaded_once_witness :
  exists rg' tx',
    Material.resolve_texture example_cstr example_load_image []
      example_tex_load = Ok (rg', tx') /\
    List.length rg' = 1%nat /\
    registry_step [] rg' /\
    (unique_names [] -> unique_names rg') /\
    Material.resolve_texture example_cstr example_load_image rg'
      example_tex_load = Ok (rg', tx').
Proof.
  do 2 eexists. split; [vm_compute; reflexivity|]. split; [reflexivity|].
  eapply (@texture_loaded_once example_cstr example_load_image []
           _ example_tex_load _).
  vm_compute; reflexivity.
Defined.
